(** * The doozer store: mutation codec, watch registry and dispatcher

    A shallow embedding of [src/pkg/store/store.go].  The codec
    ([checkPath], [EncodeSet], [EncodeDel], [decode]) is a set of pure
    functions on strings.  The dispatcher is the goroutine that runs
    [process]; one iteration of its loop is a function of the store and of
    the case of the [select] statement that fires.  The calls of the
    clients ([watchOn], [Wait], [Clean], [Flush]) meet the dispatcher on
    its channels; a history is a list of such calls, and a store is
    reachable when a history leads to it from [New].

    int64 values are integers with the wrap-around of Go written out;
    the log is a finite map; the pointers to [Watch] objects are
    identities into a heap that holds the fields a watch changes. *)

From Stdlib Require Import ZArith Lia Ascii String.
From stdpp Require Import base gmap list strings.

Local Open Scope Z_scope.

(** ** int64 *)

Definition min_int64 : Z := - 2 ^ 63.
Definition max_int64 : Z := 2 ^ 63 - 1.

Definition int64 (z : Z) : Prop := min_int64 <= z <= max_int64.

(** Go's signed arithmetic wraps around. *)
Definition wrap64 (z : Z) : Z := (z + 2 ^ 63) mod 2 ^ 64 - 2 ^ 63.

Definition add64 (a b : Z) : Z := wrap64 (a + b).
Definition sub64 (a b : Z) : Z := wrap64 (a - b).

(** Special values for a revision. *)
Definition Missing : Z := 0.
Definition Clobber : Z := -1.
Definition Dir : Z := -2.
Definition nop : Z := -3.

(** ** Errors *)

(** The two errors of package strconv. *)
Inductive errno := EINVAL | ERANGE.

(** The values of [os.Error] the package deals in.  [ENOTDIR] and [EISDIR]
    are the errors of the tree model below. *)
Inductive error :=
| ErrTooLate
| ErrBadMutation
| ErrRevMismatch
| BadPathError (Path : string)
| NumError (Num : string) (Error : errno)
| ENOTDIR
| EISDIR.

(** A function that returns or panics with an error. *)
Inductive or_panic (A : Type) :=
| Returned (x : A)
| Panic (err : error).
Arguments Returned {A}.
Arguments Panic {A}.

(** ** Regular expressions

    [pathRe] is built by package regexp; the expression is kept as a value
    and matched by derivatives.  Both alternatives of the pattern are
    anchored with [^] and [$], so [MatchString] is a match of the whole
    string. *)

Inductive regexp :=
| Void
| Eps
| Class (p : ascii -> bool)
| Cat (r s : regexp)
| Alt (r s : regexp)
| Plus (r : regexp).

Fixpoint nullable (r : regexp) : bool :=
  match r with
  | Void => false
  | Eps => true
  | Class _ => false
  | Cat r s => nullable r && nullable s
  | Alt r s => nullable r || nullable s
  | Plus r => nullable r
  end.

Fixpoint deriv (a : ascii) (r : regexp) : regexp :=
  match r with
  | Void | Eps => Void
  | Class p => if p a then Eps else Void
  | Cat r s =>
      if nullable r then Alt (Cat (deriv a r) s) (deriv a s)
      else Cat (deriv a r) s
  | Alt r s => Alt (deriv a r) (deriv a s)
  | Plus r => Cat (deriv a r) (Alt Eps (Plus r))
  end.

Fixpoint MatchString (re : regexp) (s : string) : bool :=
  match s with
  | EmptyString => nullable re
  | String a s' => MatchString (deriv a re) s'
  end.

Definition in_range (lo hi : ascii) (c : ascii) : bool :=
  (N_of_ascii lo <=? N_of_ascii c)%N && (N_of_ascii c <=? N_of_ascii hi)%N.

Definition is_char (x : ascii) (c : ascii) : bool :=
  (N_of_ascii x =? N_of_ascii c)%N.

(** [[a-zA-Z0-9.\-]] *)
Definition charPat : regexp :=
  Class (fun c => in_range "a" "z" c || in_range "A" "Z" c
                  || in_range "0" "9" c || is_char "." c || is_char "-" c).

(** [^/$|^(/p+)+$] *)
Definition mustBuildRe (p : regexp) : regexp :=
  Alt (Class (is_char "/")) (Plus (Cat (Class (is_char "/")) (Plus p))).

Definition pathRe : regexp := mustBuildRe charPat.

(** ** Package strings and strconv

    The functions of the Go library that the codec calls, for the
    arguments it calls them with. *)

(** [strings.Split(s, sep, 2)] for a separator of one byte: the whole
    string when [sep] does not occur, else the text before the first
    occurrence and the text after it.  The result is the first piece and,
    when there are two pieces, the second. *)
Fixpoint Split2 (s : string) (sep : ascii) : string * option string :=
  match s with
  | EmptyString => (EmptyString, None)
  | String c s' =>
      if is_char sep c then (EmptyString, Some s')
      else let '(a, b) := Split2 s' sep in (String c a, b)
  end.

Definition digit (d : Z) : ascii := ascii_of_N (48 + Z.to_N d).

(** The loop of [strconv.Uitob64] for base 10; the buffer has 64 bytes. *)
Fixpoint Uitob64_loop (n : nat) (u : Z) (buf : string) : string :=
  match n with
  | O => buf
  | S n' =>
      if 0 <? u then Uitob64_loop n' (u / 10) (String (digit (u mod 10)) buf)
      else buf
  end.

Definition Uitoa64 (u : Z) : string :=
  if u =? 0 then "0" else Uitob64_loop 64 u "".

Definition Itoa64 (i : Z) : string :=
  if i =? 0 then "0"
  else if i <? 0 then String "-" (Uitoa64 ((- i) mod 2 ^ 64))
  else Uitoa64 i.

Definition digit_val (c : ascii) : option Z :=
  if in_range "0" "9" c then Some (Z.of_N (N_of_ascii c) - 48) else None.

(** The loop of [strconv.Btoui64] for base 10: [n] is the value read so
    far; a byte that is not a digit is [EINVAL], a value that leaves
    uint64 is [ERANGE]. *)
Fixpoint Btoui64_loop (s : string) (n : Z) : Z * option errno :=
  match s with
  | EmptyString => (n, None)
  | String c s' =>
      match digit_val c with
      | None => (0, Some EINVAL)
      | Some v =>
          if 2 ^ 64 / 10 + 1 <=? n then (2 ^ 64 - 1, Some ERANGE)
          else if 2 ^ 64 <=? n * 10 + v then (2 ^ 64 - 1, Some ERANGE)
          else Btoui64_loop s' (n * 10 + v)
      end
  end.

Definition Atoui64 (s : string) : Z * option errno :=
  match s with
  | EmptyString => (0, Some EINVAL)
  | _ => Btoui64_loop s 0
  end.

Definition Atoi64 (s0 : string) : Z * option error :=
  match s0 with
  | EmptyString => (0, Some (NumError s0 EINVAL))
  | String c s' =>
      let neg := is_char "-" c in
      let s := if is_char "+" c || is_char "-" c then s' else s0 in
      match Atoui64 s with
      | (_, Some EINVAL) => (0, Some (NumError s0 EINVAL))
      | (un, _) =>
          if negb neg && (2 ^ 63 <=? un) then (max_int64, Some (NumError s0 ERANGE))
          else if neg && (2 ^ 63 <? un) then (min_int64, Some (NumError s0 ERANGE))
          else (if neg then wrap64 (- wrap64 un) else wrap64 un, None)
      end
  end.

(** ** The codec *)

Definition checkPath (k : string) : option error :=
  if negb (MatchString pathRe k) then Some (BadPathError k) else None.

Definition EncodeSet (path body : string) (rev : Z) : string * option error :=
  match checkPath path with
  | Some err => (EmptyString, Some err)
  | None => (Itoa64 rev +:+ ":" +:+ path +:+ "=" +:+ body, None)
  end.

(** In [EncodeDel] the [err] that receives the result of [checkPath] is a
    new variable of the [if] statement ([err := ...]); the bare [return]
    returns the results of the function, which were never assigned. *)
Definition EncodeDel (path : string) (rev : Z) : string * option error :=
  let mutation := EmptyString in
  let err : option error := None in
  match checkPath path with
  | Some err' => (mutation, err)
  | None => (Itoa64 rev +:+ ":" +:+ path, None)
  end.

(** The five results of [decode]. *)
Record decoded := mkDecoded {
  d_path : string;
  d_v : string;
  d_rev : Z;
  d_keep : bool;
  d_err : option error
}.

Definition decode (mutation : string) : decoded :=
  match Split2 mutation ":" with
  | (_, None) => mkDecoded "" "" 0 false (Some ErrBadMutation)
  | (cm0, Some cm1) =>
      match Atoi64 cm0 with
      | (rev, Some err) => mkDecoded "" "" rev false (Some err)
      | (rev, None) =>
          let '(kv0, kv1) := Split2 cm1 "=" in
          match checkPath kv0 with
          | Some err => mkDecoded "" "" rev false (Some err)
          | None =>
              match kv1 with
              | None => mkDecoded kv0 "" rev false None
              | Some v => mkDecoded kv0 v rev true None
              end
          end
      end
  end.


Definition split_all_aux (sep : ascii) (c : ascii) (acc : list string) : list string :=
  if is_char sep c then EmptyString :: acc
  else match acc with
       | [] => [String c EmptyString]
       | p :: ps => String c p :: ps
       end.

(** [strings.Split(s, sep, -1)] for a separator of one byte. *)
Fixpoint SplitAll (s : string) (sep : ascii) : list string :=
  match s with
  | EmptyString => [EmptyString]
  | String c s' => split_all_aux sep c (SplitAll s' sep)
  end.

(** [split] is called with paths that [checkPath] has accepted.  For the
    empty path the slice [path[1:]] is out of range and the code panics;
    the value given for it here is not used. *)
Definition split (path : string) : list string :=
  if String.eqb path "/" then []
  else match path with
       | EmptyString => [EmptyString]
       | String _ rest => SplitAll rest "/"
       end.

(** ** The tree and its events *)

(** Modelled from the spec: the tree (type [node], [emptyDir]) is declared
    in a file of the package that is not under src/.  A node is a file with
    a body and a revision, or a directory of named children. *)
#[warnings="-register-all"]
Inductive node :=
| FileNode (body : string) (rev : Z)
| DirNode (ents : list (string * node)).

Definition emptyDir : node := DirNode [].

Module Event.
(** Modelled from the spec: type [Event] is declared outside src/; the
    fields are those the spec lists.  The zero value has [Seqn] 0, empty
    strings and no getter. *)
Record t := mk {
  Seqn : Z;
  Path : string;
  Body : string;
  Rev : Z;
  Mut : string;
  Err : option error;
  Getter : option node
}.
Definition zero : t := mk 0 "" "" 0 "" None None.
End Event.
Abbreviation Event := Event.t.

Fixpoint lookup_ent (k : string) (ents : list (string * node)) : option node :=
  match ents with
  | [] => None
  | (k', n) :: rest => if String.eqb k k' then Some n else lookup_ent k rest
  end.

Fixpoint delete_ent (k : string) (ents : list (string * node)) : list (string * node) :=
  match ents with
  | [] => []
  | (k', n) :: rest =>
      if String.eqb k k' then delete_ent k rest else (k', n) :: delete_ent k rest
  end.

Definition insert_ent (k : string) (n : node) (ents : list (string * node))
  : list (string * node) :=
  (k, n) :: delete_ent k ents.

Fixpoint get_parts (parts : list string) (n : node) : option node :=
  match parts with
  | [] => Some n
  | p :: rest =>
      match n with
      | FileNode _ _ => None
      | DirNode ents =>
          match lookup_ent p ents with
          | Some c => get_parts rest c
          | None => None
          end
      end
  end.

(** Is some proper ancestor of the path a file? *)
Fixpoint under_file (parts : list string) (n : node) : bool :=
  match parts with
  | [] => false
  | p :: rest =>
      match n with
      | FileNode _ _ => true
      | DirNode ents =>
          match lookup_ent p ents with
          | Some c => under_file rest c
          | None => false
          end
      end
  end.

(** Install ([keep]) or remove a file; a directory left empty is removed
    from its parent ([None]). *)
Fixpoint set_parts (parts : list string) (body : string) (rev : Z) (keep : bool)
    (n : option node) : option node :=
  match parts with
  | [] => if keep then Some (FileNode body rev) else None
  | p :: rest =>
      let ents := match n with Some (DirNode ents) => ents | _ => [] end in
      let ents' :=
        match set_parts rest body rev keep (lookup_ent p ents) with
        | Some c => insert_ent p c ents
        | None => delete_ent p ents
        end in
      match ents' with
      | [] => None
      | _ => Some (DirNode ents')
      end
  end.

Definition set_root (parts : list string) (body : string) (rev : Z) (keep : bool)
    (n : node) : node :=
  match set_parts parts body rev keep (Some n) with
  | Some n' => n'
  | None => emptyDir
  end.

(** Modelled from the spec: the text of the Nop mutation marker is
    declared outside src/ and the spec does not give it. *)
Definition Nop : string := "nop:".

(** Modelled from the spec: [apply] is the method of the tree that
    [process] calls; it is not under src/.  The cases are those of the
    spec's description of Apply, in its order; every event carries the
    sequence number it was applied at. *)
Definition apply (n : node) (seqn : Z) (mut : string) : node * Event :=
  if String.eqb mut Nop then (n, Event.mk seqn "" "" 0 "" None None)
  else
    let d := decode mut in
    match d_err d with
    | Some err => (n, Event.mk seqn (d_path d) (d_v d) nop mut (Some err) (Some n))
    | None =>
        let parts := split (d_path d) in
        if d_keep d && under_file parts n
        then (n, Event.mk seqn (d_path d) (d_v d) nop mut (Some ENOTDIR) (Some n))
        else
          match get_parts parts n with
          | Some (DirNode _) =>
              (n, Event.mk seqn (d_path d) (d_v d) Dir mut (Some EISDIR) (Some n))
          | cur =>
              let curRev := match cur with Some (FileNode _ r) => r | _ => Missing end in
              if (d_rev d =? Clobber) || (d_rev d =? curRev) then
                if d_keep d then
                  let n' := set_root parts (d_v d) seqn true n in
                  (n', Event.mk seqn (d_path d) (d_v d) seqn mut None (Some n'))
                else
                  let n' := match cur with
                            | Some _ => set_root parts "" Missing false n
                            | None => n
                            end in
                  (n', Event.mk seqn (d_path d) "" Missing mut None (Some n'))
              else
                (n, Event.mk seqn (d_path d) (d_v d) nop mut (Some ErrRevMismatch) (Some n))
          end
    end.

(** ** Ops, watches and the store *)

Module Op.
(** Represents an operation to apply to the store at position [Seqn]. *)
Record t := mk { Seqn : Z; Mut : string }.
End Op.
Abbreviation Op := Op.t.

(** Modelled from the spec: the glob engine is outside src/; the store
    uses a compiled glob only through [Match]. *)
Record Glob := mkGlob { Match : string -> bool }.

(** Modelled from the spec: [Any] is the compiled glob [/**], which
    matches every path below the root. *)
Definition Any : Glob :=
  mkGlob (fun p => match p with String c _ => is_char "/" c | EmptyString => false end).

Module Watch.
(** A [*Watch].  [id] is the identity of the object the pointer refers to
    and stands for its channel [C] as well; the fields [stopped] and
    [shutdown], which change after the watch is made, live in the store's
    heap below, so that every copy of the pointer sees them. *)
Record t := mk { id : nat; glob : Glob; from : Z; to : Z }.
End Watch.
Abbreviation Watch := Watch.t.

Record state := mkState { ver : Z; root : node }.

Record notice := mkNotice { w : Watch; ev : Event }.

Module Store.
(** The fields of [Store] that [process] works on, and the heap of watch
    objects: [stopped] holds the watches whose field [stopped] is set,
    [shutdown] those whose buffered channel [shutdown] holds a value,
    [allocated] is the number of watches made so far. *)
Record t := mk {
  watches : list Watch;
  todo : list Op;
  state : state;
  head : Z;
  log : gmap Z Event;
  notices : list notice;
  stopped : gset nat;
  shutdown : gset nat;
  allocated : nat
}.

Definition set_watches (x : list Watch) (s : t) : t :=
  mk x (todo s) (state s) (head s) (log s) (notices s) (stopped s) (shutdown s) (allocated s).
Definition set_todo (x : list Op) (s : t) : t :=
  mk (watches s) x (state s) (head s) (log s) (notices s) (stopped s) (shutdown s) (allocated s).
Definition set_state x (s : t) : t :=
  mk (watches s) (todo s) x (head s) (log s) (notices s) (stopped s) (shutdown s) (allocated s).
Definition set_head (x : Z) (s : t) : t :=
  mk (watches s) (todo s) (state s) x (log s) (notices s) (stopped s) (shutdown s) (allocated s).
Definition set_log (x : gmap Z Event) (s : t) : t :=
  mk (watches s) (todo s) (state s) (head s) x (notices s) (stopped s) (shutdown s) (allocated s).
Definition set_notices (x : list notice) (s : t) : t :=
  mk (watches s) (todo s) (state s) (head s) (log s) x (stopped s) (shutdown s) (allocated s).
Definition set_flags (x y : gset nat) (s : t) : t :=
  mk (watches s) (todo s) (state s) (head s) (log s) (notices s) x y (allocated s).
Definition set_allocated (x : nat) (s : t) : t :=
  mk (watches s) (todo s) (state s) (head s) (log s) (notices s) (stopped s) (shutdown s) x.
End Store.
Abbreviation Store := Store.t.

(** [New]: an empty store at version 0. *)
Definition New : Store :=
  Store.mk [] [] (mkState 0 emptyDir) 0 ∅ [] ∅ ∅ 0.

(** [Snap]: the version and the tree of the state the store points to. *)
Definition Snap (s : Store) : Z * node :=
  (ver (Store.state s), root (Store.state s)).

(** ** The pending queue

    [todo] is a vector kept as a heap by container/heap, ordered by
    [Op.Less], that is by [Seqn].  The model keeps what the heap
    promises: the ops in ascending order of [Seqn], so that [At(0)] is
    the first element, [heap.Pop] removes it and [heap.Push] inserts.
    Which of two ops with the same [Seqn] comes first is the library's
    affair; here the one pushed first does. *)
Fixpoint heap_Push (q : list Op) (a : Op) : list Op :=
  match q with
  | [] => [a]
  | t :: q' =>
      if Op.Seqn a <? Op.Seqn t then a :: t :: q' else t :: heap_Push q' a
  end.

(** ** Watches *)

(** [isStopped]: the flag, or else a value waiting in [shutdown], which is
    taken and sets the flag. *)
Definition isStopped (w : Watch) (s : Store) : bool * Store :=
  if bool_decide (Watch.id w ∈ Store.stopped s) then (true, s)
  else if bool_decide (Watch.id w ∈ Store.shutdown s) then
    (true, Store.set_flags ({[Watch.id w]} ∪ Store.stopped s)
                           (Store.shutdown s ∖ {[Watch.id w]}) s)
  else (false, s).

(** [Stop]: a send on [shutdown] that does not block; the channel holds
    one value at most. *)
Definition Stop (wt : Watch) (s : Store) : Store :=
  Store.set_flags (Store.stopped s) ({[Watch.id wt]} ∪ Store.shutdown s) s.

(** The loop of [notify]; [nwatches] is the part [nwatches[0:i]] filled
    so far. *)
Fixpoint notify_loop (e : Event) (ws : list Watch) (nwatches : list Watch) (s : Store)
  : Store * list Watch :=
  match ws with
  | [] => (s, nwatches)
  | w :: ws' =>
      let '(b, s) := isStopped w s in
      if b then notify_loop e ws' nwatches s
      else if Watch.to w <=? Event.Seqn e then notify_loop e ws' nwatches s
      else
        let last := sub64 (Watch.to w) 1 in
        let nwatches :=
          if negb (Event.Seqn e =? last) then nwatches ++ [w] else nwatches in
        if Event.Seqn e <? Watch.from w then notify_loop e ws' nwatches s
        else if Match (Watch.glob w) (Event.Path e) then
          notify_loop e ws' nwatches
            (Store.set_notices (Store.notices s ++ [mkNotice w e]) s)
        else notify_loop e ws' nwatches s
  end.

Definition notify (e : Event) (ws : list Watch) (s : Store) : Store * list Watch :=
  notify_loop e ws [] s.

Definition closeWatches (s : Store) : list Watch := Store.watches s.

(** ** The dispatcher *)

(** The case of the [select] statement that fires in an iteration. *)
Inductive selected :=
| RecvOp (a : Op)
| OpsClosed
| RecvWatch (w : Watch)
| RecvClean (seqn : Z)
| SendSeqns
| SendWatches
| SendNotice
| RecvFlush.

(** What an iteration sends. *)
Inductive message :=
| Seqns (ver : Z)
| Watches (n : nat)
| Notice (nc : Watch) (ne : Event).

Record output := mkOutput {
  applied : list Event;
  sent : option message
}.

(** An iteration of the loop of [process] ends the loop body, returns from
    [process] (closing the channels of the watches left), or does not
    end: the chosen case cannot fire (a send on a nil channel), or a loop
    inside it keeps running. *)
Inductive outcome :=
| Next (s : Store) (o : output)
| Return (closed : list Watch)
| NoReturn.

(** [for len(st.notices) > 0 && st.notices[0].w.isStopped()] *)
Fixpoint drop_stopped (ns : list notice) (s : Store) : Store :=
  match ns with
  | [] => Store.set_notices [] s
  | n :: ns' =>
      let '(b, s) := isStopped (w n) s in
      if b then drop_stopped ns' s else Store.set_notices (n :: ns') s
  end.

(** [for ; len(ws) > 0 && n <= ver; n++ { ws = st.notify(st.log[n], ws) }].
    [k] is the number of iterations from [n] to [ver]; the loop is still
    running when it is used up only if [n++] has wrapped around with a
    watch left, which [backfill_spec] shows no reachable store allows. *)
Fixpoint backfill (k : nat) (n ver : Z) (ws : list Watch) (s : Store)
  : option (Store * list Watch) :=
  match ws with
  | [] => Some (s, ws)
  | _ =>
      if n <=? ver then
        match k with
        | O => None
        | S k' =>
            let '(s, ws) := notify (default Event.zero (Store.log s !! n)) ws s in
            backfill k' (add64 n 1) ver ws s
        end
      else Some (s, ws)
  end.

(** [for ; st.head <= seqn; st.head++ { st.log[st.head] = Event{}, false }].
    [k] is the number of iterations from [head] to [seqn]; the loop is
    still running when it is used up only if [head++] has wrapped around,
    and then it runs for ever. *)
Fixpoint clean (k : nat) (seqn : Z) (s : Store) : option Store :=
  if Store.head s <=? seqn then
    match k with
    | O => None
    | S k' =>
        clean k' seqn
          (Store.set_head (add64 (Store.head s) 1)
             (Store.set_log (delete (Store.head s) (Store.log s)) s))
    end
  else Some s.

(** The locals of [process] that the loop over [todo] carries. *)
Record locals := mkLocals {
  l_ver : Z;
  l_values : node;
  l_ev : Event;
  l_applied : list Event
}.

(** [st.log[ev.Seqn] = ev; st.watches = st.notify(ev, st.watches)] *)
Definition log_and_notify (ev : Event) (s : Store) : Store :=
  let s := Store.set_log (<[Event.Seqn ev := ev]> (Store.log s)) s in
  let '(s, ws) := notify ev (Store.watches s) s in
  Store.set_watches ws s.

(** [for st.todo.Len() > 0 { ... }]; [q] is [st.todo]. *)
Fixpoint drain (flush : bool) (q : list Op) (l : locals) (s : Store) : locals * Store :=
  match q with
  | [] => (l, s)
  | t :: q' =>
      let ver :=
        if flush && (l_ver l <? Op.Seqn t) then sub64 (Op.Seqn t) 1 else l_ver l in
      if add64 ver 1 <? Op.Seqn t then
        (mkLocals ver (l_values l) (l_ev l) (l_applied l), s)
      else
        let s := Store.set_todo q' s in
        if Op.Seqn t <? add64 ver 1 then
          drain flush q' (mkLocals ver (l_values l) (l_ev l) (l_applied l)) s
        else
          let '(values, ev) := apply (l_values l) (Op.Seqn t) (Op.Mut t) in
          let s := Store.set_state (mkState (Event.Seqn ev) values) s in
          let ver := Event.Seqn ev in
          let s := if flush then s else log_and_notify ev s in
          drain flush q' (mkLocals ver values ev (l_applied l ++ [ev])) s
  end.

(** The part of the loop body after the [select]. *)
Definition finish (flush : bool) (ver : Z) (values : node) (m : option message)
    (s : Store) : outcome :=
  let '(l, s) := drain flush (Store.todo s) (mkLocals ver values Event.zero []) s in
  let s :=
    if flush then Store.set_head (add64 (l_ver l) 1) (log_and_notify (l_ev l) s)
    else s in
  Next s (mkOutput (l_applied l) m).

(** One iteration of the loop of [process], [sel] being the case of the
    [select] that fires: [process s sel] is the iteration whose top of the
    loop finds the store [s].  The test of the head notices and the choice
    of [nc] and [ne] come before the [select] blocks, so a [Stop] that
    comes while the dispatcher waits there is not a [Stop] before this
    iteration: the notice chosen for [nc] can still be sent. *)
Definition process (s : Store) (sel : selected) : outcome :=
  let ver := ver (Store.state s) in
  let values := root (Store.state s) in
  let s := drop_stopped (Store.notices s) s in
  match sel with
  | RecvOp a =>
      let s :=
        if ver <? Op.Seqn a then Store.set_todo (heap_Push (Store.todo s) a) s
        else s in
      finish false ver values None s
  | OpsClosed => Return (closeWatches s)
  | RecvWatch w =>
      let n := Watch.from w in
      let '(n, ws) := if n <? Store.head s then (add64 n 1, []) else (n, [w]) in
      match backfill (Z.to_nat (ver - n + 1)) n ver ws s with
      | None => NoReturn
      | Some (s, ws) =>
          finish false ver values None (Store.set_watches (Store.watches s ++ ws) s)
      end
  | RecvClean seqn =>
      match clean (Z.to_nat (seqn - Store.head s + 1)) seqn s with
      | None => NoReturn
      | Some s => finish false ver values None s
      end
  | SendSeqns => finish false ver values (Some (Seqns ver)) s
  | SendWatches =>
      finish false ver values (Some (Watches (length (Store.watches s)))) s
  | SendNotice =>
      match Store.notices s with
      | [] => NoReturn
      | n :: ns =>
          finish false ver values (Some (Notice (w n) (ev n))) (Store.set_notices ns s)
      end
  | RecvFlush => finish true ver values None s
  end.

(** ** The caller's side

    A call is followed up to the end of the iterations of [process] that
    it starts, one for each value it puts on a channel of the dispatcher:
    [after] is the store when they have ended, [iterations] their
    outputs, and [None] says that one of them never ends.  [Clean],
    [Flush] and a send on [Ops] are one send on a channel without buffer:
    in the code the caller goes on as soon as the dispatcher has taken
    the value, before the iteration has run.  [watchOn] reads [st.head]
    after its send on [watchCh]; the model reads it when the iteration
    that received the watch has ended (that iteration does not move
    [head]). *)
Record call (R : Type) := mkCall {
  result : R;
  after : Store;
  iterations : list output
}.
Arguments mkCall {R}.
Arguments result {R}.
Arguments after {R}.
Arguments iterations {R}.

(** A value put on (or taken from) a channel of the dispatcher. *)
Definition rendezvous (s : Store) (sel : selected) : option (call unit) :=
  match process s sel with
  | Next s' o => Some (mkCall tt s' [o])
  | _ => None
  end.

Definition watchOn (glob : Glob) (from to : Z) (s : Store)
  : option (call (option Watch * option error)) :=
  if from <? 1 then Some (mkCall (None, Some ErrTooLate) s [])
  else
    let wt := Watch.mk (Store.allocated s) glob from to in
    let s := Store.set_allocated (S (Store.allocated s)) s in
    match rendezvous s (RecvWatch wt) with
    | None => None
    | Some c =>
        let head := Store.head (after c) in
        if from <? head then
          Some (mkCall (None, Some ErrTooLate) (Stop wt (after c)) (iterations c))
        else Some (mkCall (Some wt, None) (after c) (iterations c))
    end.

Definition NewWatchFrom (s : Store) (glob : Glob) (from : Z)
  : option (call (option Watch * option error)) :=
  watchOn glob from max_int64 s.

(** [NewWatch]: [rev] is the version that [Snap] returned.  [Snap] reads
    the state without meeting the dispatcher, so the store can have moved
    on before the watch reaches it: [s] is the store that the registration
    finds.  A panic is a result of its own. *)
Definition NewWatch (rev : Z) (s : Store) (glob : Glob)
  : option (call (or_panic (option Watch))) :=
  match NewWatchFrom s glob (add64 rev 1) with
  | None => None
  | Some c =>
      match snd (result c) with
      | Some err => Some (mkCall (Panic err) (after c) (iterations c))
      | None => Some (mkCall (Returned (fst (result c))) (after c) (iterations c))
      end
  end.

(** [Wait] returns the channel of the watch, which stands for it here. *)
Definition Wait (s : Store) (seqn : Z) : option (call (option Watch * option error)) :=
  match watchOn Any seqn (add64 seqn 1) s with
  | None => None
  | Some c =>
      match snd (result c) with
      | Some err => Some (mkCall (None, Some err) (after c) (iterations c))
      | None => Some c
      end
  end.

Definition Clean (s : Store) (seqn : Z) : option (call unit) :=
  rendezvous s (RecvClean seqn).

Definition Flush (s : Store) : option (call unit) :=
  rendezvous s RecvFlush.

(** What the clients of a store do to it.  In a history each action comes
    between two iterations of [process]; the [Snap] of a [CallNewWatch]
    is taken in the store that its registration finds, and a history ends
    where a call panics or starts an iteration that never ends. *)
Inductive action :=
| SendOp (a : Op)
| CallNewWatchFrom (glob : Glob) (from : Z)
| CallNewWatch (glob : Glob)
| CallWait (seqn : Z)
| CallStop (wt : Watch)
| CallClean (seqn : Z)
| CallFlush
| ReadSeqns
| ReadWatches
| Receive.

Definition forget {R} (c : option (call R)) : option (Store * list output) :=
  match c with
  | Some c => Some (after c, iterations c)
  | None => None
  end.

Definition exec (a : action) (s : Store) : option (Store * list output) :=
  match a with
  | SendOp a => forget (rendezvous s (RecvOp a))
  | CallNewWatchFrom glob from => forget (NewWatchFrom s glob from)
  | CallNewWatch glob =>
      match NewWatch (fst (Snap s)) s glob with
      | Some (mkCall (Returned _) s' os) => Some (s', os)
      | _ => None
      end
  | CallWait seqn => forget (Wait s seqn)
  | CallStop wt => Some (Stop wt s, [])
  | CallClean seqn => forget (Clean s seqn)
  | CallFlush => forget (Flush s)
  | ReadSeqns => forget (rendezvous s SendSeqns)
  | ReadWatches => forget (rendezvous s SendWatches)
  | Receive => forget (rendezvous s SendNotice)
  end.

Fixpoint run (acts : list action) (s : Store) : option (Store * list output) :=
  match acts with
  | [] => Some (s, [])
  | a :: acts' =>
      match exec a s with
      | None => None
      | Some (s', os) =>
          match run acts' s' with
          | None => None
          | Some (s'', os') => Some (s'', os ++ os')
          end
      end
  end.

(** The integers of an action are int64 values. *)
Definition wf_action (a : action) : Prop :=
  match a with
  | SendOp a => int64 (Op.Seqn a)
  | CallNewWatchFrom _ from => int64 from
  | CallWait seqn => int64 seqn
  | CallClean seqn => int64 seqn
  | _ => True
  end.

(** ** The path grammar, as the specification words it

    A path is exactly [/], or one or more [/<segment>] where a segment is
    a non-empty run of characters from [[A-Za-z0-9.-]]. *)

Definition between (lo hi c : ascii) : Prop :=
  (N_of_ascii lo <= N_of_ascii c <= N_of_ascii hi)%N.

Definition seg_char (c : ascii) : Prop :=
  between "A" "Z" c \/ between "a" "z" c \/ between "0" "9" c
  \/ c = "."%char \/ c = "-"%char.

Inductive is_segment : string -> Prop :=
| seg_one c : seg_char c -> is_segment (String c "")
| seg_more c s : seg_char c -> is_segment s -> is_segment (String c s).

Inductive segments : string -> Prop :=
| segs_one s : is_segment s -> segments (String "/" s)
| segs_more s p : is_segment s -> segments p -> segments (String "/" s +:+ p).

Definition valid_path (p : string) : Prop := p = "/" \/ segments p.

(** The language of a regular expression. *)
Inductive lang : regexp -> string -> Prop :=
| lang_eps : lang Eps ""
| lang_class p c : p c = true -> lang (Class p) (String c "")
| lang_cat r s u v : lang r u -> lang s v -> lang (Cat r s) (u +:+ v)
| lang_alt_l r s u : lang r u -> lang (Alt r s) u
| lang_alt_r r s u : lang s u -> lang (Alt r s) u
| lang_plus_one r u : lang r u -> lang (Plus r) u
| lang_plus_more r u v : lang r u -> lang (Plus r) v -> lang (Plus r) (u +:+ v).

(** Does the byte occur in the string? *)
Fixpoint occurs (c : ascii) (s : string) : bool :=
  match s with
  | EmptyString => false
  | String c' s' => is_char c c' || occurs c s'
  end.

Fixpoint all_digits (s : string) : bool :=
  match s with
  | EmptyString => true
  | String c s' => in_range "0" "9" c && all_digits s'
  end.

(** ** The treatment of a watch by an event, as the specification lists it

    [gone] says that a watch is stopped: its flag is set or a stop signal
    waits for it.  For an event [e] and a watch [w], in this order: [w] is
    dropped with no notice when it is stopped or [e.seqn >= w.to]; it
    leaves the live set after this event when [e.seqn = w.to - 1]; there
    is no notice when [e.seqn < w.from]; otherwise there is a notice iff
    the glob of [w] matches the path of [e].  The result says whether [w]
    stays in the live set and whether a notice is enqueued. *)
Definition gone (w : Watch) (s : Store) : bool :=
  bool_decide (Watch.id w ∈ Store.stopped s)
  || bool_decide (Watch.id w ∈ Store.shutdown s).

Definition treatment (e : Event) (stopped : bool) (w : Watch) : bool * bool :=
  if stopped || (Watch.to w <=? Event.Seqn e) then (false, false)
  else
    let stays := negb (Event.Seqn e =? Watch.to w - 1) in
    if Event.Seqn e <? Watch.from w then (stays, false)
    else (stays, Match (Watch.glob w) (Event.Path e)).

Definition stays (e : Event) (s : Store) (w : Watch) : bool :=
  fst (treatment e (gone w s) w).

Definition noticed (e : Event) (s : Store) (w : Watch) : bool :=
  snd (treatment e (gone w s) w).

(** What [notify] keeps in the live set; [w.to - 1] is the code's. *)
Definition kept (e : Event) (s : Store) (w : Watch) : bool :=
  negb (gone w s) && negb (Watch.to w <=? Event.Seqn e)
  && negb (Event.Seqn e =? sub64 (Watch.to w) 1).

(** Two stores that differ at most in the notice queue and in which of
    the two stop marks a stopped watch carries. *)
Definition unchanged (s s' : Store) : Prop :=
  Store.watches s' = Store.watches s /\ Store.todo s' = Store.todo s /\
  Store.state s' = Store.state s /\ Store.head s' = Store.head s /\
  Store.log s' = Store.log s /\ Store.allocated s' = Store.allocated s /\
  (forall w, gone w s' = gone w s).

(** The store after the top of the queue is popped and applied. *)
Definition popped_applied (flush : bool) (q' : list Op) (values : node) (ev : Event)
    (s : Store) : Store :=
  let s := Store.set_state (mkState (Event.Seqn ev) values) (Store.set_todo q' s) in
  if flush then s else log_and_notify ev s.

(** ** Reachable stores *)

Definition wf_selected (s : Store) (sel : selected) : Prop :=
  match sel with
  | RecvOp a => int64 (Op.Seqn a)
  | RecvWatch w =>
      int64 (Watch.from w) /\ int64 (Watch.to w)
      /\ (Watch.id w < Store.allocated s)%nat
  | RecvClean seqn => int64 seqn
  | _ => True
  end.

(** What holds of the version, the queue and the log while the loop over
    [todo] runs. *)
Record Inv0 (s : Store) : Prop := mkInv0 {
  inv_ver : 0 <= ver (Store.state s) <= max_int64;
  inv_todo : Forall (fun t => 1 <= Op.Seqn t <= max_int64) (Store.todo s);
  inv_log : forall n e, Store.log s !! n = Some e ->
            Event.Seqn e = n /\ 0 <= n <= ver (Store.state s);
  inv_head : int64 (Store.head s)
}.

(** A property of every watch the store refers to, from the live set or
    from the notice queue. *)
Definition watch_inv (P : Watch -> Prop) (s : Store) : Prop :=
  Forall P (Store.watches s) /\ Forall (fun n => P (w n)) (Store.notices s).

Definition good_watch (s : Store) (w : Watch) : Prop :=
  int64 (Watch.to w) /\ (Watch.id w < Store.allocated s)%nat.

(** What holds of a store between two iterations of [process]. *)
Record Inv (s : Store) : Prop := mkInv {
  inv_inv0 : Inv0 s;
  inv_top : ver (Store.state s) = max_int64 -> is_Some (Store.log s !! max_int64);
  inv_watches : watch_inv (good_watch s) s
}.

(** The state of the loop over [todo]: the store and the locals agree,
    and the event kept in [ev] is the zero event or the last one
    applied. *)
Definition in_loop (flush : bool) (l : locals) (s : Store) : Prop :=
  Inv0 s /\
  l_ver l = ver (Store.state s) /\ l_values l = root (Store.state s) /\
  0 <= Event.Seqn (l_ev l) <= l_ver l /\
  (ver (Store.state s) = max_int64 ->
     is_Some (Store.log s !! max_int64)
     \/ (flush = true /\ Event.Seqn (l_ev l) = max_int64)).

(** [lo < x1 < x2 < ...] *)
Fixpoint ascending (lo : Z) (l : list Z) : Prop :=
  match l with
  | [] => True
  | x :: l' => lo < x /\ ascending x l'
  end.

(** The sequence numbers [apply] was called with, in order. *)
Definition applied_seqns (os : list output) : list Z :=
  map Event.Seqn (concat (map applied os)).

(** The notices the dispatcher put on the channel of watch [i]. *)
Definition delivered_to (i : nat) (os : list output) : list Event :=
  omap (fun o => match sent o with
                 | Some (Notice w e) => if decide (Watch.id w = i) then Some e else None
                 | _ => None
                 end) os.

(** What a step of a history keeps and gives: the invariant, watch
    identities that only grow, sequence numbers applied in ascending order
    above the version, the version at the last of them, and no notice for
    a watch object the store does not refer to. *)
Definition step_ok (s s' : Store) (os : list output) : Prop :=
  Inv s' /\
  (Store.allocated s <= Store.allocated s')%nat /\
  ascending (ver (Store.state s)) (applied_seqns os) /\
  ver (Store.state s') = List.last (applied_seqns os) (ver (Store.state s)) /\
  (forall i, (i < Store.allocated s)%nat ->
     watch_inv (fun w => Watch.id w <> i) s ->
     watch_inv (fun w => Watch.id w <> i) s' /\ delivered_to i os = []).

(** How a step moves [head] and the log. *)
Definition head_log_step (a : action) (s s' : Store) : Prop :=
  Store.head s'
  = match a with
    | CallClean k => Z.max (Store.head s) (k + 1)
    | CallFlush => add64 (ver (Store.state s')) 1
    | _ => Store.head s
    end /\
  (a <> CallFlush ->
   forall n, is_Some (Store.log s' !! n) ->
     (is_Some (Store.log s !! n)
      /\ match a with
         | CallClean k => ~ (Store.head s <= n <= k)
         | _ => True
         end)
     \/ ver (Store.state s) < n <= ver (Store.state s')).

(** No retained event lies below [head]. *)
Definition head_inv (s : Store) : Prop :=
  Store.head s <= ver (Store.state s) + 1 /\
  forall n, is_Some (Store.log s !! n) -> Store.head s <= n.

(** A history without [Flush] in which every [Clean] asks for a position
    the store has reached. *)
Fixpoint tame (acts : list action) (s : Store) : Prop :=
  match acts with
  | [] => True
  | a :: acts' =>
      match a with
      | CallFlush => False
      | CallClean k => k <= ver (Store.state s)
      | _ => True
      end /\
      match exec a s with
      | Some (s', _) => tame acts' s'
      | None => True
      end
  end.

(** An action that moves [head]. *)
Definition trims (a : action) : bool :=
  match a with
  | CallClean _ | CallFlush => true
  | _ => false
  end.



(** ** Stores and watches used as examples *)

Definition ex_event : Event :=
  Event.mk 7 "/a/b" "x" 7 "0:/a/b=x" None None.

(** Five watches: one that was stopped, one whose window ended before the
    event, one whose window ends with it, one whose window starts after
    it, and one with a glob that does not match. *)
Definition ex_watches : list Watch :=
  [ Watch.mk 0 Any 1 max_int64; Watch.mk 1 Any 1 7; Watch.mk 2 Any 7 8;
    Watch.mk 3 Any 9 max_int64; Watch.mk 4 (mkGlob (fun _ => false)) 1 max_int64 ].

Definition ex_store : Store :=
  Store.mk ex_watches [] (mkState 7 emptyDir) 0 ∅ [] ∅ {[ 0%nat ]} 5.

(** ** The rest of the package *)

(** [strings.Join(a, sep)] *)
Fixpoint Join (a : list string) (sep : string) : string :=
  match a with
  | [] => ""
  | x :: rest =>
      match rest with
      | [] => x
      | _ => x +:+ sep +:+ Join rest sep
      end
  end.

Definition join (parts : list string) : string := "/" +:+ Join parts "/".

Definition MustEncodeSet (path body : string) (rev : Z) : or_panic string :=
  let '(m, err) := EncodeSet path body rev in
  match err with
  | Some err => Panic err
  | None => Returned m
  end.

Definition MustEncodeDel (path : string) (rev : Z) : or_panic string :=
  let '(m, err) := EncodeDel path rev in
  match err with
  | Some err => Panic err
  | None => Returned m
  end.

(** [Op.Less], the order of the heap. *)
Definition Less (x y : Op) : bool := Op.Seqn x <? Op.Seqn y.

(** ** The queue and the notices between iterations *)

(** The queue in the order of the heap: no op is [Less] than one that
    comes before it. *)
Fixpoint sorted (q : list Op) : Prop :=
  match q with
  | [] => True
  | t :: q' => Forall (fun y => Less y t = false) q' /\ sorted q'
  end.

(** No pending op can be applied: each is more than one position ahead
    of the version. *)
Definition drained (s : Store) : Prop :=
  sorted (Store.todo s) /\
  (ver (Store.state s) < max_int64 ->
   Forall (fun t => ver (Store.state s) + 1 < Op.Seqn t) (Store.todo s)).

(** The event of a notice lies in the window of its watch and its path
    matches the glob of the watch. *)
Definition in_window (n : notice) : Prop :=
  Watch.from (w n) <= Event.Seqn (ev n) < Watch.to (w n) /\
  Match (Watch.glob (w n)) (Event.Path (ev n)) = true.

(** The sequence numbers of the notices for the watch object [i], in the
    order of the list. *)
Definition seqns_for (i : nat) (ns : list notice) : list Z :=
  map (fun n => Event.Seqn (ev n))
      (List.filter (fun n => bool_decide (Watch.id (w n) = i)) ns).

(** The notices the dispatcher has put on the channels of the watches. *)
Definition sent_notices (os : list output) : list notice :=
  omap (fun o => match sent o with
                 | Some (Notice w e) => Some (mkNotice w e)
                 | _ => None
                 end) os.

(** The live watches are distinct objects with windows that start at 1
    or later. *)
Definition live_ok (s : Store) : Prop :=
  NoDup (map Watch.id (Store.watches s)) /\
  Forall (fun w => 1 <= Watch.from w) (Store.watches s).

(** A store that a history of client actions leads to from [New]. *)
Definition reachable (s : Store) : Prop :=
  exists acts os, Forall wf_action acts /\ run acts New = Some (s, os).

(** The events that the watch object [i] has been sent, with sequence
    numbers [D], and those queued for it have ascending sequence numbers,
    none above the version. *)
Definition ordered (i : nat) (D : list Z) (s : Store) : Prop :=
  ascending 0 (D ++ seqns_for i (Store.notices s)) /\
  Forall (fun x => x <= ver (Store.state s)) (D ++ seqns_for i (Store.notices s)).

(** What holds of a store between two iterations of [process], beyond
    [Inv]. *)
Record settled (s : Store) : Prop := mkSettled {
  settled_inv : Inv s;
  settled_drained : drained s;
  settled_live : live_ok s;
  settled_window : Forall in_window (Store.notices s)
}.

(** What a step of a history keeps and gives, beyond [step_ok]: every
    notice sent lies in the window of its watch; a stopped watch stays
    stopped and is sent nothing; what a watch object is sent stays in
    ascending order, and nothing is sent to an object not yet made; the
    notices for a watch object carry the watch it was made as. *)
Definition step_more (s s' : Store) (os : list output) : Prop :=
  settled s' /\
  Forall in_window (sent_notices os) /\
  (forall x, gone x s = true ->
     gone x s' = true /\ delivered_to (Watch.id x) os = []) /\
  (forall i D, ordered i D s -> ((Store.allocated s <= i)%nat -> D = []) ->
     ordered i (D ++ map Event.Seqn (delivered_to i os)) s' /\
     ((Store.allocated s' <= i)%nat ->
      D ++ map Event.Seqn (delivered_to i os) = [])) /\
  (forall wt, (Watch.id wt < Store.allocated s)%nat ->
     watch_inv (fun x => Watch.id x = Watch.id wt -> x = wt) s ->
     watch_inv (fun x => Watch.id x = Watch.id wt -> x = wt) s' /\
     Forall (fun n => Watch.id (w n) = Watch.id wt -> w n = wt) (sent_notices os)).

(** [lo + 1, lo + 2, ...] *)
Fixpoint consecutive (lo : Z) (l : list Z) : Prop :=
  match l with
  | [] => True
  | x :: l' => x = lo + 1 /\ consecutive x l'
  end.

(** The iteration of [process] that an action of a client takes part
    in. *)
Definition selects (a : action) (s : Store) (sel : selected) : Prop :=
  match a with
  | SendOp x => sel = RecvOp x
  | CallClean k => sel = RecvClean k
  | CallFlush => sel = RecvFlush
  | ReadSeqns => sel = SendSeqns
  | ReadWatches => sel = SendWatches
  | Receive => sel = SendNotice
  | CallStop _ => False
  | _ => exists wt, sel = RecvWatch wt /\ 1 <= Watch.from wt
                    /\ Watch.id wt = Store.allocated s
  end.

(** The events [apply] returned, in order. *)
Definition applied_events (os : list output) : list Event :=
  concat (map applied os).

(** * Properties of the codec *)

Section Regexp.

Lemma app_cons c (s t : string) : String c s +:+ t = String c (s +:+ t).
Proof. reflexivity. Qed.

Lemma app_nil (s : string) : "" +:+ s = s.
Proof. reflexivity. Qed.

Lemma app_empty_r (s : string) : s +:+ "" = s.
Proof. induction s as [|c s IH]; [done | by rewrite app_cons, IH]. Qed.

Lemma app_assoc_s (a b c : string) : (a +:+ b) +:+ c = a +:+ (b +:+ c).
Proof. induction a as [|x a IH]; [done | by rewrite !app_cons, IH]. Qed.

Lemma app_eq_cons (u v : string) a s :
  u +:+ v = String a s ->
  (u = "" /\ v = String a s) \/ (exists u', u = String a u' /\ s = u' +:+ v).
Proof.
  destruct u as [|c u]; rewrite ?app_cons, ?app_nil; intros H.
  - by left.
  - right. injection H as -> <-. by exists u.
Qed.

Lemma app_eq_empty (u v : string) : u +:+ v = "" -> u = "" /\ v = "".
Proof. destruct u; rewrite ?app_cons, ?app_nil; [done | discriminate]. Qed.

Lemma nullable_lang r : nullable r = true <-> lang r "".
Proof.
  split.
  - induction r as [| |p|r IHr s IHs|r IHr s IHs|r IHr]; simpl; intros H;
      try discriminate.
    + constructor.
    + apply andb_true_iff in H as [H1 H2].
      change (lang (Cat r s) ("" +:+ "")). constructor; auto.
    + apply orb_true_iff in H as [H|H]; [apply lang_alt_l | apply lang_alt_r]; auto.
    + apply lang_plus_one; auto.
  - intros H. remember EmptyString as w eqn:Hw.
    induction H as [|p c Hp|r s u v H1 IH1 H2 IH2|r s u H IH|r s u H IH
                   |r u H IH|r u v H1 IH1 H2 IH2]; simpl; try done.
    + apply app_eq_empty in Hw as [-> ->]. by rewrite IH1, IH2.
    + by rewrite IH.
    + rewrite IH by done. apply orb_true_r.
    + auto.
    + apply app_eq_empty in Hw as [-> ->]. auto.
Qed.

Lemma deriv_sound a r : forall s, lang (deriv a r) s -> lang r (String a s).
Proof.
  induction r as [| |p|r IHr t IHt|r IHr t IHt|r IHr]; simpl; intros s H.
  - inversion H.
  - inversion H.
  - destruct (p a) eqn:Hp; inversion H; subst. by constructor.
  - assert (Hcat : forall w, lang (Cat (deriv a r) t) w -> lang (Cat r t) (String a w)).
    { intros w Hw. inversion Hw; subst.
      change (lang (Cat r t) (String a u +:+ v)). constructor; auto. }
    destruct (nullable r) eqn:Hn; [|by apply Hcat].
    inversion H; subst; [by apply Hcat|].
    change (lang (Cat r t) ("" +:+ String a s)).
    constructor; [by apply nullable_lang | auto].
  - inversion H; subst; [apply lang_alt_l | apply lang_alt_r]; auto.
  - inversion H as [| |r' s' u v Hu Hv| | | |]; subst.
    change (lang (Plus r) (String a u +:+ v)).
    inversion Hv as [| | |r' s' u' Hv'|r' s' u' Hv'| |]; subst.
    + inversion Hv'; subst. rewrite app_empty_r. apply lang_plus_one; auto.
    + apply lang_plus_more; auto.
Qed.

Lemma deriv_complete a r w :
  lang r w -> forall s, w = String a s -> lang (deriv a r) s.
Proof.
  induction 1 as [|p c Hp|r t u v H1 IH1 H2 IH2|r t u H IH|r t u H IH
                 |r u H IH|r u v H1 IH1 H2 IH2]; intros s Hw; simpl.
  - discriminate.
  - injection Hw as -> <-. rewrite Hp. constructor.
  - apply app_eq_cons in Hw as [[-> ->]|(u' & -> & ->)].
    + apply nullable_lang in H1 as ->. apply lang_alt_r; auto.
    + assert (lang (Cat (deriv a r) t) (u' +:+ v)) by (constructor; auto).
      destruct (nullable r); [by apply lang_alt_l | done].
  - apply lang_alt_l; auto.
  - apply lang_alt_r; auto.
  - replace s with (s +:+ "") by apply app_empty_r.
    constructor; auto. apply lang_alt_l. constructor.
  - apply app_eq_cons in Hw as [[-> ->]|(u' & -> & ->)].
    + by apply IH2.
    + constructor; auto. by apply lang_alt_r.
Qed.

Lemma MatchString_lang s : forall re, MatchString re s = true <-> lang re s.
Proof.
  induction s as [|a s IH]; intros re; simpl.
  - apply nullable_lang.
  - rewrite IH. split; [apply deriv_sound | intros H; by eapply deriv_complete].
Qed.

End Regexp.

Section Paths.

Lemma is_char_eq x c : is_char x c = true <-> x = c.
Proof.
  unfold is_char. rewrite N.eqb_eq. split; [|by intros ->].
  intros H. rewrite <- (ascii_N_embedding x), <- (ascii_N_embedding c).
  by rewrite H.
Qed.

Lemma is_char_neq x c : is_char x c = false <-> x <> c.
Proof.
  rewrite <- is_char_eq. destruct (is_char x c); split; congruence.
Qed.

Lemma in_range_between lo hi c : in_range lo hi c = true <-> between lo hi c.
Proof.
  unfold in_range, between. rewrite andb_true_iff, !N.leb_le. tauto.
Qed.

Lemma charPat_seg_char c :
  lang charPat (String c "") <-> seg_char c.
Proof.
  unfold seg_char. rewrite <- !in_range_between.
  assert (Hdot : c = "."%char <-> is_char "." c = true)
    by (rewrite is_char_eq; split; congruence).
  assert (Hdash : c = "-"%char <-> is_char "-" c = true)
    by (rewrite is_char_eq; split; congruence).
  rewrite Hdot, Hdash. split.
  - intros H. inversion H as [|p c' Hp| | | | |]; subst.
    rewrite !orb_true_iff in Hp. tauto.
  - intros H. constructor. rewrite !orb_true_iff. tauto.
Qed.

Lemma lang_class_inv p u : lang (Class p) u -> exists c, u = String c "" /\ p c = true.
Proof. intros H. inversion H; subst. eauto. Qed.

Lemma plus_charPat_segment s : lang (Plus charPat) s <-> is_segment s.
Proof.
  split.
  - intros H. remember (Plus charPat) as r eqn:Hr.
    induction H as [| | | | |r u H _|r u v H1 _ H2 IH2]; try discriminate;
      injection Hr as ->.
    + destruct (lang_class_inv _ _ H) as (c & -> & _).
      apply seg_one. by apply charPat_seg_char.
    + destruct (lang_class_inv _ _ H1) as (c & -> & _).
      rewrite app_cons, app_nil. apply seg_more; [by apply charPat_seg_char | auto].
  - induction 1 as [c Hc|c s Hc Hs IH].
    + apply lang_plus_one. by apply charPat_seg_char.
    + change (lang (Plus charPat) (String c "" +:+ s)).
      apply lang_plus_more; [by apply charPat_seg_char | done].
Qed.

Lemma slash_segment u :
  lang (Cat (Class (is_char "/")) (Plus charPat)) u <->
  exists s, u = String "/" s /\ is_segment s.
Proof.
  split.
  - intros H. inversion H as [| |r t a b Ha Hb| | | |]; subst.
    destruct (lang_class_inv _ _ Ha) as (c & -> & Hc).
    apply is_char_eq in Hc as <-. exists b. split; [done|].
    by apply plus_charPat_segment.
  - intros (s & -> & Hs). change (String "/" s) with (String "/" "" +:+ s).
    constructor; [by constructor | by apply plus_charPat_segment].
Qed.

Lemma plus_slash_segments p :
  lang (Plus (Cat (Class (is_char "/")) (Plus charPat))) p <-> segments p.
Proof.
  split.
  - intros H. remember (Plus (Cat (Class (is_char "/")) (Plus charPat))) as r eqn:Hr.
    induction H as [| | | | |r u H _|r u v H1 _ H2 IH2]; try discriminate;
      injection Hr as ->.
    + apply slash_segment in H as (s & -> & Hs). by apply segs_one.
    + apply slash_segment in H1 as (s & -> & Hs). apply segs_more; auto.
  - induction 1 as [s Hs|s p Hs Hp IH].
    + apply lang_plus_one, slash_segment. eauto.
    + apply lang_plus_more; [|done]. apply slash_segment. eauto.
Qed.

(** The expression [pathRe] accepts exactly the paths of the grammar. *)
Lemma pathRe_valid_path p : MatchString pathRe p = true <-> valid_path p.
Proof.
  rewrite MatchString_lang. unfold pathRe, mustBuildRe, valid_path. split.
  - intros H. inversion H as [| | |r t u Hu|r t u Hu| |]; subst.
    + destruct (lang_class_inv _ _ Hu) as (c & -> & Hc).
      apply is_char_eq in Hc as <-. by left.
    + right. by apply plus_slash_segments.
  - intros [->|H].
    + apply lang_alt_l. by constructor.
    + apply lang_alt_r. by apply plus_slash_segments.
Qed.

Lemma checkPath_valid p : checkPath p = None <-> valid_path p.
Proof.
  rewrite <- pathRe_valid_path. unfold checkPath.
  destruct (MatchString pathRe p); simpl; split; done.
Qed.

Lemma checkPath_invalid p : ~ valid_path p -> checkPath p = Some (BadPathError p).
Proof.
  rewrite <- pathRe_valid_path. unfold checkPath.
  destruct (MatchString pathRe p); simpl; [by intros [] | done].
Qed.

Lemma occurs_app c (a b : string) : occurs c (a +:+ b) = occurs c a || occurs c b.
Proof.
  induction a as [|x a IH]; [done|].
  rewrite app_cons. simpl. by rewrite IH, orb_assoc.
Qed.

Lemma seg_char_not x c : ~ seg_char x -> seg_char c -> is_char x c = false.
Proof. intros Hx Hc. apply is_char_neq. by intros ->. Qed.

Lemma is_segment_occurs x s : ~ seg_char x -> is_segment s -> occurs x s = false.
Proof.
  intros Hx. induction 1 as [c Hc|c s Hc Hs IH]; simpl.
  - by rewrite (seg_char_not x c).
  - by rewrite (seg_char_not x c), IH.
Qed.

Lemma valid_path_occurs x p :
  ~ seg_char x -> x <> "/"%char -> valid_path p -> occurs x p = false.
Proof.
  intros Hx Hs [->|H].
  - simpl. apply is_char_neq in Hs as ->. done.
  - apply is_char_neq in Hs.
    induction H as [s H|s p H Hp IH].
    + simpl. by rewrite Hs, is_segment_occurs.
    + rewrite occurs_app. simpl. by rewrite Hs, is_segment_occurs, IH.
Qed.

Lemma not_seg_char_eq : ~ seg_char "="%char.
Proof.
  unfold seg_char, between. simpl.
  intros [H|[H|[H|[H|H]]]]; try lia; discriminate.
Qed.

Lemma Split2_absent sep s : occurs sep s = false -> Split2 s sep = (s, None).
Proof.
  induction s as [|c s IH]; simpl; [done|].
  intros H. apply orb_false_iff in H as [-> H]. by rewrite IH.
Qed.

Lemma Split2_first sep (a b : string) :
  occurs sep a = false -> Split2 (a +:+ String sep b) sep = (a, Some b).
Proof.
  induction a as [|c a IH]; intros H.
  - rewrite app_nil. simpl. by rewrite (proj2 (is_char_eq sep sep)).
  - rewrite app_cons. simpl in *. apply orb_false_iff in H as [-> H]. by rewrite IH.
Qed.

End Paths.

Section Numbers.

Lemma digit_cases d : 0 <= d < 10 ->
  d = 0 \/ d = 1 \/ d = 2 \/ d = 3 \/ d = 4 \/ d = 5 \/ d = 6 \/ d = 7 \/ d = 8 \/ d = 9.
Proof. lia. Qed.

Lemma digit_val_digit d : 0 <= d < 10 -> digit_val (digit d) = Some d.
Proof.
  intros H. destruct (digit_cases d H) as [->|[->|[->|[->|[->|[->|[->|[->|[->| ->]]]]]]]]];
    reflexivity.
Qed.

Lemma in_range_digit d : 0 <= d < 10 -> in_range "0" "9" (digit d) = true.
Proof.
  intros H. destruct (digit_cases d H) as [->|[->|[->|[->|[->|[->|[->|[->|[->| ->]]]]]]]]];
    reflexivity.
Qed.

Lemma Uitob64_loop_app n : forall u buf,
  Uitob64_loop n u buf = Uitob64_loop n u "" +:+ buf.
Proof.
  induction n as [|n IH]; intros u buf; simpl; [done|].
  destruct (0 <? u); [|done].
  rewrite (IH _ (String _ buf)), (IH _ (String _ "")).
  by rewrite app_assoc_s.
Qed.

Lemma all_digits_app (a b : string) :
  all_digits (a +:+ b) = all_digits a && all_digits b.
Proof.
  induction a as [|c a IH]; [done|].
  rewrite app_cons. simpl. by rewrite IH, andb_assoc.
Qed.

Lemma Uitob64_loop_digits n : forall u, all_digits (Uitob64_loop n u "") = true.
Proof.
  induction n as [|n IH]; intros u; simpl; [done|].
  destruct (0 <? u) eqn:Hu; [|done].
  rewrite Uitob64_loop_app, all_digits_app, IH. simpl.
  rewrite in_range_digit; [done|]. apply Z.mod_pos_bound. lia.
Qed.

Lemma all_digits_occurs x s :
  in_range "0" "9" x = false -> all_digits s = true -> occurs x s = false.
Proof.
  intros Hx. induction s as [|c s IH]; simpl; [done|].
  intros H. apply andb_true_iff in H as [Hc Hs]. rewrite IH by done.
  rewrite orb_false_r. apply is_char_neq. intros ->. congruence.
Qed.

(** Reading back what [Uitob64_loop] wrote. *)
Lemma Btoui64_Uitob64 n : forall u rest,
  0 <= u < 2 ^ 64 -> u < 10 ^ Z.of_nat n ->
  Btoui64_loop (Uitob64_loop n u "" +:+ rest) 0 = Btoui64_loop rest u.
Proof.
  induction n as [|n IH]; intros u rest Hu Hn.
  - simpl in *. rewrite app_nil. replace u with 0 by lia. done.
  - simpl Uitob64_loop. destruct (0 <? u) eqn:Hpos.
    + apply Z.ltb_lt in Hpos.
      rewrite Uitob64_loop_app, app_assoc_s, app_cons, app_nil.
      assert (Hdiv : 0 <= u / 10 < 2 ^ 64).
      { split; [apply Z.div_pos; lia|]. apply Z.div_lt_upper_bound; lia. }
      assert (Hmod : 0 <= u mod 10 < 10) by (apply Z.mod_pos_bound; lia).
      rewrite IH; [|done|].
      * simpl Btoui64_loop. rewrite digit_val_digit by done.
        assert (Heq : u / 10 * 10 + u mod 10 = u).
        { rewrite (Z.div_mod u 10) at 3 by lia. lia. }
        rewrite Heq.
        assert (H1 : (2 ^ 64 / 10 + 1 <=? u / 10) = false).
        { apply Z.leb_gt. assert (u / 10 <= (2 ^ 64 - 1) / 10)
            by (apply Z.div_le_mono; lia).
          change ((2 ^ 64 - 1) / 10) with (2 ^ 64 / 10) in H. lia. }
        assert (H2 : (2 ^ 64 <=? u) = false) by (apply Z.leb_gt; lia).
        by rewrite H1, H2.
      * rewrite Nat2Z.inj_succ, Z.pow_succ_r in Hn by lia.
        apply Z.div_lt_upper_bound; lia.
    + apply Z.ltb_ge in Hpos. rewrite app_nil. replace u with 0 by lia. done.
Qed.

Lemma Atoui64_Uitob64 n u :
  0 < u < 2 ^ 64 -> u < 10 ^ Z.of_nat n ->
  Atoui64 (Uitob64_loop n u "") = (u, None).
Proof.
  intros Hu Hn.
  assert (H : Btoui64_loop (Uitob64_loop n u "") 0 = (u, None)).
  { rewrite <- (app_empty_r (Uitob64_loop n u "")).
    rewrite Btoui64_Uitob64 by (done || lia). reflexivity. }
  unfold Atoui64. destruct (Uitob64_loop n u "") as [|c s]; [|done].
  injection H as H. lia.
Qed.

Lemma pow10_64 : 2 ^ 64 <= 10 ^ Z.of_nat 64.
Proof. by vm_compute. Qed.

Lemma Atoui64_Uitoa64 u : 0 <= u < 2 ^ 64 -> Atoui64 (Uitoa64 u) = (u, None).
Proof.
  intros Hu. unfold Uitoa64. destruct (u =? 0) eqn:H0.
  - apply Z.eqb_eq in H0 as ->. reflexivity.
  - apply Z.eqb_neq in H0. apply Atoui64_Uitob64; [lia|].
    eapply Z.lt_le_trans; [apply Hu | apply pow10_64].
Qed.

Lemma Uitoa64_digits u : all_digits (Uitoa64 u) = true.
Proof.
  unfold Uitoa64. destruct (u =? 0); [done | apply Uitob64_loop_digits].
Qed.

Lemma Uitoa64_nonempty u : 0 <= u < 2 ^ 64 -> exists c s,
  Uitoa64 u = String c s /\ in_range "0" "9" c = true.
Proof.
  intros Hu. assert (H := Atoui64_Uitoa64 u Hu). assert (D := Uitoa64_digits u).
  destruct (Uitoa64 u) as [|c s]; [discriminate|].
  simpl in D. apply andb_true_iff in D as [D _]. eauto.
Qed.

Lemma wrap64_id z : int64 z -> wrap64 z = z.
Proof.
  unfold int64, min_int64, max_int64, wrap64. intros H.
  rewrite Z.mod_small; lia.
Qed.

(** [Atoi64] reads back what [Itoa64] wrote, for every int64. *)
Lemma Atoi64_Itoa64 z : int64 z -> Atoi64 (Itoa64 z) = (z, None).
Proof.
  unfold int64, min_int64, max_int64. intros Hz. unfold Itoa64.
  destruct (z =? 0) eqn:H0; [apply Z.eqb_eq in H0 as ->; reflexivity|].
  apply Z.eqb_neq in H0. destruct (z <? 0) eqn:Hneg.
  - apply Z.ltb_lt in Hneg.
    assert (Hm : (- z) mod 2 ^ 64 = - z) by (apply Z.mod_small; lia).
    rewrite Hm. unfold Atoi64.
    change (is_char "-" "-") with true. change (is_char "+" "-") with false.
    simpl orb. simpl negb. cbv beta iota zeta.
    rewrite Atoui64_Uitoa64 by lia. simpl andb.
    destruct (2 ^ 63 <? - z) eqn:Hr; [apply Z.ltb_lt in Hr; lia|].
    f_equal. unfold wrap64.
    destruct (Z.eq_dec (- z) (2 ^ 63)) as [E|E].
    + rewrite E. replace z with (- 2 ^ 63) by lia. reflexivity.
    + rewrite (Z.mod_small (- z + 2 ^ 63)) by lia.
      rewrite Z.mod_small by lia. lia.
  - apply Z.ltb_ge in Hneg.
    destruct (Uitoa64_nonempty z) as (c & s & E & Hc); [lia|].
    assert (HA := Atoui64_Uitoa64 z ltac:(lia)). rewrite E in HA |- *.
    unfold Atoi64.
    assert (Hplus : is_char "+" c = false).
    { apply is_char_neq. intros <-. discriminate. }
    assert (Hminus : is_char "-" c = false).
    { apply is_char_neq. intros <-. discriminate. }
    rewrite Hplus, Hminus. simpl orb. simpl negb. cbv beta iota zeta.
    rewrite HA. simpl andb.
    destruct (2 ^ 63 <=? z) eqn:Hr; [apply Z.leb_le in Hr; lia|].
    f_equal. apply wrap64_id. unfold int64, min_int64, max_int64. lia.
Qed.

Lemma Itoa64_no_colon z : occurs ":" (Itoa64 z) = false.
Proof.
  unfold Itoa64. destruct (z =? 0); [done|]. destruct (z <? 0).
  - simpl. apply all_digits_occurs; [done | apply Uitoa64_digits].
  - apply all_digits_occurs; [done | apply Uitoa64_digits].
Qed.

End Numbers.

Section Codec.

Lemma EncodeSet_invalid path body rev :
  ~ valid_path path -> EncodeSet path body rev = ("", Some (BadPathError path)).
Proof. intros H. unfold EncodeSet. by rewrite checkPath_invalid. Qed.

Lemma EncodeDel_invalid path rev :
  ~ valid_path path -> EncodeDel path rev = ("", None).
Proof. intros H. unfold EncodeDel. by rewrite checkPath_invalid. Qed.

Lemma decode_no_colon m :
  occurs ":" m = false -> decode m = mkDecoded "" "" 0 false (Some ErrBadMutation).
Proof. intros H. unfold decode. by rewrite Split2_absent. Qed.

Lemma decode_bad_rev r rest z e :
  occurs ":" r = false -> Atoi64 r = (z, Some e) ->
  decode (r +:+ String ":" rest) = mkDecoded "" "" z false (Some e).
Proof. intros H E. unfold decode. by rewrite Split2_first, E. Qed.

Lemma decode_bad_path r rest z :
  occurs ":" r = false -> Atoi64 r = (z, None) ->
  ~ valid_path (fst (Split2 rest "=")) ->
  decode (r +:+ String ":" rest)
  = mkDecoded "" "" z false (Some (BadPathError (fst (Split2 rest "=")))).
Proof.
  intros H E Hp. unfold decode. rewrite Split2_first, E by done.
  destruct (Split2 rest "=") as [kv0 kv1]. simpl in Hp.
  by rewrite checkPath_invalid.
Qed.

Lemma Atoi64_error s z e : Atoi64 s = (z, Some e) -> exists n, e = NumError s n.
Proof.
  unfold Atoi64. destruct s as [|c s]; [intros H; simplify_eq; eauto|].
  destruct (Atoui64 _) as [un [[]|]];
    repeat match goal with |- context [if ?b then _ else _] => destruct b end;
    intros H; simplify_eq; eauto.
Qed.

End Codec.

(** C1, at an input that fails validation: [checkPath] rejects the path
    and [EncodeSet] returns the [BadPathError], but [EncodeDel] returns the
    empty mutation and a nil error. *)
Theorem EncodeDel_loses_BadPath :
  checkPath "a b" = Some (BadPathError "a b") /\
  EncodeSet "a b" "x" 3 = ("", Some (BadPathError "a b")) /\
  EncodeDel "a b" 3 = ("", None).
Proof. repeat split. Qed.

(** C4, the claim as stated fails: the text before the colon of ["x:/a"]
    is no decimal number, and [decode] returns the error of
    [strconv.Atoi64], which is not [ErrBadMutation]. *)
Lemma decode_bad_rev_not_BadMutation :
  ~ (forall m r rest, m = r +:+ String ":" rest -> occurs ":" r = false ->
       snd (Atoi64 r) <> None -> d_err (decode m) = Some ErrBadMutation).
Proof.
  intros H. specialize (H "x:/a" "x" "/a" eq_refl eq_refl). vm_compute in H.
  assert (E : Some (NumError "x" EINVAL) = Some ErrBadMutation) by (apply H; discriminate).
  discriminate.
Qed.

(** C4, amended: a mutation with no colon is rejected with
    [ErrBadMutation]; when the text before the first colon is rejected by
    [strconv.Atoi64], [decode] returns that error, a [NumError] naming the
    text; when it is accepted and the text up to the first [=] is not a
    path of the grammar, [decode] returns the [BadPathError] naming it. *)
Theorem decode_errors (m : string) :
  (occurs ":" m = false -> d_err (decode m) = Some ErrBadMutation) /\
  (forall r rest z e, m = r +:+ String ":" rest -> occurs ":" r = false ->
     Atoi64 r = (z, Some e) ->
     d_err (decode m) = Some e /\ exists n, e = NumError r n) /\
  (forall r rest z, m = r +:+ String ":" rest -> occurs ":" r = false ->
     Atoi64 r = (z, None) -> ~ valid_path (fst (Split2 rest "=")) ->
     d_err (decode m) = Some (BadPathError (fst (Split2 rest "=")))).
Proof.
  split; [|split].
  - intros H. by rewrite decode_no_colon.
  - intros r rest z e -> Hr E. rewrite (decode_bad_rev _ _ z e) by done.
    split; [done | by eapply Atoi64_error].
  - intros r rest z -> Hr E Hp. by rewrite (decode_bad_path _ _ z).
Qed.

Lemma decode_errors_witness :
  d_err (decode "abc") = Some ErrBadMutation /\
  d_err (decode "1x:/a") = Some (NumError "1x" EINVAL) /\
  d_err (decode "7:/a//b=v") = Some (BadPathError "/a//b").
Proof.
  split; [|split].
  - apply (proj1 (decode_errors "abc")). reflexivity.
  - apply (proj1 (proj2 (decode_errors "1x:/a")) "1x" "/a" 0 (NumError "1x" EINVAL));
      reflexivity.
  - apply (proj2 (proj2 (decode_errors "7:/a//b=v")) "7" "/a//b=v" 7);
      try reflexivity.
    intros H. apply checkPath_valid in H. vm_compute in H. discriminate.
Defined.

(** C9: for a path of the grammar, an int64 revision and any body,
    [decode] gives back what [EncodeSet] was given, with [keep] set, and
    what [EncodeDel] was given, with an empty body and [keep] clear. *)
Theorem decode_Encode (path body : string) (rev : Z) :
  valid_path path -> int64 rev ->
  (exists m, EncodeSet path body rev = (m, None) /\
             decode m = mkDecoded path body rev true None) /\
  (exists m, EncodeDel path rev = (m, None) /\
             decode m = mkDecoded path "" rev false None).
Proof.
  intros Hp Hr. assert (Hc := proj2 (checkPath_valid path) Hp).
  assert (Heq := valid_path_occurs "=" path not_seg_char_eq ltac:(discriminate) Hp).
  split; eexists; (split; [unfold EncodeSet, EncodeDel; rewrite Hc; reflexivity|]).
  - unfold decode. change (":" +:+ path +:+ "=" +:+ body)
      with (String ":" (path +:+ String "=" body)).
    rewrite Split2_first by apply Itoa64_no_colon.
    rewrite Atoi64_Itoa64 by done.
    rewrite Split2_first by done. by rewrite Hc.
  - unfold decode. change (":" +:+ path) with (String ":" path).
    rewrite Split2_first by apply Itoa64_no_colon.
    rewrite Atoi64_Itoa64 by done.
    rewrite Split2_absent by done. by rewrite Hc.
Qed.

Lemma decode_Encode_witness :
  valid_path "/a/b-c.d" /\ int64 (-1) /\
  (exists m, EncodeSet "/a/b-c.d" "x=y=" (-1) = (m, None) /\
             decode m = mkDecoded "/a/b-c.d" "x=y=" (-1) true None) /\
  (exists m, EncodeDel "/a/b-c.d" (-1) = (m, None) /\
             decode m = mkDecoded "/a/b-c.d" "" (-1) false None).
Proof.
  assert (Hp : valid_path "/a/b-c.d") by (apply checkPath_valid; reflexivity).
  assert (Hr : int64 (-1)) by (unfold int64, min_int64, max_int64; lia).
  split; [exact Hp | split; [exact Hr|]].
  apply (decode_Encode "/a/b-c.d" "x=y=" (-1) Hp Hr).
Defined.

(** * Properties of the watch registry *)

Section Notify.

Lemma unchanged_refl s : unchanged s s.
Proof. by repeat split. Qed.

Lemma unchanged_trans s1 s2 s3 : unchanged s1 s2 -> unchanged s2 s3 -> unchanged s1 s3.
Proof.
  intros (A1 & A2 & A3 & A4 & A5 & A6 & A7) (B1 & B2 & B3 & B4 & B5 & B6 & B7).
  repeat split; try congruence; intros w; by rewrite B7, A7.
Qed.

Lemma unchanged_set_notices ns s : unchanged s (Store.set_notices ns s).
Proof. by repeat split. Qed.

Lemma isStopped_spec w s :
  fst (isStopped w s) = gone w s /\
  unchanged s (snd (isStopped w s)) /\
  Store.notices (snd (isStopped w s)) = Store.notices s.
Proof.
  unfold isStopped, gone.
  destruct (bool_decide (Watch.id w ∈ Store.stopped s)) eqn:E1; simpl.
  - split; [done|]. split; [apply unchanged_refl | done].
  - destruct (bool_decide (Watch.id w ∈ Store.shutdown s)) eqn:E2; simpl.
    + split; [done|]. split; [|done]. repeat split. intros w'. unfold gone; simpl.
      apply bool_decide_eq_false in E1. apply bool_decide_eq_true in E2.
      destruct (decide (Watch.id w' = Watch.id w)) as [->|Hne].
      * rewrite (bool_decide_eq_true_2 (_ ∈ _ ∪ _))
          by (apply elem_of_union; left; by apply elem_of_singleton).
        rewrite (bool_decide_eq_true_2 (_ ∈ Store.shutdown s)) by done.
        by rewrite orb_true_r.
      * f_equal; apply bool_decide_ext.
        -- rewrite elem_of_union, elem_of_singleton. tauto.
        -- rewrite elem_of_difference, elem_of_singleton. tauto.
    + split; [done|]. split; [apply unchanged_refl | done].
Qed.

Lemma sub64_pred z x : int64 z -> int64 x -> x < z -> sub64 z 1 = z - 1.
Proof.
  unfold sub64, int64, min_int64, max_int64. intros Hz Hx Hlt.
  apply wrap64_id. unfold int64, min_int64, max_int64. lia.
Qed.

(** The loop of [notify] keeps the watches that [kept] names and
    enqueues a notice for those that [noticed] names, with the stop marks
    as they were on entry. *)
Lemma notify_loop_frame e : forall ws nw s,
  snd (notify_loop e ws nw s) = nw ++ List.filter (kept e s) ws /\
  Store.notices (fst (notify_loop e ws nw s))
  = Store.notices s ++ map (fun w => mkNotice w e) (List.filter (noticed e s) ws) /\
  unchanged s (fst (notify_loop e ws nw s)).
Proof.
  intros ws. induction ws as [|w ws IH]; intros nw s.
  - simpl. rewrite !app_nil_r. split; [done|]. split; [done | apply unchanged_refl].
  - destruct (isStopped_spec w s) as (Hg & Hu & Hn).
    simpl notify_loop. destruct (isStopped w s) as [b s1]. simpl in Hg, Hu, Hn.
    subst b. simpl List.filter.
    assert (Hend : forall nw1 s2 b1 b2,
      unchanged s s2 -> b1 = kept e s w -> b2 = noticed e s w ->
      nw1 = (if b1 then nw ++ [w] else nw) ->
      Store.notices s2 = Store.notices s ++ (if b2 then [mkNotice w e] else []) ->
      snd (notify_loop e ws nw1 s2)
      = nw ++ (if kept e s w then w :: List.filter (kept e s) ws
               else List.filter (kept e s) ws) /\
      Store.notices (fst (notify_loop e ws nw1 s2))
      = Store.notices s ++ map (fun w => mkNotice w e)
          (if noticed e s w then w :: List.filter (noticed e s) ws
           else List.filter (noticed e s) ws) /\
      unchanged s (fst (notify_loop e ws nw1 s2))).
    { intros nw1 s2 b1 b2 Hu2 -> -> -> Hn2.
      destruct (IH (if kept e s w then nw ++ [w] else nw) s2) as (A & B & C).
      rewrite A, B, Hn2.
      assert (Hst2 : forall x, kept e s2 x = kept e s x).
      { intros x. unfold kept.
        by rewrite (proj2 (proj2 (proj2 (proj2 (proj2 (proj2 Hu2))))) x). }
      assert (Hno2 : forall x, noticed e s2 x = noticed e s x).
      { intros x. unfold noticed.
        by rewrite (proj2 (proj2 (proj2 (proj2 (proj2 (proj2 Hu2))))) x). }
      rewrite (List.filter_ext _ _ Hst2), (List.filter_ext _ _ Hno2).
      split; [|split; [|by eapply unchanged_trans]].
      - destruct (kept e s w); by rewrite <- ?app_assoc.
      - destruct (noticed e s w); simpl; by rewrite <- ?app_assoc, ?app_nil_r. }
    destruct (gone w s) eqn:Hgone.
    { apply (Hend nw s1 false false);
        [ done | unfold kept; by rewrite Hgone
        | unfold noticed, treatment; by rewrite Hgone
        | done | by rewrite app_nil_r ]. }
    destruct (Watch.to w <=? Event.Seqn e) eqn:Hto.
    { apply (Hend nw s1 false false);
        [ done | unfold kept; by rewrite Hgone, Hto
        | unfold noticed, treatment; by rewrite Hgone, Hto
        | done | by rewrite app_nil_r ]. }
    destruct (Event.Seqn e <? Watch.from w) eqn:Hfrom.
    { apply (Hend _ s1 (negb (Event.Seqn e =? sub64 (Watch.to w) 1)) false);
        [ done | unfold kept; by rewrite Hgone, Hto
        | unfold noticed, treatment; by rewrite Hgone, Hto, Hfrom
        | done | by rewrite app_nil_r ]. }
    destruct (Match (Watch.glob w) (Event.Path e)) eqn:Hm.
    + apply (Hend _ _ (negb (Event.Seqn e =? sub64 (Watch.to w) 1)) true);
        [ eapply unchanged_trans; [apply Hu | apply unchanged_set_notices]
        | unfold kept; by rewrite Hgone, Hto
        | unfold noticed, treatment; by rewrite Hgone, Hto, Hfrom, Hm
        | done | simpl; by rewrite Hn ].
    + apply (Hend _ s1 (negb (Event.Seqn e =? sub64 (Watch.to w) 1)) false);
        [ done | unfold kept; by rewrite Hgone, Hto
        | unfold noticed, treatment; by rewrite Hgone, Hto, Hfrom, Hm
        | done | by rewrite app_nil_r ].
Qed.

(** For int64 values, [kept] is the second component of [treatment]. *)
Lemma kept_stays e s w :
  int64 (Event.Seqn e) -> int64 (Watch.to w) -> kept e s w = stays e s w.
Proof.
  intros He Hw. unfold kept, stays, treatment.
  destruct (gone w s); [done|]. simpl.
  destruct (Watch.to w <=? Event.Seqn e) eqn:Hto; [done|]. simpl.
  apply Z.leb_gt in Hto. rewrite (sub64_pred _ (Event.Seqn e)) by done.
  by destruct (Event.Seqn e <? Watch.from w).
Qed.

End Notify.

(** * Properties of the dispatcher *)

Section Arith.

Lemma int64_wrap64 z : int64 (wrap64 z).
Proof.
  unfold int64, wrap64, min_int64, max_int64.
  pose proof (Z.mod_pos_bound (z + 2 ^ 63) (2 ^ 64)). lia.
Qed.

Lemma add64_succ v : min_int64 <= v < max_int64 -> add64 v 1 = v + 1.
Proof.
  intros H. apply wrap64_id. unfold int64, min_int64, max_int64 in *. lia.
Qed.

Lemma add64_max : add64 max_int64 1 = min_int64.
Proof. reflexivity. Qed.

Lemma sub64_one z : min_int64 < z <= max_int64 -> sub64 z 1 = z - 1.
Proof.
  intros H. apply wrap64_id. unfold int64, min_int64, max_int64 in *. lia.
Qed.

Lemma min_int64_neg : min_int64 < 0.
Proof. done. Qed.

End Arith.

Section Drain.

(** Modelled [apply]: the event carries the sequence number it was
    applied at. *)
Lemma apply_Seqn n seqn mut : Event.Seqn (snd (apply n seqn mut)) = seqn.
Proof.
  unfold apply.
  repeat match goal with
         | |- context [if ?b then _ else _] => destruct b
         | |- context [match ?x with _ => _ end] => destruct x
         end; reflexivity.
Qed.

Lemma log_and_notify_unchanged ev s :
  unchanged (Store.set_log (<[Event.Seqn ev := ev]> (Store.log s)) s)
    (Store.set_watches (Store.watches s) (log_and_notify ev s)).
Proof.
  unfold log_and_notify, notify.
  pose proof (notify_loop_frame ev (Store.watches s) []
    (Store.set_log (<[Event.Seqn ev := ev]> (Store.log s)) s)) as (_ & _ & H).
  destruct (notify_loop _ _ _ _) as [s1 ws]. simpl in *.
  destruct H as (A1 & A2 & A3 & A4 & A5 & A6 & A7). by repeat split.
Qed.

Lemma popped_applied_todo flush q' values ev s :
  Store.todo (popped_applied flush q' values ev s) = q'.
Proof.
  unfold popped_applied. destruct flush; [done|].
  pose proof (log_and_notify_unchanged ev
    (Store.set_state (mkState (Event.Seqn ev) values) (Store.set_todo q' s)))
    as (_ & H & _).
  apply H.
Qed.

(** One turn of the loop over [todo], by the position of the top of the
    queue relative to the version. *)
Lemma drain_cons flush t q' v vals e ap s :
  0 <= v <= max_int64 -> 1 <= Op.Seqn t <= max_int64 ->
  drain flush (t :: q') (mkLocals v vals e ap) s =
    if Op.Seqn t <=? v then
      if v =? max_int64 then (mkLocals v vals e ap, s)
      else drain flush q' (mkLocals v vals e ap) (Store.set_todo q' s)
    else if flush || (Op.Seqn t =? v + 1) then
      let '(values, ev) := apply vals (Op.Seqn t) (Op.Mut t) in
      drain flush q' (mkLocals (Event.Seqn ev) values ev (ap ++ [ev]))
        (popped_applied flush q' values ev s)
    else (mkLocals v vals e ap, s).
Proof.
  intros Hv Ht. pose proof min_int64_neg as Hmin.
  cbn [drain l_ver l_values l_ev l_applied].
  destruct (Op.Seqn t <=? v) eqn:Hle.
  - apply Z.leb_le in Hle.
    assert (Hlt : (v <? Op.Seqn t) = false) by (apply Z.ltb_ge; lia).
    rewrite Hlt, andb_false_r.
    destruct (v =? max_int64) eqn:Hmax.
    + apply Z.eqb_eq in Hmax. subst v. rewrite add64_max.
      assert (H1 : (min_int64 <? Op.Seqn t) = true) by (apply Z.ltb_lt; lia).
      by rewrite H1.
    + apply Z.eqb_neq in Hmax. rewrite add64_succ by lia.
      assert (H1 : (v + 1 <? Op.Seqn t) = false) by (apply Z.ltb_ge; lia).
      assert (H2 : (Op.Seqn t <? v + 1) = true) by (apply Z.ltb_lt; lia).
      by rewrite H1, H2.
  - apply Z.leb_gt in Hle.
    assert (Hlt : (v <? Op.Seqn t) = true) by (apply Z.ltb_lt; lia).
    rewrite Hlt, andb_true_r. destruct flush; simpl orb.
    + rewrite sub64_one by lia. rewrite add64_succ by lia.
      replace (Op.Seqn t - 1 + 1) with (Op.Seqn t) by lia.
      rewrite Z.ltb_irrefl. unfold popped_applied.
      by destruct (apply vals (Op.Seqn t) (Op.Mut t)).
    + rewrite add64_succ by lia. destruct (Op.Seqn t =? v + 1) eqn:Heq.
      * apply Z.eqb_eq in Heq. rewrite Heq, Z.ltb_irrefl. rewrite <- Heq.
        unfold popped_applied. by destruct (apply vals (Op.Seqn t) (Op.Mut t)).
      * apply Z.eqb_neq in Heq.
        assert (H1 : (v + 1 <? Op.Seqn t) = true) by (apply Z.ltb_lt; lia).
        by rewrite H1.
Qed.

(** A property of the locals and the store that every turn of the loop
    keeps holds when the loop ends. *)
Lemma drain_invariant flush (Q : locals -> Store -> Prop) :
  (forall t q' v vals e ap s,
     Q (mkLocals v vals e ap) s -> Store.todo s = t :: q' ->
     0 <= v < max_int64 -> 1 <= Op.Seqn t <= v ->
     Q (mkLocals v vals e ap) (Store.set_todo q' s)) ->
  (forall t q' v vals e ap s values ev,
     Q (mkLocals v vals e ap) s -> Store.todo s = t :: q' ->
     0 <= v < Op.Seqn t -> Op.Seqn t <= max_int64 ->
     flush = true \/ Op.Seqn t = v + 1 ->
     apply vals (Op.Seqn t) (Op.Mut t) = (values, ev) ->
     Event.Seqn ev = Op.Seqn t ->
     Q (mkLocals (Event.Seqn ev) values ev (ap ++ [ev]))
       (popped_applied flush q' values ev s)) ->
  forall q l s,
    Store.todo s = q -> 0 <= l_ver l <= max_int64 ->
    Forall (fun t => 1 <= Op.Seqn t <= max_int64) q ->
    Q l s -> Q (fst (drain flush q l s)) (snd (drain flush q l s)).
Proof.
  intros Hdiscard Happly q. induction q as [|t q' IH]; intros l s Htodo Hv Hq HQ.
  - done.
  - apply Forall_cons in Hq as [Ht Hq']. destruct l as [v vals e ap].
    simpl in Hv. rewrite drain_cons by done.
    destruct (Op.Seqn t <=? v) eqn:Hle.
    + apply Z.leb_le in Hle. destruct (v =? max_int64) eqn:Hmax; [done|].
      apply Z.eqb_neq in Hmax. apply IH; try done.
      eapply Hdiscard; eauto; lia.
    + apply Z.leb_gt in Hle.
      destruct (flush || (Op.Seqn t =? v + 1)) eqn:Hgo; [|done].
      destruct (apply vals (Op.Seqn t) (Op.Mut t)) as [values ev] eqn:Happ.
      assert (Hseq : Event.Seqn ev = Op.Seqn t).
      { pose proof (apply_Seqn vals (Op.Seqn t) (Op.Mut t)) as H.
        by rewrite Happ in H. }
      apply IH.
      * apply popped_applied_todo.
      * simpl. lia.
      * done.
      * eapply Happly; eauto; try lia.
        apply orb_true_iff in Hgo as [->|Hgo]; [by left | right].
        by apply Z.eqb_eq in Hgo.
Qed.

End Drain.

Section Select.

Lemma Forall_filter_bool {A} (P : A -> Prop) (f : A -> bool) (l : list A) :
  Forall P l -> Forall P (List.filter f l).
Proof.
  induction 1 as [|x l Hx Hl IH]; simpl; [constructor|].
  destruct (f x); [by constructor | done].
Qed.

(** What [st.log[ev.Seqn] = ev; st.watches = st.notify(ev, st.watches)]
    does to each field. *)
Lemma log_and_notify_spec ev s :
  Store.watches (log_and_notify ev s) = List.filter (kept ev s) (Store.watches s) /\
  Store.notices (log_and_notify ev s)
  = Store.notices s
    ++ map (fun w => mkNotice w ev) (List.filter (noticed ev s) (Store.watches s)) /\
  Store.log (log_and_notify ev s) = <[Event.Seqn ev := ev]> (Store.log s) /\
  Store.todo (log_and_notify ev s) = Store.todo s /\
  Store.state (log_and_notify ev s) = Store.state s /\
  Store.head (log_and_notify ev s) = Store.head s /\
  Store.allocated (log_and_notify ev s) = Store.allocated s /\
  (forall w, gone w (log_and_notify ev s) = gone w s).
Proof.
  unfold log_and_notify, notify.
  pose proof (notify_loop_frame ev (Store.watches s) []
    (Store.set_log (<[Event.Seqn ev := ev]> (Store.log s)) s)) as (A & B & C).
  destruct (notify_loop _ _ _ _) as [s1 ws]. simpl in *.
  destruct C as (C1 & C2 & C3 & C4 & C5 & C6 & C7).
  repeat split; try done.
Qed.

Lemma drop_stopped_spec : forall ns s,
  unchanged s (drop_stopped ns s) /\
  exists pre, ns = pre ++ Store.notices (drop_stopped ns s).
Proof.
  induction ns as [|n ns IH]; intros s; simpl.
  - split; [apply unchanged_set_notices | by exists []].
  - destruct (isStopped_spec (w n) s) as (Hg & Hu & Hn).
    destruct (isStopped (w n) s) as [b s1]. simpl in *. destruct b.
    + destruct (IH s1) as (A & pre & B). split; [by eapply unchanged_trans|].
      exists (n :: pre). simpl. by rewrite <- B.
    + split; [|by exists []].
      eapply unchanged_trans; [apply Hu | apply unchanged_set_notices].
Qed.

(** The loop of [Clean]: it never ends when asked for the greatest
    int64; otherwise it removes the entries from [head] to [seqn] and
    leaves [head] above [seqn]. *)
Lemma clean_spec : forall k seqn s,
  int64 (Store.head s) -> seqn <= max_int64 ->
  k = Z.to_nat (seqn - Store.head s + 1) ->
  if decide (Store.head s <= seqn /\ seqn = max_int64) then clean k seqn s = None
  else exists s',
    clean k seqn s = Some s' /\
    Store.head s' = Z.max (Store.head s) (seqn + 1) /\
    (forall n, Store.log s' !! n
       = if decide (Store.head s <= n <= seqn) then None else Store.log s !! n) /\
    Store.watches s' = Store.watches s /\ Store.todo s' = Store.todo s /\
    Store.state s' = Store.state s /\ Store.notices s' = Store.notices s /\
    Store.stopped s' = Store.stopped s /\ Store.shutdown s' = Store.shutdown s /\
    Store.allocated s' = Store.allocated s.
Proof.
  induction k as [|k IH]; intros seqn s Hh Hs Hk.
  - assert (Hlt : seqn < Store.head s) by lia.
    rewrite decide_False by lia. exists s. simpl.
    assert (Hc : (Store.head s <=? seqn) = false) by (apply Z.leb_gt; lia).
    rewrite Hc. repeat split; try done; [lia|].
    intros n. by rewrite decide_False by lia.
  - assert (Hle : Store.head s <= seqn) by lia.
    simpl. assert (Hc : (Store.head s <=? seqn) = true) by (apply Z.leb_le; lia).
    rewrite Hc. set (s1 := Store.set_head _ _).
    unfold int64 in Hh. destruct (decide (Store.head s = max_int64)) as [Hm|Hm].
    + assert (seqn = max_int64) by lia. subst seqn.
      rewrite decide_True by done.
      assert (k = 0%nat) by lia. subst k. simpl.
      subst s1. simpl. rewrite Hm, add64_max. done.
    + assert (Hh1 : Store.head s1 = Store.head s + 1).
      { subst s1. simpl. apply add64_succ. lia. }
      specialize (IH seqn s1). rewrite Hh1 in IH.
      assert (Hi : int64 (Store.head s + 1)) by (unfold int64; lia).
      specialize (IH Hi Hs ltac:(lia)).
      destruct (decide (Store.head s + 1 <= seqn /\ seqn = max_int64)) as [[H1 H2]|Hn].
      * rewrite decide_True by lia. done.
      * destruct (decide (Store.head s <= seqn /\ seqn = max_int64)) as [[H1 H2]|Hn'].
        { assert (Store.head s = seqn) by lia. lia. }
        destruct IH as (s' & E & Hhead & Hlog & R). exists s'.
        split; [done|]. split; [lia|]. split; [|exact R].
        intros n. rewrite Hlog. subst s1. simpl.
        destruct (decide (Store.head s + 1 <= n <= seqn)).
        { by rewrite decide_True by lia. }
        destruct (decide (n = Store.head s)) as [->|Hne].
        { rewrite decide_True by lia. apply lookup_delete_eq. }
        rewrite decide_False by lia. by apply lookup_delete_ne.
Qed.

End Select.

Section Invariants.

Lemma last_cons_default {A} (l : list A) (z d d' : A) :
  List.last (z :: l) d = List.last (z :: l) d'.
Proof.
  revert z. induction l as [|y l IH]; intros z; [done|].
  change (List.last (y :: l) d = List.last (y :: l) d'). apply IH.
Qed.

Lemma ascending_snoc lo l x :
  ascending lo l -> List.last l lo < x -> ascending lo (l ++ [x]).
Proof.
  revert lo. induction l as [|y l IH]; intros lo.
  - simpl. done.
  - intros [H1 H2] H3. split; [done|]. apply IH; [done|].
    destruct l as [|z l]; [done|].
    by rewrite (last_cons_default l z y lo).
Qed.

Lemma last_snoc {A} (l : list A) (x d : A) : List.last (l ++ [x]) d = x.
Proof. apply List.last_last. Qed.

Lemma watch_inv_log_and_notify P ev s :
  watch_inv P s -> watch_inv P (log_and_notify ev s).
Proof.
  intros [Hw Hn]. destruct (log_and_notify_spec ev s) as (A & B & _).
  unfold watch_inv. rewrite A, B. split.
  - by apply Forall_filter_bool.
  - apply Forall_app. split; [done|]. apply Forall_map. simpl.
    by apply Forall_filter_bool.
Qed.

Lemma Inv0_log_and_notify ev s :
  Inv0 s -> 0 <= Event.Seqn ev <= ver (Store.state s) -> Inv0 (log_and_notify ev s).
Proof.
  intros [H1 H2 H3 H4] He.
  destruct (log_and_notify_spec ev s) as (_ & _ & L & T & S & H & _).
  constructor; rewrite ?L, ?T, ?S, ?H; try done.
  intros n e. rewrite lookup_insert. case_decide as Hd.
  - intros [= <-]. subst n. done.
  - apply H3.
Qed.

Lemma Inv0_popped_applied flush t q' values ev s :
  Inv0 s -> Store.todo s = t :: q' ->
  ver (Store.state s) <= Event.Seqn ev <= max_int64 ->
  Inv0 (popped_applied flush q' values ev s).
Proof.
  intros [H1 H2 H3 H4] Ht He. rewrite Ht in H2. apply Forall_cons in H2 as [_ H2].
  assert (Inv0 (Store.set_state (mkState (Event.Seqn ev) values) (Store.set_todo q' s))).
  { constructor; simpl; try done; [lia|].
    intros n e Hn. destruct (H3 n e Hn). split; [done | lia]. }
  unfold popped_applied. destruct flush; [done|].
  apply Inv0_log_and_notify; [done|]. simpl. lia.
Qed.

Lemma popped_applied_state flush q' values ev s :
  Store.state (popped_applied flush q' values ev s) = mkState (Event.Seqn ev) values.
Proof.
  unfold popped_applied. destruct flush; [done|].
  by destruct (log_and_notify_spec ev
    (Store.set_state (mkState (Event.Seqn ev) values) (Store.set_todo q' s)))
    as (_ & _ & _ & _ & -> & _).
Qed.

Lemma popped_applied_log flush q' values ev s :
  Store.log (popped_applied flush q' values ev s)
  = if flush then Store.log s else <[Event.Seqn ev := ev]> (Store.log s).
Proof.
  unfold popped_applied. destruct flush; [done|].
  by destruct (log_and_notify_spec ev
    (Store.set_state (mkState (Event.Seqn ev) values) (Store.set_todo q' s)))
    as (_ & _ & -> & _).
Qed.

Lemma popped_applied_frame flush q' values ev s :
  Store.head (popped_applied flush q' values ev s) = Store.head s /\
  Store.allocated (popped_applied flush q' values ev s) = Store.allocated s /\
  (forall w, gone w (popped_applied flush q' values ev s) = gone w s) /\
  (flush = true ->
     Store.watches (popped_applied flush q' values ev s) = Store.watches s /\
     Store.notices (popped_applied flush q' values ev s) = Store.notices s).
Proof.
  unfold popped_applied. destruct flush; [done|].
  destruct (log_and_notify_spec ev
    (Store.set_state (mkState (Event.Seqn ev) values) (Store.set_todo q' s)))
    as (_ & _ & _ & _ & _ & -> & -> & G).
  repeat split; try done.
Qed.

Lemma watch_inv_popped_applied P flush q' values ev s :
  watch_inv P s -> watch_inv P (popped_applied flush q' values ev s).
Proof.
  intros H. unfold popped_applied. destruct flush; [done|].
  by apply watch_inv_log_and_notify.
Qed.

Lemma drain_in_loop flush l s :
  in_loop flush l s ->
  in_loop flush (fst (drain flush (Store.todo s) l s))
                (snd (drain flush (Store.todo s) l s)).
Proof.
  intros H. apply (drain_invariant flush (in_loop flush)); try done.
  - intros t q' v vals e ap s0 (I & Hv & Hvals & He & Htop) Ht Hr Hs.
    split; [|done]. destruct I as [I1 I2 I3 I4]. constructor; try done.
    simpl. rewrite Ht in I2. by apply Forall_cons in I2 as [_ I2].
  - intros t q' v vals e ap s0 values ev (I & Hv & Hvals & He & Htop) Ht Hr Hm Hf Ha Hs.
    simpl in *. unfold in_loop.
    rewrite popped_applied_state, popped_applied_log. simpl.
    split; [|split; [done|split; [done|split; [lia|]]]].
    + eapply Inv0_popped_applied; eauto. lia.
    + intros Hmax. destruct flush.
      * right. done.
      * left. rewrite Hmax. rewrite lookup_insert_eq. by eexists.
  - destruct H as (I & Hv & _). rewrite Hv. apply I.
  - destruct H as (I & _). apply I.
Qed.

End Invariants.

Section Finish.

Variable flush : bool.
Variable l0 : locals.
Variable s0 : Store.
Hypothesis Hver : 0 <= l_ver l0 <= max_int64.
Hypothesis Htodo : Forall (fun t => 1 <= Op.Seqn t <= max_int64) (Store.todo s0).

Lemma drain_frame :
  Store.head (snd (drain flush (Store.todo s0) l0 s0)) = Store.head s0 /\
  Store.allocated (snd (drain flush (Store.todo s0) l0 s0)) = Store.allocated s0 /\
  (forall w, gone w (snd (drain flush (Store.todo s0) l0 s0)) = gone w s0) /\
  (flush = true ->
     Store.watches (snd (drain flush (Store.todo s0) l0 s0)) = Store.watches s0 /\
     Store.notices (snd (drain flush (Store.todo s0) l0 s0)) = Store.notices s0 /\
     Store.log (snd (drain flush (Store.todo s0) l0 s0)) = Store.log s0).
Proof.
  apply (drain_invariant flush (fun _ s =>
    Store.head s = Store.head s0 /\ Store.allocated s = Store.allocated s0 /\
    (forall w, gone w s = gone w s0) /\
    (flush = true -> Store.watches s = Store.watches s0 /\
       Store.notices s = Store.notices s0 /\ Store.log s = Store.log s0)));
    try done.
  intros t q' v vals e ap s values ev (A & B & C & D) _ _ _ _ _ _.
  destruct (popped_applied_frame flush q' values ev s) as (A' & B' & C' & D').
  rewrite A', B'. split; [done|]. split; [done|]. split.
  - intros w. by rewrite C', C.
  - intros F. destruct (D F) as (D1 & D2 & D3). destruct (D' F) as (E1 & E2).
    rewrite E1, E2, popped_applied_log, F. done.
Qed.

Lemma drain_watch_inv P :
  watch_inv P s0 -> watch_inv P (snd (drain flush (Store.todo s0) l0 s0)).
Proof.
  intros H. apply (drain_invariant flush (fun _ s => watch_inv P s)); try done.
  intros t q' v vals e ap s values ev HP _ _ _ _ _ _.
  by apply watch_inv_popped_applied.
Qed.

(** The events applied in an iteration have ascending sequence numbers
    above the version; the version and [ev] end at the last of them. *)
Lemma drain_applied :
  l_applied l0 = [] ->
  ascending (l_ver l0)
    (map Event.Seqn (l_applied (fst (drain flush (Store.todo s0) l0 s0)))) /\
  l_ver (fst (drain flush (Store.todo s0) l0 s0))
  = List.last (map Event.Seqn (l_applied (fst (drain flush (Store.todo s0) l0 s0))))
      (l_ver l0) /\
  l_ev (fst (drain flush (Store.todo s0) l0 s0))
  = List.last (l_applied (fst (drain flush (Store.todo s0) l0 s0))) (l_ev l0).
Proof.
  intros Hap.
  apply (drain_invariant flush (fun l _ =>
    ascending (l_ver l0) (map Event.Seqn (l_applied l)) /\
    l_ver l = List.last (map Event.Seqn (l_applied l)) (l_ver l0) /\
    l_ev l = List.last (l_applied l) (l_ev l0))); try done.
  - intros t q' v vals e ap s values ev (A & B & C) _ Hv _ _ _ Hs. simpl in *.
    rewrite map_app. simpl. rewrite !last_snoc. split; [|done].
    apply ascending_snoc; [done|]. rewrite <- B. lia.
  - rewrite Hap. done.
Qed.

(** Without a flush, the log gains entries only above the version it
    started from, one for each event applied. *)
Lemma drain_log_growth :
  flush = false -> l_ver l0 = ver (Store.state s0) ->
  l_ver l0 <= ver (Store.state (snd (drain flush (Store.todo s0) l0 s0))) /\
  forall n, is_Some (Store.log (snd (drain flush (Store.todo s0) l0 s0)) !! n) ->
    is_Some (Store.log s0 !! n)
    \/ l_ver l0 < n <= ver (Store.state (snd (drain flush (Store.todo s0) l0 s0))).
Proof.
  intros F Hv.
  apply (drain_invariant flush (fun l s =>
    l_ver l = ver (Store.state s) /\
    l_ver l0 <= ver (Store.state s) /\
    forall n, is_Some (Store.log s !! n) ->
      is_Some (Store.log s0 !! n) \/ l_ver l0 < n <= ver (Store.state s))
    (fun t q' v vals e ap s H _ _ _ => H)); try done.
  - intros t q' v vals e ap s values ev (A & B & C) _ Hr _ _ _ Hs. simpl in *.
    rewrite popped_applied_state, popped_applied_log, F. simpl.
    split; [done|]. split; [lia|]. intros n. rewrite lookup_insert.
    case_decide as Hd.
    + intros _. right. lia.
    + intros Hn. destruct (C n Hn) as [?|?]; [by left | right; lia].
  - split; [done|]. split; [lia|]. intros n Hn. by left.
Qed.

End Finish.

Section Process.

Lemma Inv0_unchanged s s' : unchanged s s' -> Inv0 s -> Inv0 s'.
Proof.
  intros (_ & T & S & H & L & _) [I1 I2 I3 I4].
  constructor; rewrite ?T, ?S, ?H, ?L; done.
Qed.

(** What the part of an iteration after the [select] does. *)
Lemma finish_spec flush m s s' o :
  Inv0 s ->
  (ver (Store.state s) = max_int64 -> is_Some (Store.log s !! max_int64)) ->
  finish flush (ver (Store.state s)) (root (Store.state s)) m s = Next s' o ->
  Inv0 s' /\
  (ver (Store.state s') = max_int64 -> is_Some (Store.log s' !! max_int64)) /\
  sent o = m /\
  Store.allocated s' = Store.allocated s /\
  (forall w, gone w s' = gone w s) /\
  ascending (ver (Store.state s)) (map Event.Seqn (applied o)) /\
  ver (Store.state s') = List.last (map Event.Seqn (applied o)) (ver (Store.state s)) /\
  (forall P, watch_inv P s -> watch_inv P s') /\
  (flush = false ->
     Store.head s' = Store.head s /\
     forall n, is_Some (Store.log s' !! n) ->
       is_Some (Store.log s !! n)
       \/ ver (Store.state s) < n <= ver (Store.state s')) /\
  (flush = true ->
     Store.head s' = add64 (ver (Store.state s')) 1 /\
     Store.log s'
     = <[Event.Seqn (List.last (applied o) Event.zero)
         := List.last (applied o) Event.zero]> (Store.log s) /\
     Store.notices s'
     = Store.notices s
       ++ map (fun w => mkNotice w (List.last (applied o) Event.zero))
            (List.filter (noticed (List.last (applied o) Event.zero) s)
               (Store.watches s)) /\
     Store.watches s'
     = List.filter (kept (List.last (applied o) Event.zero) s) (Store.watches s)).
Proof.
  intros I Htop. unfold finish.
  set (l0 := mkLocals (ver (Store.state s)) (root (Store.state s)) Event.zero []).
  assert (Hv : 0 <= l_ver l0 <= max_int64) by exact (inv_ver s I).
  assert (Ht : Forall (fun t => 1 <= Op.Seqn t <= max_int64) (Store.todo s))
    by exact (inv_todo s I).
  assert (Hloop : in_loop flush l0 s).
  { split; [done|]. split; [done|]. split; [done|].
    split; [pose proof (inv_ver s I); vm_compute Event.zero; simpl; lia|].
    intros Hm. left. auto. }
  pose proof (drain_in_loop flush l0 s Hloop) as (J & Jv & Jvals & Jev & Jtop).
  pose proof (drain_frame flush l0 s Hv Ht) as (Fh & Fa & Fg & Ff).
  pose proof (drain_applied flush l0 s Hv Ht eq_refl) as (Aa & Av & Ae).
  pose proof (fun P => drain_watch_inv flush l0 s Hv Ht P) as Hw.
  pose proof (drain_log_growth flush l0 s Hv Ht) as Hg.
  destruct (drain flush (Store.todo s) l0 s) as [l s1]. simpl in *.
  destruct flush.
  - intros [= <- <-]. simpl.
    destruct (log_and_notify_spec (l_ev l) s1) as (W & N & L & T & S & H & A & G).
    assert (I1 : Inv0 (log_and_notify (l_ev l) s1)).
    { apply Inv0_log_and_notify; [done | lia]. }
    destruct (Ff eq_refl) as (F1 & F2 & F3).
    split.
    { destruct I1 as [K1 K2 K3 K4]. constructor; simpl; try done.
      apply int64_wrap64. }
    rewrite S, A, Fa. split.
    { rewrite L. intros Hm. destruct (Jtop Hm) as [Hs|[_ He]].
      - rewrite lookup_insert. case_decide; [by eexists | done].
      - rewrite He, lookup_insert_eq. by eexists. }
    split; [done|]. split; [done|]. split.
    { intros w. change (gone w (log_and_notify (l_ev l) s1) = gone w s).
      by rewrite G, Fg. }
    split; [done|]. split; [by rewrite <- Jv|]. split.
    { intros P HP. specialize (Hw P HP).
      apply (watch_inv_log_and_notify P (l_ev l)) in Hw.
      destruct Hw as [Hw1 Hw2]. split; simpl; done. }
    split; [done|]. intros _. rewrite <- Ae.
    split; [by rewrite Jv|]. rewrite L, N, W, F1, F2, F3.
    assert (Hk : forall x, kept (l_ev l) s1 x = kept (l_ev l) s x).
    { intros x. unfold kept. by rewrite Fg. }
    assert (Hn : forall x, noticed (l_ev l) s1 x = noticed (l_ev l) s x).
    { intros x. unfold noticed. by rewrite Fg. }
    by rewrite (List.filter_ext _ _ Hk), (List.filter_ext _ _ Hn).
  - intros [= <- <-]. simpl. split; [done|]. split.
    { intros Hm. destruct (Jtop Hm) as [Hs|[? _]]; done. }
    split; [done|]. split; [done|]. split; [done|]. split; [done|].
    split; [by rewrite <- Jv|]. split; [done|]. split; [|done].
    intros _. split; [done|]. by apply Hg.
Qed.

Lemma filter_all_false {A} (f : A -> bool) (l : list A) :
  (forall x, In x l -> f x = false) -> List.filter f l = [].
Proof.
  induction l as [|x l IH]; intros H; simpl; [done|].
  rewrite (H x) by (by left). apply IH. intros y Hy. apply H. by right.
Qed.

Lemma backfill_nil k n v s : backfill k n v [] s = Some (s, []).
Proof. by destruct k. Qed.

(** The loop that replays the log for a new watch ends, in a store that
    holds an event at the greatest int64 once its version is there. *)
Lemma backfill_spec : forall k n ws s,
  Inv0 s ->
  (ver (Store.state s) = max_int64 -> is_Some (Store.log s !! max_int64)) ->
  int64 n -> k = Z.to_nat (ver (Store.state s) - n + 1) ->
  Forall (fun w => int64 (Watch.to w)) ws ->
  exists s' ws',
    backfill k n (ver (Store.state s)) ws s = Some (s', ws') /\
    unchanged s s' /\
    (forall P : Watch -> Prop, Forall P ws ->
       Forall (fun x => P (w x)) (Store.notices s) ->
       Forall P ws' /\ Forall (fun x => P (w x)) (Store.notices s')).
Proof.
  induction k as [|k IH]; intros n ws s I Htop Hn Hk Hws.
  - exists s, ws. split; [|split; [apply unchanged_refl | done]].
    destruct ws as [|w0 ws]; [done|]. simpl.
    assert (Hc : (n <=? ver (Store.state s)) = false) by (apply Z.leb_gt; lia).
    by rewrite Hc.
  - destruct ws as [|w0 ws]; [exists s, []; rewrite backfill_nil;
      split; [done | split; [apply unchanged_refl | done]]|].
    assert (Hle : n <= ver (Store.state s)) by lia.
    assert (Hc : (n <=? ver (Store.state s)) = true) by (apply Z.leb_le; lia).
    cbn [backfill]. rewrite Hc. unfold notify.
    set (e := default Event.zero (Store.log s !! n)).
    pose proof (notify_loop_frame e (w0 :: ws) [] s) as (A & B & C).
    destruct (notify_loop e (w0 :: ws) [] s) as [s1 ws1]. cbn [fst snd app] in A, B, C.
    assert (HP : forall P : Watch -> Prop, Forall P (w0 :: ws) ->
       Forall (fun x => P (w x)) (Store.notices s) ->
       Forall P ws1 /\ Forall (fun x => P (w x)) (Store.notices s1)).
    { intros P H1 H2. rewrite A, B. split; [by apply Forall_filter_bool|].
      apply Forall_app. split; [done|]. apply Forall_map.
      apply (Forall_filter_bool (fun x => P (w (mkNotice x e)))). exact H1. }
    pose proof (inv_ver s I) as Hv. unfold int64 in Hn.
    destruct (decide (n = max_int64)) as [Hmax|Hmax].
    + assert (Hvm : ver (Store.state s) = max_int64) by lia.
      destruct (Htop Hvm) as [e0 He0].
      destruct (inv_log s I _ _ He0) as [Hs0 _].
      assert (ws1 = []) as ->.
      { rewrite A. apply filter_all_false. intros y Hy.
        rewrite List.Forall_forall in Hws. specialize (Hws y Hy).
        unfold kept. subst e. rewrite Hmax, He0. simpl. rewrite Hs0.
        unfold int64 in Hws.
        assert (Hto : (Watch.to y <=? max_int64) = true) by (apply Z.leb_le; lia).
        rewrite Hto. simpl. by rewrite andb_false_r. }
      exists s1, []. rewrite backfill_nil. split; [done|]. split; [done|].
      intros P H1 H2. split; [done|]. by apply (HP P H1 H2).
    + destruct C as (C1 & C2 & C3 & C4 & C5 & C6 & C7).
      assert (Cu : unchanged s s1) by (by repeat split).
      assert (I1 : Inv0 s1) by (by eapply Inv0_unchanged).
      rewrite add64_succ by lia. rewrite <- C3.
      destruct (IH (n + 1) ws1 s1) as (s' & ws' & E & U & HP').
      * done.
      * by rewrite C3, C5.
      * unfold int64; lia.
      * rewrite C3. lia.
      * rewrite A. by apply Forall_filter_bool.
      * exists s', ws'. split; [done|]. split; [by eapply unchanged_trans|].
        intros P H1 H2. destruct (HP P H1 H2) as [H3 H4]. by apply HP'.
Qed.

End Process.

Section Step.

Lemma heap_Push_Forall (P : Op -> Prop) q a :
  Forall P q -> P a -> Forall P (heap_Push q a).
Proof.
  induction 1 as [|t q Ht Hq IH]; intros Ha; simpl.
  - by constructor.
  - destruct (Op.Seqn a <? Op.Seqn t); repeat constructor; auto.
Qed.

Lemma prelude s :
  Inv0 s ->
  (ver (Store.state s) = max_int64 -> is_Some (Store.log s !! max_int64)) ->
  Inv0 (drop_stopped (Store.notices s) s) /\
  (ver (Store.state (drop_stopped (Store.notices s) s)) = max_int64 ->
   is_Some (Store.log (drop_stopped (Store.notices s) s) !! max_int64)) /\
  unchanged s (drop_stopped (Store.notices s) s) /\
  (forall P, watch_inv P s -> watch_inv P (drop_stopped (Store.notices s) s)).
Proof.
  intros I Htop. destruct (drop_stopped_spec (Store.notices s) s) as (U & pre & E).
  split; [by eapply Inv0_unchanged|].
  destruct U as (U1 & U2 & U3 & U4 & U5 & U6 & U7).
  split; [by rewrite U3, U5|]. split; [by repeat split|].
  intros P [H1 H2]. split; [by rewrite U1|].
  rewrite E in H2. by apply Forall_app in H2 as [_ H2].
Qed.

(** The part of an iteration up to and with the [select]: the store it
    hands to the rest of the loop body. *)
Lemma process_select s sel s' o :
  Inv s -> wf_selected s sel -> process s sel = Next s' o ->
  exists s2 m,
    finish (match sel with RecvFlush => true | _ => false end)
      (ver (Store.state s)) (root (Store.state s)) m s2 = Next s' o /\
    Inv0 s2 /\
    (ver (Store.state s2) = max_int64 -> is_Some (Store.log s2 !! max_int64)) /\
    Store.state s2 = Store.state s /\
    Store.allocated s2 = Store.allocated s /\
    (forall w, gone w s2 = gone w s) /\
    (forall P : Watch -> Prop, watch_inv P s ->
       (forall w, sel = RecvWatch w -> Store.head s <= Watch.from w -> P w) ->
       watch_inv P s2 /\ forall w e, m = Some (Notice w e) -> P w) /\
    Store.head s2
    = match sel with
      | RecvClean k => Z.max (Store.head s) (k + 1)
      | _ => Store.head s
      end /\
    (forall n, Store.log s2 !! n
       = match sel with
         | RecvClean k =>
             if decide (Store.head s <= n <= k) then None else Store.log s !! n
         | _ => Store.log s !! n
         end) /\
    (match sel with
     | RecvFlush =>
         Store.watches s2 = Store.watches s /\
         Store.notices s2 = Store.notices (drop_stopped (Store.notices s) s)
     | _ => True
     end).
Proof.
  intros [I Htop Hwi] Hwf. unfold process.
  destruct (prelude s I Htop) as (I1 & Htop1 & U & HP).
  destruct U as (U1 & U2 & U3 & U4 & U5 & U6 & U7).
  set (s1 := drop_stopped (Store.notices s) s) in *.
  assert (Hg : forall x (s2 : Store),
    Store.stopped s2 = Store.stopped s1 -> Store.shutdown s2 = Store.shutdown s1 ->
    gone x s2 = gone x s).
  { intros x s2 E1 E2. rewrite <- U7. unfold gone. by rewrite E1, E2. }
  destruct sel as [a| |wt|k| | | |]; simpl in Hwf.
  - (* an op *)
    intros E. eexists _, _. split; [exact E|].
    assert (I2 : Inv0 (if ver (Store.state s) <? Op.Seqn a
                       then Store.set_todo (heap_Push (Store.todo s1) a) s1 else s1)).
    { destruct (ver (Store.state s) <? Op.Seqn a) eqn:Hlt; [|done].
      apply Z.ltb_lt in Hlt. pose proof (inv_ver s I). unfold int64 in Hwf.
      destruct I1 as [J1 J2 J3 J4]. constructor; simpl; try done.
      apply heap_Push_Forall; [done | lia]. }
    destruct (ver (Store.state s) <? Op.Seqn a); split_and!; try done;
      try (intros x; by apply Hg); try (intros n; simpl; by rewrite U5).
    + intros P H1 _. split; [|done]. destruct (HP P H1). by split.
    + intros P H1 _. split; [by apply HP | done].
  - discriminate.
  - (* a watch to register *)
    destruct Hwf as (Hfrom & Hto & Hid).
    assert (Hres : exists s'' ws',
      (let '(n, ws) := if Watch.from wt <? Store.head s1
                       then (add64 (Watch.from wt) 1, []) else (Watch.from wt, [wt]) in
       backfill (Z.to_nat (ver (Store.state s) - n + 1)) n (ver (Store.state s)) ws s1)
      = Some (s'', ws') /\ unchanged s1 s'' /\
      (forall P : Watch -> Prop, (Store.head s1 <= Watch.from wt -> P wt) ->
         Forall (fun x => P (w x)) (Store.notices s1) ->
         Forall P ws' /\ Forall (fun x => P (w x)) (Store.notices s''))).
    { destruct (Watch.from wt <? Store.head s1) eqn:Hlt.
      - exists s1, []. rewrite backfill_nil. split; [done|].
        split; [apply unchanged_refl | done].
      - apply Z.ltb_ge in Hlt. rewrite <- U3.
        destruct (backfill_spec (Z.to_nat (ver (Store.state s1) - Watch.from wt + 1))
          (Watch.from wt) [wt] s1 I1 Htop1 Hfrom eq_refl) as (s'' & ws' & E & U' & HP').
        { by apply Forall_singleton. }
        exists s'', ws'. split; [done|]. split; [done|].
        intros P HPw. apply HP'. apply Forall_singleton. by apply HPw. }
    destruct Hres as (s'' & ws' & E & U' & HP').
    destruct (if Watch.from wt <? Store.head s1
              then (add64 (Watch.from wt) 1, []) else (Watch.from wt, [wt])) as [n ws].
    rewrite E. intros E'. eexists _, _. split; [exact E'|].
    assert (I2 : Inv0 s'') by (by eapply Inv0_unchanged).
    destruct U' as (V1 & V2 & V3 & V4 & V5 & V6 & V7).
    split_and!; simpl; try done.
    + destruct I2 as [J1 J2 J3 J4]. by constructor.
    + by rewrite V3, V5, U3, U5.
    + by rewrite V3.
    + by rewrite V6.
    + intros x. change (gone x s'' = gone x s). by rewrite V7.
    + intros P H1 H2. split; [|done].
      destruct (HP P H1) as [H3 H4].
      assert (H2' : Store.head s1 <= Watch.from wt -> P wt).
      { rewrite U4. by apply H2. }
      destruct (HP' P H2' H4) as [H5 H6].
      split; simpl; [|done]. apply Forall_app. split; [by rewrite V1 | done].
    + by rewrite V4.
    + intros x. by rewrite V5, U5.
  - (* a trim *)
    pose proof (clean_spec (Z.to_nat (k - Store.head s1 + 1)) k s1
      (inv_head s1 I1) (proj2 Hwf) eq_refl) as Hc.
    destruct (decide (Store.head s1 <= k /\ k = max_int64)) as [Hd|Hd].
    { rewrite Hc. discriminate. }
    destruct Hc as (s2 & E & C1 & C2 & C3 & C4 & C5 & C6 & C7 & C8 & C9).
    rewrite E. intros E'. eexists _, _. split; [exact E'|].
    pose proof (inv_head s1 I1) as Hh. unfold int64 in Hh, Hwf.
    split_and!; try done.
    + constructor; rewrite ?C4, ?C5, ?C1; try apply I1.
      * intros n e. rewrite C2. case_decide; [done|]. apply I1.
      * unfold int64. lia.
    + rewrite C5, C2. intros Hm. rewrite decide_False by lia. auto.
    + by rewrite C5.
    + by rewrite C9.
    + intros x. by apply Hg.
    + intros P H1 _. split; [|done]. destruct (HP P H1).
      split; by rewrite ?C3, ?C6.
    + by rewrite C1, U4.
    + intros n. by rewrite C2, U4, U5.
  - intros E. eexists _, _. split; [exact E|].
    split_and!; try done; try (intros n; by rewrite U5).
    intros P H1 _. split; [by apply HP | done].
  - intros E. eexists _, _. split; [exact E|].
    split_and!; try done; try (intros n; by rewrite U5).
    intros P H1 _. split; [by apply HP | done].
  - (* a notice to deliver *)
    destruct (Store.notices s1) as [|n ns] eqn:En; [discriminate|].
    intros E. eexists _, _. split; [exact E|].
    split_and!; try done; try (intros x; by apply Hg);
      try (intros x; simpl; by rewrite U5).
    + destruct I1 as [J1 J2 J3 J4]. by constructor.
    + intros P H1 _. destruct (HP P H1) as [H2 H3]. rewrite En in H3.
      apply Forall_cons in H3 as [H3 H4]. split; [by split|].
      intros x e [= <- _]. done.
  - intros E. eexists _, _. split; [exact E|].
    split_and!; try done; try (intros n; by rewrite U5).
    intros P H1 _. split; [by apply HP | done].
Qed.

(** What one iteration of [process] does to a store between iterations. *)
Lemma process_spec s sel s' o :
  Inv s -> wf_selected s sel -> process s sel = Next s' o ->
  Inv s' /\
  Store.allocated s' = Store.allocated s /\
  ascending (ver (Store.state s)) (map Event.Seqn (applied o)) /\
  ver (Store.state s') = List.last (map Event.Seqn (applied o)) (ver (Store.state s)) /\
  (forall P : Watch -> Prop, watch_inv P s ->
     (forall w, sel = RecvWatch w -> Store.head s <= Watch.from w -> P w) ->
     watch_inv P s' /\ forall w e, sent o = Some (Notice w e) -> P w) /\
  (forall w, gone w s' = gone w s) /\
  Store.head s'
  = match sel with
    | RecvClean k => Z.max (Store.head s) (k + 1)
    | RecvFlush => add64 (ver (Store.state s')) 1
    | _ => Store.head s
    end /\
  (sel <> RecvFlush ->
   forall n, is_Some (Store.log s' !! n) ->
     (is_Some (Store.log s !! n)
      /\ match sel with
         | RecvClean k => ~ (Store.head s <= n <= k)
         | _ => True
         end)
     \/ ver (Store.state s) < n <= ver (Store.state s')).
Proof.
  intros HI Hwf E.
  destruct (process_select s sel s' o HI Hwf E)
    as (s2 & m & F & I2 & T2 & S2 & A2 & G2 & P2 & H2 & L2 & _).
  rewrite <- S2 in F.
  destruct (finish_spec _ m s2 s' o I2 T2 F)
    as (I' & T' & M' & A' & G' & Asc & V' & P' & NF & FL).
  rewrite S2 in Asc, V'.
  assert (HP : forall P : Watch -> Prop, watch_inv P s ->
     (forall w, sel = RecvWatch w -> Store.head s <= Watch.from w -> P w) ->
     watch_inv P s' /\ forall w e, sent o = Some (Notice w e) -> P w).
  { intros P H1 H3. destruct (P2 P H1 H3) as [H4 H5].
    split; [by apply P' | by rewrite M']. }
  split_and!; try done.
  - constructor; try done.
    destruct HI as [_ _ Hw]. destruct (HP (good_watch s) Hw) as [[Hw1 Hw2] _].
    { intros x -> _. destruct Hwf as (_ & ? & ?). by split. }
    assert (Hgw : forall x, good_watch s x -> good_watch s' x).
    { intros x [? ?]. split; [done|]. by rewrite A', A2. }
    split; (eapply Forall_impl; [eassumption|]); simpl; auto.
  - by rewrite A', A2.
  - intros x. by rewrite G', G2.
  - destruct sel; try (destruct (NF eq_refl) as [-> _]; done).
    by destruct (FL eq_refl) as [-> _].
  - intros Hnf n Hn.
    assert (Hfl : match sel with RecvFlush => true | _ => false end = false)
      by (by destruct sel).
    destruct (NF Hfl) as [_ Hlog]. rewrite S2 in Hlog.
    destruct (Hlog n Hn) as [Hs|Hr]; [left | by right].
    rewrite L2 in Hs. destruct sel; try done.
    case_decide; [by destruct Hs as [? ?] | done].
Qed.

End Step.

Section Run.

Lemma ascending_last_le lo l : ascending lo l -> lo <= List.last l lo.
Proof.
  revert lo. induction l as [|x l IH]; intros lo; [simpl; lia|].
  intros [H1 H2]. specialize (IH x H2).
  destruct l as [|y l]; [simpl in *; lia|].
  change (lo <= List.last (y :: l) lo). rewrite (last_cons_default l y lo x). lia.
Qed.

Lemma last_app_default {A} (l1 l2 : list A) d :
  List.last (l1 ++ l2) d = List.last l2 (List.last l1 d).
Proof.
  induction l2 as [|x l2 IH] using rev_ind.
  - by rewrite app_nil_r.
  - by rewrite app_assoc, !last_snoc.
Qed.

Lemma ascending_app lo l1 l2 :
  ascending lo l1 -> ascending (List.last l1 lo) l2 -> ascending lo (l1 ++ l2).
Proof.
  revert lo. induction l1 as [|x l1 IH]; intros lo; [done|].
  intros [H1 H2] H3. split; [done|]. apply IH; [done|].
  destruct l1 as [|y l1]; [done|]. by rewrite (last_cons_default l1 y x lo).
Qed.

Lemma applied_seqns_app os os' :
  applied_seqns (os ++ os') = applied_seqns os ++ applied_seqns os'.
Proof. unfold applied_seqns. by rewrite map_app, concat_app, map_app. Qed.

Lemma applied_seqns_one o : applied_seqns [o] = map Event.Seqn (applied o).
Proof. unfold applied_seqns. simpl. by rewrite app_nil_r. Qed.

Lemma delivered_to_app i os os' :
  delivered_to i (os ++ os') = delivered_to i os ++ delivered_to i os'.
Proof. apply omap_app. Qed.

Lemma step_ok_refl s : Inv s -> step_ok s s [].
Proof. intros I. by split_and!. Qed.

Lemma step_ok_trans s1 s2 s3 os os' :
  step_ok s1 s2 os -> step_ok s2 s3 os' -> step_ok s1 s3 (os ++ os').
Proof.
  intros (I2 & A2 & Asc2 & V2 & P2) (I3 & A3 & Asc3 & V3 & P3).
  split_and!; try done.
  - lia.
  - rewrite applied_seqns_app. apply ascending_app; [done | by rewrite <- V2].
  - by rewrite applied_seqns_app, last_app_default, <- V2.
  - intros i Hi Hw. destruct (P2 i Hi Hw) as [Hw2 D2].
    destruct (P3 i ltac:(lia) Hw2) as [Hw3 D3].
    split; [done|]. by rewrite delivered_to_app, D2, D3.
Qed.

Lemma Inv_Stop wt s : Inv s -> Inv (Stop wt s).
Proof.
  intros [[I1 I2 I3 I4] T [W N]]. constructor; [by constructor | done | by split].
Qed.

Lemma Inv_set_allocated s :
  Inv s -> Inv (Store.set_allocated (S (Store.allocated s)) s).
Proof.
  intros [[I1 I2 I3 I4] T [W N]]. constructor; [by constructor | done |].
  split; simpl; (eapply Forall_impl; [eassumption|]); simpl;
    intros x [? ?]; split; simpl; auto; lia.
Qed.

(** A rendezvous with the dispatcher is one iteration of its loop. *)
Lemma rendezvous_spec s sel c :
  rendezvous s sel = Some c ->
  exists o, process s sel = Next (after c) o /\ iterations c = [o].
Proof.
  unfold rendezvous. destruct (process s sel) as [s' o| |]; try discriminate.
  intros [= <-]. by exists o.
Qed.

Lemma sel_step s sel c (a : action) :
  Inv s -> wf_selected s sel -> rendezvous s sel = Some c ->
  (forall w, sel <> RecvWatch w) ->
  match sel, a with
  | RecvClean k, CallClean k' => k = k'
  | RecvFlush, CallFlush => True
  | RecvClean _, _ | RecvFlush, _ | _, CallClean _ | _, CallFlush => False
  | _, _ => True
  end ->
  step_ok s (after c) (iterations c) /\ head_log_step a s (after c).
Proof.
  intros I Hwf E Hnw Hm. destruct (rendezvous_spec s sel c E) as (o & Ep & ->).
  destruct (process_spec s sel _ o I Hwf Ep) as (I' & A & Asc & V & P & G & H & L).
  split.
  - split_and!; try done; rewrite ?applied_seqns_one; try done; [lia|].
    intros i Hi Hw. destruct (P _ Hw) as [Hw' Hd].
    { intros x ->. by destruct (Hnw x). }
    split; [done|]. simpl. destruct (sent o) as [[| |x e]|] eqn:Es; try done.
    specialize (Hd x e eq_refl). simpl in Hd. by rewrite decide_False.
  - split.
    + rewrite H. destruct sel, a; try done; by subst.
    + intros Hnf. assert (Hs : sel <> RecvFlush) by (destruct sel, a; done).
      intros n Hn. destruct (L Hs n Hn) as [[H1 H2]|H1]; [left | by right].
      split; [done|]. destruct sel, a; try done. by subst.
Qed.

Lemma int64_max : int64 max_int64.
Proof. unfold int64, min_int64, max_int64. lia. Qed.

Lemma watch_inv_good_fresh s :
  Inv s -> watch_inv (fun w => Watch.id w <> Store.allocated s) s.
Proof.
  intros [_ _ [W N]].
  split; (eapply Forall_impl; [eassumption|]); simpl; intros x [_ ?]; lia.
Qed.

(** A registration: what it returns, and what it leaves. *)
Lemma watchOn_spec a g from to s c :
  Inv s -> int64 from -> int64 to -> trims a = false ->
  watchOn g from to s = Some c ->
  step_ok s (after c) (iterations c) /\ head_log_step a s (after c) /\
  ((from < 1 /\ result c = (None, Some ErrTooLate)
    /\ after c = s /\ iterations c = []) \/
   (1 <= from < Store.head s /\ result c = (None, Some ErrTooLate)
    /\ Store.allocated (after c) = S (Store.allocated s)
    /\ watch_inv (fun w => Watch.id w <> Store.allocated s) (after c)
    /\ delivered_to (Store.allocated s) (iterations c) = []) \/
   (1 <= from /\ Store.head s <= from
    /\ result c = (Some (Watch.mk (Store.allocated s) g from to), None))).
Proof.
  intros I Hfrom Hto Ha. unfold watchOn.
  assert (Hhl : forall s', Store.head s' = Store.head s ->
    (forall n, is_Some (Store.log s' !! n) ->
       is_Some (Store.log s !! n) /\ True
       \/ ver (Store.state s) < n <= ver (Store.state s')) ->
    head_log_step a s s').
  { intros s' H1 H2. split; [by destruct a | intros _ n Hn].
    destruct (H2 n Hn) as [[? _]|?]; [left | by right]. by destruct a. }
  destruct (from <? 1) eqn:H1.
  { apply Z.ltb_lt in H1. intros [= <-]. simpl.
    split; [by apply step_ok_refl|]. split; [|by left].
    apply Hhl; [done|]. intros n Hn. by left. }
  apply Z.ltb_ge in H1.
  set (wt := Watch.mk (Store.allocated s) g from to).
  set (s0 := Store.set_allocated (S (Store.allocated s)) s).
  destruct (rendezvous s0 (RecvWatch wt)) as [c0|] eqn:E; [|discriminate].
  destruct (rendezvous_spec _ _ _ E) as (o & Ep & Ei).
  assert (I0 : Inv s0) by (by apply Inv_set_allocated).
  assert (Hwf : wf_selected s0 (RecvWatch wt)) by (simpl; split_and!; try done; lia).
  destruct (process_spec s0 _ _ o I0 Hwf Ep) as (I' & A & Asc & V & P & G & H & L).
  simpl in A, Asc, V, H, L.
  assert (Hstep : forall s', Inv s' -> Store.allocated s' = Store.allocated (after c0) ->
    Store.state s' = Store.state (after c0) ->
    Store.watches s' = Store.watches (after c0) ->
    Store.notices s' = Store.notices (after c0) ->
    step_ok s s' (iterations c0)).
  { intros s' Is' E1 E2 E3 E4. rewrite Ei.
    split_and!; rewrite ?applied_seqns_one, ?E1, ?E2, ?A; try done; [lia|].
    intros i Hi Hw. destruct (P (fun w => Watch.id w <> i)) as [[Hw1 Hw2] Hd].
    { done. }
    { intros x [= <-] _. simpl. lia. }
    split; [split; by rewrite ?E3, ?E4|]. simpl.
    destruct (sent o) as [[| |x e]|] eqn:Es; try done.
    specialize (Hd x e eq_refl). simpl in Hd. by rewrite decide_False. }
  assert (Hlog : forall n, is_Some (Store.log (after c0) !! n) ->
       is_Some (Store.log s !! n) /\ True
       \/ ver (Store.state s) < n <= ver (Store.state (after c0))).
  { intros n Hn. by apply (L ltac:(done) n Hn). }
  destruct (from <? Store.head (after c0)) eqn:H2.
  - apply Z.ltb_lt in H2. rewrite H in H2. intros [= <-]. simpl.
    split; [by apply Hstep; [apply Inv_Stop|..]|].
    split; [by apply Hhl|]. right. left.
    split; [done|]. split; [done|]. split; [done|].
    destruct (P (fun w => Watch.id w <> Store.allocated s)) as [[Hw1 Hw2] Hd].
    { exact (watch_inv_good_fresh s I). }
    { intros x [= <-]. simpl. lia. }
    split; [by split|]. rewrite Ei. simpl.
    destruct (sent o) as [[| |x e]|] eqn:Es; try done.
    specialize (Hd x e eq_refl). simpl in Hd. by rewrite decide_False.
  - apply Z.ltb_ge in H2. rewrite H in H2. intros [= <-]. simpl.
    split; [by apply Hstep|]. split; [by apply Hhl|]. right. right. done.
Qed.

(** What an action of a client does to a store between iterations. *)
Lemma exec_spec a s s' os :
  Inv s -> wf_action a -> exec a s = Some (s', os) ->
  step_ok s s' os /\ head_log_step a s s'.
Proof.
  intros I Hwf. destruct a as [x|g from|g|seqn|wt|k| | | |]; simpl in *.
  - destruct (rendezvous s (RecvOp x)) as [c|] eqn:E; [|discriminate].
    intros [= <- <-]. by apply (sel_step s (RecvOp x)).
  - unfold NewWatchFrom. destruct (watchOn _ _ _ _) as [c|] eqn:E; [|discriminate].
    intros [= <- <-].
    destruct (watchOn_spec (CallNewWatchFrom g from) _ _ _ _ _ I Hwf
      int64_max eq_refl E) as (H1 & H2 & _).
    done.
  - unfold NewWatch, NewWatchFrom.
    destruct (watchOn _ _ _ _) as [c|] eqn:E; [|discriminate].
    destruct (watchOn_spec (CallNewWatch g) _ _ _ _ _ I (int64_wrap64 _)
      int64_max eq_refl E) as (H1 & H2 & _).
    destruct (snd (result c)); [discriminate|].
    intros [= <- <-]. done.
  - unfold Wait. destruct (watchOn _ _ _ _) as [c|] eqn:E; [|discriminate].
    destruct (watchOn_spec (CallWait seqn) _ _ _ _ _ I Hwf (int64_wrap64 _) eq_refl E)
      as (H1 & H2 & _).
    destruct (snd (result c)); intros [= <- <-]; done.
  - intros [= <- <-]. split.
    + pose proof (step_ok_refl s I) as (I1 & A & Asc & V & P).
      split_and!; try done. by apply Inv_Stop.
    + split; [done|]. intros _ n Hn. left. done.
  - unfold Clean. destruct (rendezvous s (RecvClean k)) as [c|] eqn:E; [|discriminate].
    intros [= <- <-]. by apply (sel_step s (RecvClean k)).
  - unfold Flush. destruct (rendezvous s RecvFlush) as [c|] eqn:E; [|discriminate].
    intros [= <- <-]. by apply (sel_step s RecvFlush).
  - destruct (rendezvous s SendSeqns) as [c|] eqn:E; [|discriminate].
    intros [= <- <-]. by apply (sel_step s SendSeqns).
  - destruct (rendezvous s SendWatches) as [c|] eqn:E; [|discriminate].
    intros [= <- <-]. by apply (sel_step s SendWatches).
  - destruct (rendezvous s SendNotice) as [c|] eqn:E; [|discriminate].
    intros [= <- <-]. by apply (sel_step s SendNotice).
Qed.

Lemma run_cons a acts s r :
  run (a :: acts) s = Some r ->
  exists s1 os1 os2,
    exec a s = Some (s1, os1) /\ run acts s1 = Some (fst r, os2) /\ snd r = os1 ++ os2.
Proof.
  simpl. destruct (exec a s) as [[s1 os1]|] eqn:E1; [|discriminate].
  destruct (run acts s1) as [[s2 os2]|] eqn:E2; [|discriminate].
  intros [= <-]. by exists s1, os1, os2.
Qed.

(** Every store a history of well-formed actions reaches satisfies the
    invariant. *)
Lemma run_spec acts : forall s s' os,
  Inv s -> Forall wf_action acts -> run acts s = Some (s', os) -> step_ok s s' os.
Proof.
  induction acts as [|a acts IH]; intros s s' os I Hwf.
  - intros [= <- <-]. by apply step_ok_refl.
  - apply Forall_cons in Hwf as [Ha Hacts]. intros E.
    apply run_cons in E as (s1 & os1 & os2 & E1 & E2 & E3). simpl in *. subst os.
    destruct (exec_spec a s s1 os1 I Ha E1) as [H1 _].
    eapply step_ok_trans; [exact H1|]. apply IH; try done. apply H1.
Qed.

Lemma Inv_New : Inv New.
Proof.
  constructor.
  - constructor; simpl; try done.
  - simpl. done.
  - split; simpl; constructor.
Qed.

End Run.

Section Reach.



Lemma head_inv_step a s s' os :
  step_ok s s' os -> head_log_step a s s' ->
  match a with
  | CallFlush => False
  | CallClean k => k <= ver (Store.state s)
  | _ => True
  end ->
  head_inv s -> head_inv s'.
Proof.
  intros (_ & _ & Asc & V & _) [Hh Hl] Ht [B1 B2].
  pose proof (ascending_last_le _ _ Asc) as Hle. rewrite <- V in Hle.
  assert (Hnf : a <> CallFlush) by (by destruct a).
  specialize (Hl Hnf). split.
  - rewrite Hh. destruct a; lia.
  - intros n Hn. rewrite Hh. destruct (Hl n Hn) as [[H1 H2]|H1].
    + specialize (B2 n H1). destruct a; lia.
    + destruct a; lia.
Qed.

Lemma run_head_inv acts : forall s s' os,
  Inv s -> Forall wf_action acts -> tame acts s -> head_inv s ->
  run acts s = Some (s', os) -> head_inv s'.
Proof.
  induction acts as [|a acts IH]; intros s s' os I Hwf Ht Hh E.
  - by injection E as <- <-.
  - apply Forall_cons in Hwf as [Ha Hacts]. destruct Ht as [Ht1 Ht2].
    apply run_cons in E as (s1 & os1 & os2 & E1 & E2 & E3). simpl in *.
    rewrite E1 in Ht2.
    destruct (exec_spec a s s1 os1 I Ha E1) as [H1 H2].
    apply (IH s1 s' os2); try done; [apply H1|].
    by apply (head_inv_step a s s1 os1).
Qed.

(** The dispatcher always finishes the registration of a watch. *)
Lemma process_RecvWatch_total s wt :
  Inv s -> wf_selected s (RecvWatch wt) ->
  exists s' o, process s (RecvWatch wt) = Next s' o.
Proof.
  intros [I Htop _] (Hfrom & Hto & _). unfold process.
  destruct (prelude s I Htop) as (I1 & Htop1 & U & _).
  destruct U as (_ & _ & U3 & _).
  set (s1 := drop_stopped (Store.notices s) s) in *.
  assert (Hres : exists r,
    (let '(n, ws) := if Watch.from wt <? Store.head s1
                     then (add64 (Watch.from wt) 1, []) else (Watch.from wt, [wt]) in
     backfill (Z.to_nat (ver (Store.state s) - n + 1)) n (ver (Store.state s)) ws s1)
    = Some r).
  { destruct (Watch.from wt <? Store.head s1).
    - eexists. by rewrite backfill_nil.
    - rewrite <- U3.
      destruct (backfill_spec (Z.to_nat (ver (Store.state s1) - Watch.from wt + 1))
        (Watch.from wt) [wt] s1 I1 Htop1 Hfrom eq_refl) as (s'' & ws' & E & _).
      { by apply Forall_singleton. }
      by eexists. }
  destruct Hres as ([s2 ws2] & E).
  destruct (if Watch.from wt <? Store.head s1
            then (add64 (Watch.from wt) 1, []) else (Watch.from wt, [wt])) as [n ws].
  rewrite E. unfold finish. destruct (drain _ _ _ _) as [l s3]. by eexists _, _.
Qed.

Lemma watchOn_total g from to s :
  Inv s -> int64 from -> int64 to -> exists c, watchOn g from to s = Some c.
Proof.
  intros I Hfrom Hto. unfold watchOn. destruct (from <? 1); [by eexists|].
  destruct (process_RecvWatch_total
    (Store.set_allocated (S (Store.allocated s)) s)
    (Watch.mk (Store.allocated s) g from to)) as (s' & o & E).
  - by apply Inv_set_allocated.
  - simpl. split_and!; try done. lia.
  - unfold rendezvous. rewrite E. simpl. destruct (from <? Store.head s'); by eexists.
Qed.

(** A flushing iteration. *)
Lemma process_flush_spec s s' o :
  Inv s -> process s RecvFlush = Next s' o ->
  Store.notices s'
  = Store.notices (drop_stopped (Store.notices s) s)
    ++ map (fun w => mkNotice w (List.last (applied o) Event.zero))
         (List.filter (noticed (List.last (applied o) Event.zero) s)
            (Store.watches s)) /\
  Store.watches s'
  = List.filter (kept (List.last (applied o) Event.zero) s) (Store.watches s) /\
  Store.log s'
  = <[Event.Seqn (List.last (applied o) Event.zero)
      := List.last (applied o) Event.zero]> (Store.log s) /\
  Store.head s' = add64 (ver (Store.state s')) 1 /\
  sent o = None.
Proof.
  intros I E.
  destruct (process_select s RecvFlush s' o I ltac:(done) E)
    as (s2 & m & F & I2 & T2 & S2 & A2 & G2 & P2 & H2 & L2 & W2 & N2).
  assert (m = None) as ->.
  { unfold process in E. unfold finish in E, F.
    destruct (drain _ _ _ _) as [l1 s3] in E.
    destruct (drain _ _ _ _) as [l2 s4] in F.
    injection E as _ E. injection F as _ F. rewrite <- E in F.
    by injection F. }
  rewrite <- S2 in F.
  destruct (finish_spec _ None s2 s' o I2 T2 F)
    as (_ & _ & M' & _ & _ & _ & _ & _ & _ & FL).
  destruct (FL eq_refl) as (Hh & Hl & Hn & Hw).
  assert (Hk : forall e x, kept e s2 x = kept e s x).
  { intros e x. unfold kept. by rewrite G2. }
  assert (Hno : forall e x, noticed e s2 x = noticed e s x).
  { intros e x. unfold noticed. by rewrite G2. }
  rewrite Hn, Hw, Hl, W2, N2.
  rewrite (List.filter_ext _ _ (Hk _)), (List.filter_ext _ _ (Hno _)).
  split_and!; try done.
  apply map_eq. intros n. rewrite !lookup_insert. case_decide; [done | apply L2].
Qed.

End Reach.

(** * The claims about the watch registry and the dispatcher *)

(** C6: [notify] treats every watch of the list as the cases say, in
    their order: a watch that is stopped or whose window the event has
    passed ([e.seqn >= w.to]) leaves the live set with no notice; a watch
    whose window the event closes ([e.seqn = w.to - 1]) leaves the live set
    after this event; an event before the window ([e.seqn < w.from]) gives
    no notice; otherwise a notice [(w, e)] is appended iff the glob of the
    watch matches the path of the event. *)
Theorem notify_treats_each_watch (e : Event) (ws : list Watch) (s : Store) :
  int64 (Event.Seqn e) -> Forall (fun w => int64 (Watch.to w)) ws ->
  snd (notify e ws s) = List.filter (stays e s) ws /\
  Store.notices (fst (notify e ws s))
  = Store.notices s ++ map (fun w => mkNotice w e) (List.filter (noticed e s) ws) /\
  forall w,
    (gone w s = true \/ Watch.to w <= Event.Seqn e ->
       stays e s w = false /\ noticed e s w = false) /\
    (gone w s = false -> Event.Seqn e < Watch.to w ->
       stays e s w = negb (Event.Seqn e =? Watch.to w - 1) /\
       (Event.Seqn e < Watch.from w -> noticed e s w = false) /\
       (Watch.from w <= Event.Seqn e ->
          noticed e s w = Match (Watch.glob w) (Event.Path e))).
Proof.
  intros He Hws. unfold notify.
  destruct (notify_loop_frame e ws [] s) as (A & B & _).
  split; [|split; [done|]].
  - rewrite A. simpl. apply List.filter_ext_in. intros x Hx.
    apply kept_stays; [done|]. rewrite List.Forall_forall in Hws. by apply Hws.
  - intros x. unfold stays, noticed, treatment. split.
    + intros [->|Hto]; [done|].
      assert (Hc : (Watch.to x <=? Event.Seqn e) = true) by (apply Z.leb_le; lia).
      by rewrite Hc, orb_true_r.
    + intros -> Hlt.
      assert (Hc : (Watch.to x <=? Event.Seqn e) = false) by (apply Z.leb_gt; lia).
      rewrite Hc. simpl. split; [by destruct (Event.Seqn e <? Watch.from x)|]. split.
      * intros Hf. assert (Hd : (Event.Seqn e <? Watch.from x) = true)
          by (apply Z.ltb_lt; lia).
        by rewrite Hd.
      * intros Hf. assert (Hd : (Event.Seqn e <? Watch.from x) = false)
          by (apply Z.ltb_ge; lia).
        by rewrite Hd.
Qed.

Lemma notify_treats_each_watch_witness :
  snd (notify ex_event ex_watches ex_store)
  = [Watch.mk 3 Any 9 max_int64; Watch.mk 4 (mkGlob (fun _ => false)) 1 max_int64] /\
  Store.notices (fst (notify ex_event ex_watches ex_store))
  = [mkNotice (Watch.mk 2 Any 7 8) ex_event].
Proof.
  assert (He : int64 (Event.Seqn ex_event)) by (by vm_compute).
  assert (Hws : Forall (fun w => int64 (Watch.to w)) ex_watches)
    by (repeat constructor; by vm_compute).
  destruct (notify_treats_each_watch ex_event ex_watches ex_store He Hws) as (A & B & _).
  split; [rewrite A | rewrite B]; reflexivity.
Defined.

(** C10: a registration with [from < 1] fails with [ErrTooLate] before it
    reaches the dispatcher: the store is left as it was and no iteration
    of [process] takes part; so do [NewWatchFrom] and [Wait] at zero and
    below, on any store. *)
Theorem registration_below_one_is_too_late (s : Store) (g : Glob) (from to : Z) :
  from < 1 ->
  watchOn g from to s = Some (mkCall (None, Some ErrTooLate) s []) /\
  NewWatchFrom s g from = Some (mkCall (None, Some ErrTooLate) s []) /\
  Wait s from = Some (mkCall (None, Some ErrTooLate) s []).
Proof.
  intros H. assert (Hc : (from <? 1) = true) by (by apply Z.ltb_lt).
  unfold Wait, NewWatchFrom, watchOn. by rewrite Hc.
Qed.

Lemma registration_below_one_is_too_late_witness :
  Wait New 0 = Some (mkCall (None, Some ErrTooLate) New []) /\
  Wait New (-3) = Some (mkCall (None, Some ErrTooLate) New []) /\
  NewWatchFrom New Any 0 = Some (mkCall (None, Some ErrTooLate) New []).
Proof.
  split; [|split].
  - apply (registration_below_one_is_too_late New Any 0 1). lia.
  - apply (registration_below_one_is_too_late New Any (-3) (-2)). lia.
  - apply (registration_below_one_is_too_late New Any 0 0). lia.
Defined.

Section FlushCollapse.

Variables m5 m8 : string.





End FlushCollapse.

Section Ascending.

Lemma ascending_bounds lo l : ascending lo l -> Forall (fun x => lo < x) l.
Proof.
  revert lo. induction l as [|x l IH]; intros lo; [constructor|].
  intros [H1 H2]. constructor; [done|].
  eapply Forall_impl; [by apply IH|]. simpl. intros y ?. lia.
Qed.

Lemma ascending_NoDup lo l : ascending lo l -> NoDup l.
Proof.
  revert lo. induction l as [|x l IH]; intros lo; [constructor|].
  intros [H1 H2]. constructor; [|by eapply IH].
  intros Hx. pose proof (ascending_bounds _ _ H2) as Hb.
  rewrite Forall_forall in Hb. specialize (Hb x Hx). lia.
Qed.

Lemma process_flush_total s : exists s' o, process s RecvFlush = Next s' o.
Proof.
  unfold process, finish. destruct (drain _ _ _ _) as [l s1]. by eexists _, _.
Qed.

End Ascending.

(** C5, the claim as stated fails at the greatest int64: after a [Flush]
    has taken the store to version 2^63 - 1, a second op with that sequence
    number is at the top of the queue with [seqn <= version], and the next
    iteration neither pops nor applies it: [ver+1] has wrapped around. *)
Lemma stale_op_stays_at_greatest_version :
  exists s os s' o t,
    run [SendOp (Op.mk max_int64 "0:/a=x"); SendOp (Op.mk max_int64 "0:/a=y");
         CallFlush] New = Some (s, os) /\
    Store.todo s = [t] /\ Op.Seqn t <= ver (Store.state s) /\
    process s SendSeqns = Next s' o /\
    Store.todo s' = [t] /\ applied o = [].
Proof.
  eexists _, _, _, _, _.
  split; [vm_compute; reflexivity|].
  split; [reflexivity|]. split; [by vm_compute|].
  split; [vm_compute; reflexivity|]. split; reflexivity.
Qed.

(** C5, amended: in every history each sequence number is applied at
    most once (the numbers applied ascend strictly); an op received with
    [seqn <= version] is not enqueued; and while the version is below the
    greatest int64, a top of the queue with [seqn <= version] is popped
    and discarded without applying, the top with [seqn = version + 1] is
    popped and applied, and a top with [seqn > version + 1] stops the
    loop unless the iteration is a flush, which applies it. *)
Theorem ops_applied_at_most_once (acts : list action) (s : Store) (os : list output) :
  Forall wf_action acts -> run acts New = Some (s, os) ->
  ascending 0 (applied_seqns os) /\ NoDup (applied_seqns os) /\
  (forall a, Op.Seqn a <= ver (Store.state s) ->
     process s (RecvOp a)
     = finish false (ver (Store.state s)) (root (Store.state s)) None
         (drop_stopped (Store.notices s) s)) /\
  (forall flush t q' v vals e ap s0,
     0 <= v < max_int64 -> 1 <= Op.Seqn t <= max_int64 ->
     (Op.Seqn t <= v ->
        drain flush (t :: q') (mkLocals v vals e ap) s0
        = drain flush q' (mkLocals v vals e ap) (Store.set_todo q' s0)) /\
     (Op.Seqn t = v + 1 \/ (flush = true /\ v + 1 < Op.Seqn t) ->
        drain flush (t :: q') (mkLocals v vals e ap) s0
        = let '(values, ev) := apply vals (Op.Seqn t) (Op.Mut t) in
          drain flush q' (mkLocals (Event.Seqn ev) values ev (ap ++ [ev]))
            (popped_applied flush q' values ev s0)) /\
     (flush = false -> v + 1 < Op.Seqn t ->
        drain flush (t :: q') (mkLocals v vals e ap) s0
        = (mkLocals v vals e ap, s0))).
Proof.
  intros Hwf E.
  destruct (run_spec acts New s os Inv_New Hwf E) as (_ & _ & Asc & _).
  split; [done|]. split; [by eapply ascending_NoDup|]. split.
  - intros a Ha. unfold process.
    assert (Hc : (ver (Store.state s) <? Op.Seqn a) = false) by (apply Z.ltb_ge; lia).
    by rewrite Hc.
  - intros flush t q' v vals e ap s0 Hv Ht. rewrite drain_cons by lia. split_and!.
    + intros Hle. assert (Hc : (Op.Seqn t <=? v) = true) by (apply Z.leb_le; lia).
      assert (Hm : (v =? max_int64) = false) by (apply Z.eqb_neq; lia).
      by rewrite Hc, Hm.
    + intros Hc'. assert (Hc : (Op.Seqn t <=? v) = false) by (apply Z.leb_gt; lia).
      rewrite Hc. destruct Hc' as [Heq|[-> Hgt]]; [|done].
      apply Z.eqb_eq in Heq. by rewrite Heq, orb_true_r.
    + intros -> Hgt. assert (Hc : (Op.Seqn t <=? v) = false) by (apply Z.leb_gt; lia).
      assert (Hm : (Op.Seqn t =? v + 1) = false) by (apply Z.eqb_neq; lia).
      by rewrite Hc, Hm.
Qed.

Lemma ops_applied_at_most_once_witness :
  exists s os,
    run [SendOp (Op.mk 2 "0:/a=x"); SendOp (Op.mk 1 "0:/b=y");
         SendOp (Op.mk 1 "0:/c=z"); SendOp (Op.mk 2 "0:/d=w")] New = Some (s, os) /\
    applied_seqns os = [1; 2] /\
    ascending 0 (applied_seqns os) /\ NoDup (applied_seqns os).
Proof.
  destruct (run [SendOp (Op.mk 2 "0:/a=x"); SendOp (Op.mk 1 "0:/b=y");
                 SendOp (Op.mk 1 "0:/c=z"); SendOp (Op.mk 2 "0:/d=w")] New)
    as [[s os]|] eqn:E; [|by vm_compute in E].
  assert (Hwf : Forall wf_action
    [SendOp (Op.mk 2 "0:/a=x"); SendOp (Op.mk 1 "0:/b=y");
     SendOp (Op.mk 1 "0:/c=z"); SendOp (Op.mk 2 "0:/d=w")])
    by (repeat constructor; by vm_compute).
  destruct (ops_applied_at_most_once _ s os Hwf E) as (A & B & _).
  exists s, os. split; [done|]. split; [|by split].
  vm_compute in E. by injection E as <- <-.
Defined.

(** C3, the claim as stated fails: after one op and a [Flush] the log
    holds the event of sequence number 1 while [head] is 2. *)
Lemma flushed_event_below_head :
  ~ (forall acts s os, Forall wf_action acts -> run acts New = Some (s, os) ->
       forall n e, Store.log s !! n = Some e ->
         Store.head s <= Event.Seqn e <= ver (Store.state s)).
Proof.
  intros H.
  destruct (run [SendOp (Op.mk 1 "0:/a=x"); CallFlush] New) as [[s os]|] eqn:E;
    [|by vm_compute in E].
  assert (Hwf : Forall wf_action [SendOp (Op.mk 1 "0:/a=x"); CallFlush])
    by (repeat constructor; by vm_compute).
  specialize (H _ s os Hwf E 1).
  vm_compute in E. injection E as <- _.
  specialize (H _ eq_refl). simpl in H. lia.
Qed.

(** C3, amended: in every reachable store each event retained in the log
    is stored under its own sequence number, which lies between 0 and the
    version; and as long as no [Flush] was processed and every [Clean]
    asked for a position the store had reached, no retained event lies
    below [head]. *)
Theorem log_within_version (acts : list action) (s : Store) (os : list output) :
  Forall wf_action acts -> run acts New = Some (s, os) ->
  (forall n e, Store.log s !! n = Some e ->
     Event.Seqn e = n /\ 0 <= Event.Seqn e <= ver (Store.state s)) /\
  (tame acts New ->
   forall n e, Store.log s !! n = Some e ->
     Store.head s <= Event.Seqn e <= ver (Store.state s)).
Proof.
  intros Hwf E.
  destruct (run_spec acts New s os Inv_New Hwf E) as ([I _ _] & _).
  assert (Hlog : forall n e, Store.log s !! n = Some e ->
     Event.Seqn e = n /\ 0 <= Event.Seqn e <= ver (Store.state s)).
  { intros n e Hn. destruct (inv_log s I n e Hn) as [-> ?]. done. }
  split; [done|]. intros Ht n e Hn.
  assert (Hh : head_inv New).
  { split; [by vm_compute|]. intros k [x Hx].
    change (@lookup Z Event (gmap Z Event) _ k ∅ = Some x) in Hx.
    by rewrite lookup_empty in Hx. }
  destruct (run_head_inv acts New s os Inv_New Hwf Ht Hh E) as [_ Hh'].
  destruct (Hlog n e Hn) as [He Hr]. split; [|lia].
  rewrite He. apply Hh'. by eexists.
Qed.

Lemma log_within_version_witness :
  exists s os e,
    run [SendOp (Op.mk 1 "0:/a=x"); SendOp (Op.mk 2 "1:/a=y"); CallClean 1] New
    = Some (s, os) /\
    Store.log s !! 2 = Some e /\
    Store.head s <= Event.Seqn e <= ver (Store.state s).
Proof.
  destruct (run [SendOp (Op.mk 1 "0:/a=x"); SendOp (Op.mk 2 "1:/a=y"); CallClean 1] New)
    as [[s os]|] eqn:E; [|by vm_compute in E].
  assert (Hwf : Forall wf_action
    [SendOp (Op.mk 1 "0:/a=x"); SendOp (Op.mk 2 "1:/a=y"); CallClean 1])
    by (repeat constructor; by vm_compute).
  destruct (log_within_version _ s os Hwf E) as [_ H].
  assert (Ht : tame [SendOp (Op.mk 1 "0:/a=x"); SendOp (Op.mk 2 "1:/a=y"); CallClean 1]
                 New) by (vm_compute; repeat split; discriminate).
  specialize (H Ht 2).
  vm_compute in E. injection E as <- <-.
  eexists _, _, _. split; [reflexivity|]. split; [reflexivity|].
  by apply H.
Defined.

Section Trim.

(** The iteration that takes the greatest int64 from [cleanCh] never
    ends: [head++] wraps around before [head] passes it. *)
Lemma process_RecvClean_max s : Inv s -> process s (RecvClean max_int64) = NoReturn.
Proof.
  intros [I Htop _]. unfold process.
  destruct (prelude s I Htop) as (I1 & _).
  pose proof (clean_spec _ max_int64 _ (inv_head _ I1) ltac:(lia) eq_refl) as Hc.
  pose proof (inv_head _ I1) as [_ Hh].
  rewrite decide_True in Hc by done. by rewrite Hc.
Qed.

End Trim.




(** C2, at an input where the code does not do what the claim and the
    doc comments of [NewWatch] and [NewWatchFrom] say: a watch is
    registered, an op with sequence number 5 is sent and a [Flush] is
    processed; the event of the flush is enqueued for the watch and then
    delivered on its channel. *)
Lemma flush_final_event_is_delivered :
  exists s os e,
    run [CallNewWatch Any; SendOp (Op.mk 5 "0:/a=x"); CallFlush; Receive] New
    = Some (s, os) /\
    applied_seqns os = [5] /\
    delivered_to 0 os = [e] /\ Event.Seqn e = 5.
Proof.
  eexists _, _, _. split; [vm_compute; reflexivity|].
  split; [reflexivity|]. split; reflexivity.
Qed.

(** What a flushing iteration enqueues, in every reachable store: it
    ends, and it enqueues notices for one event only, its final event
    (the event of the last op it applied, or the zero event when it
    applied none): a notice for each live watch that is not stopped,
    whose window holds the sequence number of that event and whose glob
    matches its path.  It enqueues no notice for the other events it
    applies, sends nothing, and records the final event in the log. *)
Theorem flush_notifies_final_event_only
    (acts : list action) (s : Store) (os : list output) :
  Forall wf_action acts -> run acts New = Some (s, os) ->
  exists s' o,
    process s RecvFlush = Next s' o /\
    sent o = None /\
    Store.notices s'
    = Store.notices (drop_stopped (Store.notices s) s)
      ++ map (fun w => mkNotice w (List.last (applied o) Event.zero))
           (List.filter (noticed (List.last (applied o) Event.zero) s)
              (Store.watches s)) /\
    Store.log s'
    = <[Event.Seqn (List.last (applied o) Event.zero)
        := List.last (applied o) Event.zero]> (Store.log s).
Proof.
  intros Hwf E.
  assert (I : Inv s) by (by destruct (run_spec _ New s os Inv_New Hwf E)).
  destruct (process_flush_total s) as (s' & o & Ef).
  destruct (process_flush_spec s s' o I Ef) as (N & _ & L & _ & M).
  by exists s', o.
Qed.

Lemma flush_notifies_final_event_only_witness :
  exists s os s' o,
    run [CallNewWatch Any; SendOp (Op.mk 3 "0:/a=x"); SendOp (Op.mk 5 "0:/b=y")] New
    = Some (s, os) /\
    process s RecvFlush = Next s' o /\
    map Event.Seqn (applied o) = [3; 5] /\
    map (fun n => Event.Seqn (ev n)) (Store.notices s') = [5].
Proof.
  destruct (run [CallNewWatch Any; SendOp (Op.mk 3 "0:/a=x");
                 SendOp (Op.mk 5 "0:/b=y")] New) as [[s os]|] eqn:E;
    [|by vm_compute in E].
  assert (Hwf : Forall wf_action
    [CallNewWatch Any; SendOp (Op.mk 3 "0:/a=x"); SendOp (Op.mk 5 "0:/b=y")])
    by (repeat constructor; by vm_compute).
  destruct (flush_notifies_final_event_only _ s os Hwf E) as (s' & o & Ef & M & N & L).
  exists s, os, s', o. split; [done|]. split; [done|].
  vm_compute in E. injection E as <- <-.
  vm_compute in Ef. injection Ef as <- <-. split; reflexivity.
Defined.
(** * More properties of the codec *)

Section PathParts.

Lemma seg_char_dec c : {seg_char c} + {~ seg_char c}.
Proof.
  destruct (MatchString charPat (String c "")) eqn:E.
  - left. apply charPat_seg_char. by apply MatchString_lang.
  - right. intros H. apply charPat_seg_char, MatchString_lang in H. congruence.
Qed.

Lemma SplitAll_nonempty s sep : SplitAll s sep <> [].
Proof.
  destruct s as [|c s]; [done|]. simpl. unfold split_all_aux.
  destruct (is_char sep c); [done|]. by destruct (SplitAll s sep).
Qed.

Lemma Join_cons x y rest sep :
  Join (x :: y :: rest) sep = x +:+ sep +:+ Join (y :: rest) sep.
Proof. reflexivity. Qed.

Lemma Join_SplitAll s : Join (SplitAll s "/") "/" = s.
Proof.
  induction s as [|c s IH]; [done|].
  simpl SplitAll. unfold split_all_aux.
  pose proof (SplitAll_nonempty s "/") as Hne.
  destruct (SplitAll s "/") as [|p ps]; [done|].
  destruct (is_char "/" c) eqn:Hc.
  - apply is_char_eq in Hc as <-. rewrite Join_cons, IH. reflexivity.
  - destruct ps as [|q ps].
    + simpl in *. by rewrite IH.
    + rewrite Join_cons in *. rewrite app_cons. by rewrite IH.
Qed.

Lemma SplitAll_absent s : occurs "/" s = false -> SplitAll s "/" = [s].
Proof.
  induction s as [|c s IH]; [done|]. simpl.
  intros H. apply orb_false_iff in H as [Hc H]. rewrite IH by done.
  unfold split_all_aux. by rewrite Hc.
Qed.

Lemma SplitAll_first (a b : string) :
  occurs "/" a = false ->
  SplitAll (a +:+ String "/" b) "/" = a :: SplitAll b "/".
Proof.
  induction a as [|c a IH]; intros H.
  - rewrite app_nil. reflexivity.
  - rewrite app_cons. simpl in *. apply orb_false_iff in H as [Hc H].
    rewrite IH by done. unfold split_all_aux. by rewrite Hc.
Qed.

Lemma not_seg_char_slash : ~ seg_char "/"%char.
Proof.
  unfold seg_char, between. simpl.
  intros [H|[H|[H|[H|H]]]]; try lia; discriminate.
Qed.

Lemma not_seg_char_colon : ~ seg_char ":"%char.
Proof.
  unfold seg_char, between. simpl.
  intros [H|[H|[H|[H|H]]]]; try lia; discriminate.
Qed.

Lemma segments_SplitAll p :
  segments p ->
  exists rest, p = String "/" rest /\ rest <> "" /\
    Forall is_segment (SplitAll rest "/").
Proof.
  induction 1 as [s H|s p H Hp (rest & -> & Hne & IH)].
  - exists s. split; [done|]. split; [by destruct H|].
    rewrite SplitAll_absent by (by apply is_segment_occurs, H; apply not_seg_char_slash).
    by apply Forall_singleton.
  - exists (s +:+ String "/" rest). split; [by rewrite app_cons|].
    split; [destruct H; by rewrite app_cons|].
    rewrite SplitAll_first by (by apply is_segment_occurs, H; apply not_seg_char_slash).
    by constructor.
Qed.

Lemma valid_path_slash p : valid_path p -> exists rest, p = String "/" rest.
Proof.
  intros [->|H]; [by eexists|].
  destruct (segments_SplitAll p H) as (rest & -> & _). by eexists.
Qed.

Lemma Join_empty parts : Join parts "/" = "" -> parts = [] \/ parts = [""].
Proof.
  destruct parts as [|x [|y rest]]; [by left | simpl; intros ->; by right|].
  rewrite Join_cons. intros H. apply app_eq_empty in H as [_ H]. discriminate.
Qed.

Lemma SplitAll_Join parts :
  parts <> [] -> Forall (fun x => occurs "/" x = false) parts ->
  SplitAll (Join parts "/") "/" = parts.
Proof.
  induction parts as [|x parts IH]; [done|]. intros _ H.
  apply Forall_cons in H as [Hx H]. destruct parts as [|y parts].
  - simpl. by apply SplitAll_absent.
  - rewrite Join_cons. change ("/" +:+ Join (y :: parts) "/")
      with (String "/" (Join (y :: parts) "/")).
    rewrite SplitAll_first by done. by rewrite IH.
Qed.

End PathParts.

Section Parse.

Lemma Split2_found sep : forall s a b,
  Split2 s sep = (a, Some b) -> s = a +:+ String sep b /\ occurs sep a = false.
Proof.
  induction s as [|c s IH]; intros a b; simpl; [discriminate|].
  destruct (is_char sep c) eqn:Hc.
  - intros [= <- <-]. apply is_char_eq in Hc as ->. by rewrite app_nil.
  - destruct (Split2 s sep) as [a' b'] eqn:E. intros [= <- ->].
    destruct (IH a' b eq_refl) as [-> H]. rewrite app_cons. cbn [occurs]. by rewrite Hc.
Qed.

Lemma Split2_not_found sep : forall s a,
  Split2 s sep = (a, None) -> s = a /\ occurs sep s = false.
Proof.
  induction s as [|c s IH]; intros a; simpl; [by intros [= <-]|].
  destruct (is_char sep c) eqn:Hc; [discriminate|].
  destruct (Split2 s sep) as [a' b'] eqn:E. intros [= <- ->].
  destruct (IH a' eq_refl) as [-> H]. by split.
Qed.

(** What [decode] makes of an encoded mutation. *)
Lemma decode_EncodeSet path body rev :
  checkPath path = None -> int64 rev ->
  decode (Itoa64 rev +:+ ":" +:+ path +:+ "=" +:+ body)
  = mkDecoded path body rev true None.
Proof.
  intros Hc Hr. assert (Hp := proj1 (checkPath_valid path) Hc).
  assert (Heq := valid_path_occurs "=" path not_seg_char_eq ltac:(discriminate) Hp).
  unfold decode. change (":" +:+ path +:+ "=" +:+ body)
    with (String ":" (path +:+ String "=" body)).
  rewrite Split2_first by apply Itoa64_no_colon.
  rewrite Atoi64_Itoa64 by done.
  rewrite Split2_first by done. by rewrite Hc.
Qed.

Lemma decode_EncodeDel path rev :
  checkPath path = None -> int64 rev ->
  decode (Itoa64 rev +:+ ":" +:+ path) = mkDecoded path "" rev false None.
Proof.
  intros Hc Hr. assert (Hp := proj1 (checkPath_valid path) Hc).
  assert (Heq := valid_path_occurs "=" path not_seg_char_eq ltac:(discriminate) Hp).
  unfold decode. change (":" +:+ path) with (String ":" path).
  rewrite Split2_first by apply Itoa64_no_colon.
  rewrite Atoi64_Itoa64 by done.
  rewrite Split2_absent by done. by rewrite Hc.
Qed.

End Parse.

(** X1: [checkPath] returns nil exactly for the paths of the grammar, [/]
    or one or more [/]-led non-empty runs of [[A-Za-z0-9.-]]; for any
    other string it returns the [BadPathError] that carries the string. *)
Theorem checkPath_accepts_the_grammar (k : string) :
  (checkPath k = None <-> valid_path k) /\
  (checkPath k = None \/ checkPath k = Some (BadPathError k)).
Proof.
  split; [apply checkPath_valid|].
  unfold checkPath. destruct (MatchString pathRe k); simpl; auto.
Qed.

(** X2: a path that [checkPath] accepts begins with [/] and holds no byte
    other than [/] and the bytes of [[A-Za-z0-9.-]]; so it holds neither
    [:] nor [=], the separators of a mutation. *)
Theorem accepted_path_bytes (k : string) :
  checkPath k = None ->
  (exists rest, k = String "/" rest) /\
  (forall c, occurs c k = true -> c = "/"%char \/ seg_char c) /\
  occurs ":" k = false /\ occurs "=" k = false.
Proof.
  intros Hc. apply checkPath_valid in Hc. split_and!.
  - by apply valid_path_slash.
  - intros c Ho. destruct (ascii_dec c "/") as [?|Hs]; [by left|].
    destruct (seg_char_dec c) as [?|Hn]; [by right|].
    rewrite (valid_path_occurs c k Hn Hs Hc) in Ho. discriminate.
  - apply valid_path_occurs; [apply not_seg_char_colon | discriminate | done].
  - apply valid_path_occurs; [apply not_seg_char_eq | discriminate | done].
Qed.

Lemma accepted_path_bytes_witness :
  checkPath "/a/b-c.d" = None /\
  (exists rest, "/a/b-c.d" = String "/" rest) /\
  occurs ":" "/a/b-c.d" = false /\ occurs "=" "/a/b-c.d" = false.
Proof.
  assert (Hc : checkPath "/a/b-c.d" = None) by reflexivity.
  destruct (accepted_path_bytes "/a/b-c.d" Hc) as (H1 & _ & H3 & H4).
  split; [exact Hc|]. split; [exact H1|]. split; [exact H3 | exact H4].
Defined.

(** X3: [join] after [split] gives back the path with [/] for its first
    byte, whatever that byte was; so it gives back every path that
    [checkPath] accepts. *)
Theorem join_split (path : string) :
  (forall c rest, path = String c rest -> join (split path) = String "/" rest) /\
  (checkPath path = None -> join (split path) = path).
Proof.
  assert (H : forall c rest, path = String c rest ->
    join (split path) = String "/" rest).
  { intros c rest ->. unfold split, join.
    destruct (String.eqb (String c rest) "/") eqn:E.
    - apply String.eqb_eq in E. by injection E as -> ->.
    - by rewrite Join_SplitAll. }
  split; [done|]. intros Hc. apply checkPath_valid in Hc.
  destruct (valid_path_slash path Hc) as (rest & ->). by apply (H "/"%char).
Qed.

Lemma join_split_witness :
  join (split "xa/b") = "/a/b" /\ join (split "/a/b") = "/a/b".
Proof.
  split.
  - apply (proj1 (join_split "xa/b") "x"%char "a/b"). reflexivity.
  - apply (proj2 (join_split "/a/b")). reflexivity.
Defined.

(** X4: [split] after [join] gives back the parts, when no part holds a
    [/] and the parts are not the one empty string (which joins to [/],
    the path of no parts). *)
Theorem split_join (parts : list string) :
  Forall (fun x => occurs "/" x = false) parts -> parts <> [""] ->
  split (join parts) = parts.
Proof.
  intros H Hne. unfold join, split.
  change ("/" +:+ Join parts "/") with (String "/" (Join parts "/")).
  destruct (String.eqb (String "/" (Join parts "/")) "/") eqn:E.
  - apply String.eqb_eq in E. injection E as E.
    by destruct (Join_empty parts E).
  - apply SplitAll_Join; [|done]. intros ->. done.
Qed.

Lemma split_join_witness :
  split (join ["a"; ""; "b-c"]) = ["a"; ""; "b-c"] /\ split (join []) = [].
Proof.
  split.
  - apply (split_join ["a"; ""; "b-c"]); [by repeat constructor | discriminate].
  - apply (split_join []); [constructor | discriminate].
Defined.

(** X5: [split] gives no part for [/], and for any other path that
    [checkPath] accepts it gives at least one part, each a non-empty run
    of [[A-Za-z0-9.-]]. *)
Theorem split_accepted_path (path : string) :
  checkPath path = None ->
  if String.eqb path "/" then split path = []
  else split path <> [] /\ Forall is_segment (split path).
Proof.
  intros Hc. apply checkPath_valid in Hc. unfold split.
  destruct (String.eqb path "/") eqn:E; [done|].
  apply String.eqb_neq in E. destruct Hc as [?|H]; [done|].
  destruct (segments_SplitAll path H) as (rest & -> & Hne & Hs).
  split; [apply SplitAll_nonempty | done].
Qed.

Lemma split_accepted_path_witness :
  split "/" = [] /\ split "/a/b-c.d" <> [] /\ Forall is_segment (split "/a/b-c.d").
Proof.
  split.
  - apply (split_accepted_path "/"). reflexivity.
  - apply (split_accepted_path "/a/b-c.d"). reflexivity.
Defined.

(** X6: the encoding loses nothing.  Two [EncodeSet] calls that succeed
    with the same mutation were given the same path, body and revision;
    so were two [EncodeDel] calls of accepted paths; and no mutation is
    both a set and a delete. *)
Theorem Encode_injective (p p' b b' : string) (r r' : Z) :
  checkPath p = None -> checkPath p' = None -> int64 r -> int64 r' ->
  (EncodeSet p b r = EncodeSet p' b' r' -> p = p' /\ b = b' /\ r = r') /\
  (EncodeDel p r = EncodeDel p' r' -> p = p' /\ r = r') /\
  fst (EncodeSet p b r) <> fst (EncodeDel p' r').
Proof.
  intros Hp Hp' Hr Hr'. unfold EncodeSet, EncodeDel. rewrite Hp, Hp'.
  pose proof (decode_EncodeSet p b r Hp Hr) as D1.
  pose proof (decode_EncodeSet p' b' r' Hp' Hr') as D2.
  pose proof (decode_EncodeDel p r Hp Hr) as D3.
  pose proof (decode_EncodeDel p' r' Hp' Hr') as D4.
  split_and!.
  - intros [= E]. rewrite E in D1. rewrite D1 in D2. by injection D2.
  - intros [= E]. rewrite E in D3. rewrite D3 in D4. by injection D4.
  - simpl. intros E. rewrite E in D1. rewrite D1 in D4. discriminate.
Qed.

Lemma Encode_injective_witness :
  fst (EncodeSet "/a" "" 1) <> fst (EncodeDel "/a" 1).
Proof.
  assert (Hr : int64 1) by (unfold int64, min_int64, max_int64; lia).
  apply (Encode_injective "/a" "/a" "" "" 1 1 eq_refl eq_refl Hr Hr).
Defined.

(** X7: a mutation that [decode] accepts is a number that
    [strconv.Atoi64] reads as the revision, a colon, and the path, which
    [checkPath] accepts; then, iff [keep] is set, [=] and the body.
    Without [keep] the body returned is empty. *)
Theorem decode_accepts (m : string) :
  d_err (decode m) = None ->
  exists num,
    m = num +:+ ":" +:+ d_path (decode m)
        +:+ (if d_keep (decode m) then "=" +:+ d_v (decode m) else "") /\
    occurs ":" num = false /\
    Atoi64 num = (d_rev (decode m), None) /\
    checkPath (d_path (decode m)) = None /\
    (d_keep (decode m) = false -> d_v (decode m) = "").
Proof.
  unfold decode. destruct (Split2 m ":") as [cm0 [cm1|]] eqn:E1; [|discriminate].
  apply Split2_found in E1 as [-> Hn].
  destruct (Atoi64 cm0) as [rev [err|]] eqn:E2; [discriminate|].
  destruct (Split2 cm1 "=") as [kv0 kv1] eqn:E3.
  destruct (checkPath kv0) eqn:E4; [discriminate|].
  destruct kv1 as [v|]; simpl; intros _; exists cm0.
  - apply Split2_found in E3 as [-> _]. by split_and!.
  - apply Split2_not_found in E3 as [-> _]. rewrite app_empty_r. by split_and!.
Qed.

Lemma decode_accepts_witness :
  exists num,
    "+07:/a=b=c" = num +:+ ":" +:+ d_path (decode "+07:/a=b=c")
        +:+ (if d_keep (decode "+07:/a=b=c") then "=" +:+ d_v (decode "+07:/a=b=c") else "") /\
    occurs ":" num = false /\
    Atoi64 num = (d_rev (decode "+07:/a=b=c"), None) /\
    checkPath (d_path (decode "+07:/a=b=c")) = None /\
    (d_keep (decode "+07:/a=b=c") = false -> d_v (decode "+07:/a=b=c") = "").
Proof. apply (decode_accepts "+07:/a=b=c"). reflexivity. Defined.

(** X8: [MustEncodeSet] panics exactly when [checkPath] rejects the path,
    and then with the [BadPathError] of the path; otherwise it returns a
    mutation that [decode] turns back into the path, the body and the
    revision. *)
Theorem MustEncodeSet_panics (path body : string) (rev : Z) :
  int64 rev ->
  match MustEncodeSet path body rev with
  | Panic err => checkPath path = Some err /\ err = BadPathError path
  | Returned m =>
      checkPath path = None /\ decode m = mkDecoded path body rev true None
  end.
Proof.
  intros Hr. unfold MustEncodeSet, EncodeSet.
  assert (Hcases : checkPath path = None \/ checkPath path = Some (BadPathError path)) by (unfold checkPath; destruct (MatchString pathRe path); simpl; auto). destruct Hcases as [Hc|Hc]; rewrite Hc.
  - split; [done|]. by apply decode_EncodeSet.
  - done.
Qed.

Lemma MustEncodeSet_panics_witness :
  match MustEncodeSet "/a b" "x" 5 with
  | Panic err => checkPath "/a b" = Some err /\ err = BadPathError "/a b"
  | Returned m =>
      checkPath "/a b" = None /\ decode m = mkDecoded "/a b" "x" 5 true None
  end.
Proof.
  apply (MustEncodeSet_panics "/a b" "x" 5).
  unfold int64, min_int64, max_int64. lia.
Defined.

(** X9: [MustEncodeDel] never panics.  For a path that [checkPath]
    rejects it returns the empty mutation, which [decode] rejects with
    [ErrBadMutation]; for a path it accepts, a mutation that [decode]
    turns back into the path and the revision. *)
Theorem MustEncodeDel_never_panics (path : string) (rev : Z) :
  int64 rev ->
  exists m, MustEncodeDel path rev = Returned m /\
    match checkPath path with
    | Some _ => m = "" /\ d_err (decode m) = Some ErrBadMutation
    | None => decode m = mkDecoded path "" rev false None
    end.
Proof.
  intros Hr. unfold MustEncodeDel, EncodeDel.
  destruct (checkPath path) eqn:Hc; eexists; (split; [reflexivity|]).
  - done.
  - by apply decode_EncodeDel.
Qed.

Lemma MustEncodeDel_never_panics_witness :
  exists m, MustEncodeDel "/a b" 5 = Returned m /\
    match checkPath "/a b" with
    | Some _ => m = "" /\ d_err (decode m) = Some ErrBadMutation
    | None => decode m = mkDecoded "/a b" "" 5 false None
    end.
Proof.
  apply (MustEncodeDel_never_panics "/a b" 5).
  unfold int64, min_int64, max_int64. lia.
Defined.
(** * More properties of the dispatcher *)

Section Queue.

Lemma Less_false x y : Less y x = false <-> Op.Seqn x <= Op.Seqn y.
Proof. unfold Less. rewrite Z.ltb_ge. done. Qed.

Lemma heap_Push_sorted q a : sorted q -> sorted (heap_Push q a).
Proof.
  induction q as [|t q IH]; simpl.
  - intros _. split; [constructor | done].
  - intros [Ht Hq]. destruct (Op.Seqn a <? Op.Seqn t) eqn:E.
    + apply Z.ltb_lt in E. split; [|by split].
      constructor; [apply Less_false; lia|].
      eapply Forall_impl; [exact Ht|]. simpl. intros y Hy.
      apply Less_false in Hy. apply Less_false. lia.
    + apply Z.ltb_ge in E. split; [|by apply IH].
      apply heap_Push_Forall; [done | by apply Less_false].
Qed.

Lemma sorted_cons t q : sorted (t :: q) ->
  sorted q /\ Forall (fun y => Op.Seqn t <= Op.Seqn y) q.
Proof.
  intros [H2 H1]. split; [done|].
  eapply Forall_impl; [exact H2|]. simpl. intros y. apply Less_false.
Qed.

(** The loop over [todo] leaves a queue in which nothing can be applied;
    in a flush it leaves no queue at all, unless the version is the
    greatest int64. *)
Lemma drain_post flush : forall q l s,
  Store.todo s = q -> 0 <= l_ver l <= max_int64 ->
  Forall (fun t => 1 <= Op.Seqn t <= max_int64) q -> sorted q ->
  sorted (Store.todo (snd (drain flush q l s))) /\
  (l_ver (fst (drain flush q l s)) < max_int64 ->
   Forall (fun t => l_ver (fst (drain flush q l s)) + 1 < Op.Seqn t)
     (Store.todo (snd (drain flush q l s)))) /\
  (flush = true -> l_ver (fst (drain flush q l s)) < max_int64 ->
   Store.todo (snd (drain flush q l s)) = []).
Proof.
  induction q as [|t q' IH]; intros l s Htodo Hv Hq Hs.
  - simpl. rewrite Htodo. split; [done|]. split; [by constructor | done].
  - apply Forall_cons in Hq as [Ht Hq']. destruct l as [v vals e ap].
    simpl in Hv. destruct (sorted_cons _ _ Hs) as [Hs' Hle].
    rewrite drain_cons by done.
    destruct (Op.Seqn t <=? v) eqn:E1.
    + destruct (v =? max_int64) eqn:E2.
      * apply Z.eqb_eq in E2. simpl. rewrite Htodo. split; [done|]. split; lia.
      * by apply IH.
    + apply Z.leb_gt in E1.
      destruct (flush || (Op.Seqn t =? v + 1)) eqn:E3.
      * destruct (apply vals (Op.Seqn t) (Op.Mut t)) as [values ev] eqn:Ea.
        assert (Hseq : Event.Seqn ev = Op.Seqn t).
        { pose proof (apply_Seqn vals (Op.Seqn t) (Op.Mut t)) as H.
          by rewrite Ea in H. }
        apply IH; try done; [apply popped_applied_todo | simpl; lia].
      * apply orb_false_iff in E3 as [-> E3]. apply Z.eqb_neq in E3.
        simpl. rewrite Htodo. split; [done|]. split; [|done].
        intros _. constructor; [lia|].
        eapply Forall_impl; [exact Hle|]. simpl. intros y Hy. lia.
Qed.

(** With nothing to apply, the loop over [todo] does nothing. *)
Lemma drain_idle q l s :
  0 <= l_ver l <= max_int64 ->
  Forall (fun t => 1 <= Op.Seqn t <= max_int64) q ->
  (l_ver l < max_int64 -> Forall (fun t => l_ver l + 1 < Op.Seqn t) q) ->
  drain false q l s = (l, s).
Proof.
  intros Hv Hq Hd. destruct q as [|t q']; [done|].
  apply Forall_cons in Hq as [Ht Hq']. destruct l as [v vals e ap].
  simpl in Hv, Hd. rewrite drain_cons by done.
  destruct (Op.Seqn t <=? v) eqn:E1.
  - apply Z.leb_le in E1. destruct (v =? max_int64) eqn:E2; [done|].
    apply Z.eqb_neq in E2. specialize (Hd ltac:(lia)).
    apply Forall_cons in Hd as [Hd _]. lia.
  - apply Z.leb_gt in E1. simpl.
    destruct (Op.Seqn t =? v + 1) eqn:E3; [|done].
    apply Z.eqb_eq in E3. specialize (Hd ltac:(lia)).
    apply Forall_cons in Hd as [Hd _]. lia.
Qed.

Lemma finish_idle m s :
  Inv0 s -> drained s ->
  finish false (ver (Store.state s)) (root (Store.state s)) m s
  = Next s (mkOutput [] m).
Proof.
  intros I [_ Hd]. unfold finish.
  rewrite drain_idle; [done | exact (inv_ver s I) | exact (inv_todo s I) | done].
Qed.

Lemma finish_drained flush m s s' o :
  Inv0 s ->
  (ver (Store.state s) = max_int64 -> is_Some (Store.log s !! max_int64)) ->
  sorted (Store.todo s) ->
  finish flush (ver (Store.state s)) (root (Store.state s)) m s = Next s' o ->
  drained s' /\
  (flush = true -> ver (Store.state s') < max_int64 -> Store.todo s' = []).
Proof.
  intros I Htop Hs. unfold finish.
  set (l0 := mkLocals (ver (Store.state s)) (root (Store.state s)) Event.zero []).
  assert (Hv : 0 <= l_ver l0 <= max_int64) by exact (inv_ver s I).
  assert (Hloop : in_loop flush l0 s).
  { split; [done|]. split; [done|]. split; [done|].
    split; [pose proof (inv_ver s I); vm_compute Event.zero; simpl; lia|].
    intros Hm. left. auto. }
  pose proof (drain_in_loop flush l0 s Hloop) as (_ & Jv & _).
  pose proof (drain_post flush (Store.todo s) l0 s eq_refl Hv (inv_todo s I) Hs)
    as (P1 & P2 & P3).
  destruct (drain flush (Store.todo s) l0 s) as [l s1]. simpl in *.
  destruct flush.
  - intros [= <- <-]. simpl.
    destruct (log_and_notify_spec (l_ev l) s1) as (_ & _ & _ & T & S & _).
    unfold drained. simpl. rewrite T, S, <- Jv. split; [by split | done].
  - intros [= <- <-]. unfold drained. rewrite <- Jv. split; [by split | done].
Qed.

End Queue.
Section SelectMore.

Lemma noticed_true e s x :
  noticed e s x = true ->
  gone x s = false /\ Watch.from x <= Event.Seqn e < Watch.to x /\
  Match (Watch.glob x) (Event.Path e) = true.
Proof.
  unfold noticed, treatment. destruct (gone x s); [done|]. simpl.
  destruct (Watch.to x <=? Event.Seqn e) eqn:E1; [done|].
  destruct (Event.Seqn e <? Watch.from x) eqn:E2; [done|]. simpl.
  apply Z.leb_gt in E1. apply Z.ltb_ge in E2. intros ->. split; [done|]. split; [lia | done].
Qed.

Lemma noticed_in_window e s x : noticed e s x = true -> in_window (mkNotice x e).
Proof. intros H. apply noticed_true in H as (_ & H1 & H2). by split. Qed.

Lemma noticed_gone_eq e s s' x :
  (forall y, gone y s' = gone y s) -> noticed e s' x = noticed e s x.
Proof. intros H. unfold noticed. by rewrite H. Qed.

Lemma kept_gone_eq e s s' x :
  (forall y, gone y s' = gone y s) -> kept e s' x = kept e s x.
Proof. intros H. unfold kept. by rewrite H. Qed.

Lemma ascending_weaken lo lo' l : lo' <= lo -> ascending lo l -> ascending lo' l.
Proof. destruct l as [|x l]; [done|]. intros H [H1 H2]. split; [lia | done]. Qed.

(** The notices at the head of the queue that an iteration discards are
    those of stopped watches, and the notice it finds at the head then is
    not of a stopped watch. *)
Lemma drop_stopped_ext : forall ns s,
  exists pre, ns = pre ++ Store.notices (drop_stopped ns s) /\
    Forall (fun n => gone (w n) s = true) pre /\
    match Store.notices (drop_stopped ns s) with
    | [] => True
    | n :: _ => gone (w n) s = false
    end.
Proof.
  induction ns as [|n ns IH]; intros s; simpl.
  - exists []. by split_and!.
  - destruct (isStopped_spec (w n) s) as (Hg & Hu & Hn).
    destruct (isStopped (w n) s) as [b s1]. simpl in Hg, Hu, Hn. destruct b.
    + destruct (IH s1) as (pre & A & B & C). exists (n :: pre).
      destruct Hu as (_ & _ & _ & _ & _ & _ & G). split_and!.
      * simpl. by rewrite <- A.
      * constructor; [done|]. eapply Forall_impl; [exact B|]. simpl.
        intros x. by rewrite G.
      * destruct (Store.notices (drop_stopped ns s1)); [done|]. by rewrite <- G.
    + exists []. simpl. by split_and!.
Qed.

(** The replay of the log for a new watch: the notices it enqueues are
    for the events of the log from [n] to the version that the watch is
    to see, in ascending order. *)
Lemma backfill_ext wt : forall k n ws s,
  Inv0 s ->
  (ver (Store.state s) = max_int64 -> is_Some (Store.log s !! max_int64)) ->
  int64 n -> Watch.from wt <= n -> 1 <= Watch.from wt ->
  k = Z.to_nat (ver (Store.state s) - n + 1) ->
  int64 (Watch.to wt) -> ws = [] \/ ws = [wt] ->
  exists s' ws' es,
    backfill k n (ver (Store.state s)) ws s = Some (s', ws') /\
    unchanged s s' /\
    (ws' = [] \/ ws' = [wt]) /\
    Store.notices s' = Store.notices s ++ map (mkNotice wt) es /\
    ascending (n - 1) (map Event.Seqn es) /\
    Forall (fun e => Event.Seqn e <= ver (Store.state s) /\
                     noticed e s wt = true /\
                     Store.log s !! Event.Seqn e = Some e) es /\
    (ws = [] -> es = []) /\
    (ws = [wt] -> forall e, n <= Event.Seqn e <= ver (Store.state s) ->
       Store.log s !! Event.Seqn e = Some e -> noticed e s wt = true -> In e es) /\
    (ver (Store.state s) < n -> ws' = ws).
Proof.
  induction k as [|k IH]; intros n ws s I Htop Hn Hfn Hf1 Hk Hto Hws.
  - exists s, ws, []. rewrite app_nil_r.
    split_and!; try done; try apply unchanged_refl.
    + destruct Hws as [->| ->]; [done|]. simpl.
      assert (Hc : (n <=? ver (Store.state s)) = false) by (apply Z.leb_gt; lia).
      by rewrite Hc.
    + intros _ e He. lia.
  - destruct Hws as [->| ->].
    { exists s, [], []. rewrite backfill_nil, app_nil_r.
      split_and!; try done; try apply unchanged_refl; try (by left). }
    assert (Hle : n <= ver (Store.state s)) by lia.
    assert (Hc : (n <=? ver (Store.state s)) = true) by (apply Z.leb_le; lia).
    cbn [backfill]. rewrite Hc. unfold notify.
    set (e := default Event.zero (Store.log s !! n)).
    pose proof (notify_loop_frame e [wt] [] s) as (A & B & C).
    destruct (notify_loop e [wt] [] s) as [s1 ws1]. cbn [fst snd app] in A, B, C.
    assert (F1 : noticed e s wt = true ->
      Store.log s !! n = Some e /\ Event.Seqn e = n).
    { intros Hno. subst e. destruct (Store.log s !! n) as [e0|] eqn:E0; simpl in *.
      - destruct (inv_log s I _ _ E0) as [? _]. done.
      - apply noticed_true in Hno as (_ & Hno & _). vm_compute Event.zero in Hno.
        simpl in Hno. lia. }
    assert (F2 : Event.Seqn e = n \/ Event.Seqn e = 0).
    { subst e. destruct (Store.log s !! n) as [e0|] eqn:E0; simpl.
      - destruct (inv_log s I _ _ E0) as [? _]. by left.
      - by right. }
    set (es0 := if noticed e s wt then [e] else []).
    assert (B' : Store.notices s1 = Store.notices s ++ map (mkNotice wt) es0).
    { rewrite B. subst es0. simpl. by destruct (noticed e s wt). }
    assert (A' : ws1 = if kept e s wt then [wt] else []).
    { rewrite A. simpl. by destruct (kept e s wt). }
    assert (Hes0 : Forall (fun e => Event.Seqn e <= ver (Store.state s) /\
                     noticed e s wt = true /\
                     Store.log s !! Event.Seqn e = Some e) es0 /\
                   ascending (n - 1) (map Event.Seqn es0) /\
                   (es0 = [] \/ (es0 = [e] /\ Event.Seqn e = n))).
    { subst es0. destruct (noticed e s wt) eqn:Hno; [|by split_and!; [constructor|..]; auto].
      destruct (F1 eq_refl) as [F3 F4]. split_and!.
      - apply Forall_singleton. rewrite F4. split_and!; [lia | done | done].
      - simpl. split; [lia | done].
      - by right. }
    destruct Hes0 as (H1 & H2 & H3).
    pose proof (inv_ver s I) as Hv. unfold int64 in Hn.
    assert (Hsame : forall e', Event.Seqn e' = n ->
      Store.log s !! Event.Seqn e' = Some e' -> noticed e' s wt = true -> In e' es0).
    { intros e' Hs Hl Hno. rewrite Hs in Hl. subst es0.
      assert (e = e') as <- by (subst e; by rewrite Hl).
      rewrite Hno. by left. }
    destruct (decide (n = max_int64)) as [Hmax|Hmax].
    + assert (Hvm : ver (Store.state s) = max_int64) by lia.
      destruct (Htop Hvm) as [e0 He0].
      destruct (inv_log s I _ _ He0) as [Hs0 _].
      assert (ws1 = []) as ->.
      { rewrite A'. unfold kept. subst e. rewrite Hmax, He0. simpl. rewrite Hs0.
        unfold int64 in Hto.
        assert (Hto' : (Watch.to wt <=? max_int64) = true) by (apply Z.leb_le; lia).
        rewrite Hto'. simpl. by rewrite andb_false_r. }
      exists s1, [], es0. rewrite backfill_nil.
      split_and!; try done; [by left | | lia].
      intros _ e' He'. apply Hsame. lia.
    + destruct C as (C1 & C2 & C3 & C4 & C5 & C6 & C7).
      assert (Cu : unchanged s s1) by (by repeat split).
      assert (I1 : Inv0 s1) by (by eapply Inv0_unchanged).
      rewrite add64_succ by lia. rewrite <- C3.
      destruct (IH (n + 1) ws1 s1)
        as (s' & ws' & es' & E & U & W' & N' & Asc & Fa & Z1 & Ex & _).
      * done.
      * by rewrite C3, C5.
      * unfold int64; lia.
      * lia.
      * done.
      * rewrite C3. lia.
      * done.
      * rewrite A'. destruct (kept e s wt); auto.
      * exists s', ws', (es0 ++ es'). split; [done|]. rewrite !C3.
        split; [by eapply unchanged_trans|]. split; [done|].
        split; [by rewrite N', B', map_app, app_assoc|].
        replace (n + 1 - 1) with n in Asc by lia. split_and!.
        -- rewrite map_app. destruct H3 as [->|[-> H3]]; simpl.
           ++ apply (ascending_weaken n); [lia | done].
           ++ split; [lia|]. by rewrite H3.
        -- apply Forall_app. split; [done|].
           eapply Forall_impl; [exact Fa|]. simpl. intros x (X1 & X2 & X3).
           rewrite C3 in X1. rewrite C5 in X3.
           rewrite (noticed_gone_eq x s s1 wt C7) in X2. done.
        -- done.
        -- intros _ e' He' Hl Hno. apply in_or_app.
           destruct (decide (Event.Seqn e' = n)) as [Hs|Hs]; [left; by apply Hsame|].
           right. apply Ex.
           ++ rewrite A'. apply noticed_true in Hno as (Hg & Hw & _).
              unfold kept. rewrite Hg. simpl.
              assert (T1 : (Watch.to wt <=? Event.Seqn e) = false)
                by (apply Z.leb_gt; lia).
              rewrite T1. simpl. unfold int64 in Hto.
              rewrite sub64_one by (pose proof min_int64_neg; lia).
              assert (T2 : (Event.Seqn e =? Watch.to wt - 1) = false)
                by (apply Z.eqb_neq; lia).
              by rewrite T2.
           ++ rewrite C3. lia.
           ++ by rewrite C5.
           ++ by rewrite (noticed_gone_eq e' s s1 wt C7).
        -- lia.
Qed.

(** The part of an iteration up to and with the [select], field by
    field. *)
Lemma select_ext s sel s' o :
  Inv s -> wf_selected s sel ->
  (forall wt, sel = RecvWatch wt -> 1 <= Watch.from wt) ->
  process s sel = Next s' o ->
  exists s2 m pre rest,
    finish (match sel with RecvFlush => true | _ => false end)
      (ver (Store.state s)) (root (Store.state s)) m s2 = Next s' o /\
    Inv0 s2 /\
    (ver (Store.state s2) = max_int64 -> is_Some (Store.log s2 !! max_int64)) /\
    Store.state s2 = Store.state s /\
    Store.allocated s2 = Store.allocated s /\
    (forall x, gone x s2 = gone x s) /\
    Store.notices s = pre ++ rest /\
    Forall (fun n => gone (w n) s = true) pre /\
    match rest with [] => True | n :: _ => gone (w n) s = false end /\
    Store.todo s2
    = match sel with
      | RecvOp a =>
          if ver (Store.state s) <? Op.Seqn a then heap_Push (Store.todo s) a
          else Store.todo s
      | _ => Store.todo s
      end /\
    Store.head s2
    = match sel with
      | RecvClean k => Z.max (Store.head s) (k + 1)
      | _ => Store.head s
      end /\
    (forall n, Store.log s2 !! n
       = match sel with
         | RecvClean k =>
             if decide (Store.head s <= n <= k) then None else Store.log s !! n
         | _ => Store.log s !! n
         end) /\
    match sel with
    | RecvWatch wt =>
        m = None /\
        exists es ws',
          Store.notices s2 = rest ++ map (mkNotice wt) es /\
          Store.watches s2 = Store.watches s ++ ws' /\
          (ws' = [] \/ ws' = [wt]) /\
          (Watch.from wt < Store.head s -> ws' = [] /\ es = []) /\
          ascending (Watch.from wt - 1) (map Event.Seqn es) /\
          Forall (fun e => Event.Seqn e <= ver (Store.state s) /\
                           noticed e s wt = true /\
                           Store.log s !! Event.Seqn e = Some e) es /\
          (Store.head s <= Watch.from wt ->
           forall e, Watch.from wt <= Event.Seqn e <= ver (Store.state s) ->
             Store.log s !! Event.Seqn e = Some e -> noticed e s wt = true ->
             In e es) /\
          (Store.head s <= Watch.from wt -> ver (Store.state s) < Watch.from wt ->
           ws' = [wt])
    | SendNotice =>
        Store.watches s2 = Store.watches s /\
        exists n, rest = n :: Store.notices s2 /\ m = Some (Notice (w n) (ev n))
    | SendSeqns =>
        m = Some (Seqns (ver (Store.state s))) /\
        Store.notices s2 = rest /\ Store.watches s2 = Store.watches s
    | SendWatches =>
        m = Some (Watches (length (Store.watches s))) /\
        Store.notices s2 = rest /\ Store.watches s2 = Store.watches s
    | _ => m = None /\ Store.notices s2 = rest /\ Store.watches s2 = Store.watches s
    end.
Proof.
  intros [I Htop Hwi] Hwf Hfrom1. unfold process.
  destruct (prelude s I Htop) as (I1 & Htop1 & U & HP).
  destruct (drop_stopped_ext (Store.notices s) s) as (pre & Epre & Hpre & Hrest).
  destruct U as (U1 & U2 & U3 & U4 & U5 & U6 & U7).
  set (s1 := drop_stopped (Store.notices s) s) in *.
  assert (Hg : forall x (s2 : Store),
    Store.stopped s2 = Store.stopped s1 -> Store.shutdown s2 = Store.shutdown s1 ->
    gone x s2 = gone x s).
  { intros x s2 E1 E2. rewrite <- U7. unfold gone. by rewrite E1, E2. }
  destruct sel as [a| |wt|k| | | |]; simpl in Hwf.
  - (* an op *)
    intros E. eexists _, None, pre, (Store.notices s1). split; [exact E|].
    assert (I2 : Inv0 (if ver (Store.state s) <? Op.Seqn a
                       then Store.set_todo (heap_Push (Store.todo s1) a) s1 else s1)).
    { destruct (ver (Store.state s) <? Op.Seqn a) eqn:Hlt; [|done].
      apply Z.ltb_lt in Hlt. pose proof (inv_ver s I). unfold int64 in Hwf.
      destruct I1 as [J1 J2 J3 J4]. constructor; simpl; try done.
      apply heap_Push_Forall; [done | lia]. }
    destruct (ver (Store.state s) <? Op.Seqn a); split_and!; try done;
      try (intros x; by apply Hg); try (intros n; simpl; by rewrite U5).
    simpl. by rewrite U2.
  - discriminate.
  - (* a watch to register *)
    destruct Hwf as (Hfrom & Hto & Hid). specialize (Hfrom1 wt eq_refl).
    assert (Hres : exists s'' ws' es,
      (let '(n, ws) := if Watch.from wt <? Store.head s1
                       then (add64 (Watch.from wt) 1, []) else (Watch.from wt, [wt]) in
       backfill (Z.to_nat (ver (Store.state s) - n + 1)) n (ver (Store.state s)) ws s1)
      = Some (s'', ws') /\ unchanged s1 s'' /\
      (ws' = [] \/ ws' = [wt]) /\
      Store.notices s'' = Store.notices s1 ++ map (mkNotice wt) es /\
      (Watch.from wt < Store.head s -> ws' = [] /\ es = []) /\
      ascending (Watch.from wt - 1) (map Event.Seqn es) /\
      Forall (fun e => Event.Seqn e <= ver (Store.state s) /\
                       noticed e s wt = true /\
                       Store.log s !! Event.Seqn e = Some e) es /\
      (Store.head s <= Watch.from wt ->
       forall e, Watch.from wt <= Event.Seqn e <= ver (Store.state s) ->
         Store.log s !! Event.Seqn e = Some e -> noticed e s wt = true ->
         In e es) /\
      (Store.head s <= Watch.from wt -> ver (Store.state s) < Watch.from wt ->
       ws' = [wt])).
    { destruct (Watch.from wt <? Store.head s1) eqn:Hlt.
      - exists s1, [], []. rewrite backfill_nil, app_nil_r.
        apply Z.ltb_lt in Hlt. rewrite U4 in Hlt.
        split_and!; try done; try apply unchanged_refl; try (by left);
          try constructor; try lia.
      - apply Z.ltb_ge in Hlt. rewrite <- U3.
        destruct (backfill_ext wt (Z.to_nat (ver (Store.state s1) - Watch.from wt + 1))
          (Watch.from wt) [wt] s1 I1 Htop1 Hfrom ltac:(lia) Hfrom1 eq_refl Hto
          ltac:(by right))
          as (s'' & ws' & es & E & U' & W' & N' & Asc & Fa & _ & Ex & Hsame).
        exists s'', ws', es. split; [exact E|]. rewrite U4 in Hlt.
        rewrite U3 in Fa, Ex, Hsame |- *. split_and!; try done.
        + lia.
        + eapply Forall_impl; [exact Fa|]. simpl. intros x (X1 & X2 & X3).
          rewrite U5 in X3. rewrite (noticed_gone_eq x s s1 wt U7) in X2. done.
        + intros _ e He Hl Hno. apply Ex; try done.
          * by rewrite U5.
          * by rewrite (noticed_gone_eq e s s1 wt U7). }
    destruct Hres as (s'' & ws' & es & E & U' & W' & N' & Z' & Asc & Fa & Ex & Hsame).
    destruct (if Watch.from wt <? Store.head s1
              then (add64 (Watch.from wt) 1, []) else (Watch.from wt, [wt])) as [n ws].
    rewrite E. intros E'. eexists _, None, pre, (Store.notices s1). split; [exact E'|].
    assert (I2 : Inv0 s'') by (by eapply Inv0_unchanged).
    destruct U' as (V1 & V2 & V3 & V4 & V5 & V6 & V7).
    split_and!; simpl; try done.
    + destruct I2 as [J1 J2 J3 J4]. by constructor.
    + by rewrite V3, V5, U3, U5.
    + by rewrite V3.
    + by rewrite V6.
    + intros x. change (gone x s'' = gone x s). by rewrite V7.
    + by rewrite V2.
    + by rewrite V4.
    + intros x. by rewrite V5, U5.
    + exists es, ws'. rewrite V1, U1. by split_and!.
  - (* a trim *)
    pose proof (clean_spec (Z.to_nat (k - Store.head s1 + 1)) k s1
      (inv_head s1 I1) (proj2 Hwf) eq_refl) as Hc.
    destruct (decide (Store.head s1 <= k /\ k = max_int64)) as [Hd|Hd].
    { rewrite Hc. discriminate. }
    destruct Hc as (s2 & E & C1 & C2 & C3 & C4 & C5 & C6 & C7 & C8 & C9).
    rewrite E. intros E'. eexists _, None, pre, (Store.notices s1). split; [exact E'|].
    pose proof (inv_head s1 I1) as Hh. unfold int64 in Hh, Hwf.
    split_and!; try done.
    + constructor; rewrite ?C4, ?C5, ?C1; try apply I1.
      * intros n e. rewrite C2. case_decide; [done|]. apply I1.
      * unfold int64. lia.
    + rewrite C5, C2. intros Hm. rewrite decide_False by lia. auto.
    + by rewrite C5.
    + by rewrite C9.
    + intros x. by apply Hg.
    + by rewrite C4.
    + by rewrite C1, U4.
    + intros n. by rewrite C2, U4, U5.
    + by rewrite C3.
  - intros E. eexists _, _, pre, (Store.notices s1). split; [exact E|].
    split_and!; try done; try (intros n; by rewrite U5).
  - intros E. eexists _, _, pre, (Store.notices s1). split; [exact E|].
    split_and!; try done; try (intros n; by rewrite U5). by rewrite U1.
  - (* a notice to deliver *)
    destruct (Store.notices s1) as [|n ns] eqn:En; [discriminate|].
    intros E. eexists _, _, pre, (n :: ns). split; [exact E|].
    split_and!; try done; try (intros x; by apply Hg);
      try (intros x; simpl; by rewrite U5).
    + destruct I1 as [J1 J2 J3 J4]. by constructor.
    + by exists n.
  - intros E. eexists _, None, pre, (Store.notices s1). split; [exact E|].
    split_and!; try done; try (intros n; by rewrite U5).
Qed.

End SelectMore.
Section FinishMore.

Lemma NoDup_map_filter {A B} (f : A -> B) (p : A -> bool) (l : list A) :
  NoDup (map f l) -> NoDup (map f (List.filter p l)).
Proof.
  induction l as [|x l IH]; simpl; [done|].
  intros H. apply NoDup_cons in H as [H1 H2]. destruct (p x); simpl; [|by apply IH].
  apply NoDup_cons. split; [|by apply IH].
  intros Hin. apply H1. apply list_elem_of_fmap in Hin as (y & Hy & Hin).
  apply list_elem_of_fmap. exists y. split; [done|].
  apply list_elem_of_In in Hin. apply List.filter_In in Hin as [Hin _].
  by apply list_elem_of_In.
Qed.

Lemma live_ok_filter p s s' :
  Store.watches s' = List.filter p (Store.watches s) -> live_ok s -> live_ok s'.
Proof.
  intros E [H1 H2]. unfold live_ok. rewrite E. split.
  - by apply NoDup_map_filter.
  - by apply Forall_filter_bool.
Qed.

Lemma seqns_for_app i a b : seqns_for i (a ++ b) = seqns_for i a ++ seqns_for i b.
Proof. unfold seqns_for. by rewrite List.filter_app, map_app. Qed.

(** An event gives a watch object one notice at most. *)
Lemma seqns_for_notify i e ws :
  NoDup (map Watch.id ws) ->
  seqns_for i (map (fun x => mkNotice x e) ws) = []
  \/ seqns_for i (map (fun x => mkNotice x e) ws) = [Event.Seqn e].
Proof.
  unfold seqns_for. induction ws as [|x ws IH]; simpl; [by left|].
  intros H. apply NoDup_cons in H as [H1 H2].
  destruct (bool_decide (Watch.id x = i)) eqn:E; [|by apply IH].
  right. simpl. f_equal. apply bool_decide_eq_true in E.
  assert (Hnone : forall l, ~ Watch.id x ∈ map Watch.id l ->
    map (fun n => Event.Seqn (ev n))
      (List.filter (fun n => bool_decide (Watch.id (w n) = i))
         (map (fun x => mkNotice x e) l)) = []).
  { induction l as [|y l IHl]; simpl; [done|]. intros Hn.
    rewrite bool_decide_eq_false_2.
    - apply IHl. intros Hin. apply Hn. by right.
    - intros Hy. apply Hn. apply elem_of_cons. left. congruence. }
  by apply Hnone.
Qed.

Lemma seqns_for_one wt i es :
  seqns_for i (map (mkNotice wt) es)
  = if bool_decide (Watch.id wt = i) then map Event.Seqn es else [].
Proof.
  unfold seqns_for. induction es as [|e es IH]; simpl.
  - by destruct (bool_decide _).
  - destruct (bool_decide (Watch.id wt = i)); simpl; [by rewrite IH | done].
Qed.

Lemma last_In_cons {A} (l : list A) x d : In (List.last (x :: l) d) (x :: l).
Proof.
  revert x. induction l as [|y l IH]; intros x; [by left|].
  right. change (In (List.last (y :: l) d) (y :: l)). apply IH.
Qed.

Lemma last_map_default {A B} (f : A -> B) (l : list A) d :
  List.last (map f l) (f d) = f (List.last l d).
Proof.
  induction l as [|x l IH]; [done|].
  destruct l as [|y l]; [done|].
  change (List.last (map f (y :: l)) (f d) = f (List.last (y :: l) d)). apply IH.
Qed.

Lemma last_Forall_le (l : list Z) lo v :
  Forall (fun x => x <= v) l -> lo <= v -> List.last l lo <= v.
Proof.
  revert lo. induction l as [|x l IH]; intros lo; [done|].
  intros H Hlo. apply Forall_cons in H as [H1 H2].
  destruct l as [|y l]; [done|].
  change (List.last (y :: l) lo <= v). by apply IH.
Qed.

Lemma ascending_app_bound lo v l1 l2 :
  ascending lo l1 -> Forall (fun x => x <= v) l1 -> lo <= v ->
  ascending v l2 -> ascending lo (l1 ++ l2).
Proof.
  intros H1 H2 H3 H4. apply ascending_app; [done|].
  apply (ascending_weaken v); [by apply last_Forall_le | done].
Qed.

Lemma ascending_Forall_gt lo l : ascending lo l -> Forall (fun x => lo < x) l.
Proof.
  revert lo. induction l as [|x l IH]; intros lo; [constructor|].
  intros [H1 H2]. constructor; [done|].
  eapply Forall_impl; [apply IH, H2|]. simpl. lia.
Qed.

Lemma ascending_last_bound lo l v :
  ascending lo l -> List.last l lo <= v -> Forall (fun x => x <= v) l.
Proof.
  revert lo. induction l as [|x l IH]; intros lo; [constructor|].
  intros [H1 H2] H3.
  assert (H4 : List.last l x <= v).
  { destruct l as [|y l]; [done|]. by rewrite (last_cons_default l y x lo). }
  constructor; [|by apply (IH x)].
  pose proof (ascending_last_le _ _ H2). lia.
Qed.

(** The events applied in an iteration and the notices enqueued for
    them.  The notices are for watches that the event is to be seen by,
    each watch object gets them in ascending order above the version, and
    without a flush the log holds every event applied. *)
Lemma finish_ext flush m s s' o :
  Inv0 s ->
  (ver (Store.state s) = max_int64 -> is_Some (Store.log s !! max_int64)) ->
  live_ok s ->
  finish flush (ver (Store.state s)) (root (Store.state s)) m s = Next s' o ->
  live_ok s' /\
  (exists added,
     Store.notices s' = Store.notices s ++ added /\
     Forall (fun n => noticed (ev n) s (w n) = true /\ In (ev n) (applied o)) added /\
     forall i, ascending (ver (Store.state s)) (seqns_for i added)
               /\ Forall (fun x => x <= ver (Store.state s')) (seqns_for i added)) /\
  (flush = false ->
   forall e, In e (applied o) -> Store.log s' !! Event.Seqn e = Some e).
Proof.
  intros I Htop Hlive. destruct flush.
  - (* a flush *)
    intros E.
    destruct (finish_spec true m s s' o I Htop E)
      as (I' & _ & _ & _ & _ & Asc & V & _ & _ & FL).
    destruct (FL eq_refl) as (_ & _ & N & W). split; [by eapply live_ok_filter|].
    split; [|done]. eexists. split; [exact N|].
    set (e := List.last (applied o) Event.zero) in *.
    destruct (applied o) as [|e0 ap] eqn:Eap.
    + (* nothing applied: the zero event is seen by no watch *)
      assert (Hnone : List.filter (noticed e s) (Store.watches s) = []).
      { apply filter_all_false. intros x Hx. destruct Hlive as [_ Hf].
        rewrite List.Forall_forall in Hf. specialize (Hf x Hx).
        destruct (noticed e s x) eqn:Hno; [|done].
        apply noticed_true in Hno as (_ & Hno & _). subst e.
        vm_compute Event.zero in Hno. simpl in Hno. lia. }
      rewrite Hnone. simpl. split; [constructor|]. intros i. by split; [|constructor].
    + assert (Hin : In e (e0 :: ap)).
      { subst e. rewrite (last_cons_default ap e0 Event.zero e0).
        apply last_In_cons. }
      assert (Hseq : Event.Seqn e = ver (Store.state s')).
      { rewrite V. subst e. simpl map.
        rewrite (last_cons_default (map Event.Seqn ap) (Event.Seqn e0)
                   (ver (Store.state s)) (Event.Seqn Event.zero)).
        change (Event.Seqn e0 :: map Event.Seqn ap) with (map Event.Seqn (e0 :: ap)).
        by rewrite last_map_default. }
      pose proof (ascending_last_le _ _ Asc) as Hle. rewrite <- V in Hle.
      assert (Hlt : ver (Store.state s) < ver (Store.state s')).
      { rewrite <- Hseq. pose proof (ascending_Forall_gt _ _ Asc) as Hall.
        rewrite List.Forall_forall in Hall. apply Hall. apply in_map. exact Hin. }
      split.
      * apply Forall_map. simpl. apply List.Forall_forall. intros x Hx.
        apply List.filter_In in Hx as [_ Hx]. done.
      * intros i.
        destruct (seqns_for_notify i e (List.filter (noticed e s) (Store.watches s)))
          as [-> | ->].
        -- apply NoDup_map_filter, Hlive.
        -- by split; [|constructor].
        -- split; [simpl; split; [lia | done]|]. apply Forall_singleton. lia.
  - (* no flush *)
    unfold finish.
    set (l0 := mkLocals (ver (Store.state s)) (root (Store.state s)) Event.zero []).
    assert (Hv : 0 <= l_ver l0 <= max_int64) by exact (inv_ver s I).
    pose proof (drain_invariant false (fun l s1 =>
      l_ver l = ver (Store.state s1) /\ live_ok s1 /\
      (forall x, gone x s1 = gone x s) /\ ver (Store.state s) <= l_ver l /\
      (exists added,
         Store.notices s1 = Store.notices s ++ added /\
         Forall (fun n => noticed (ev n) s (w n) = true /\ In (ev n) (l_applied l))
           added /\
         forall i, ascending (ver (Store.state s)) (seqns_for i added)
                   /\ Forall (fun x => x <= l_ver l) (seqns_for i added)) /\
      (forall e, In e (l_applied l) ->
         Store.log s1 !! Event.Seqn e = Some e /\ Event.Seqn e <= l_ver l))) as HD.
    specialize (HD (fun t q' v vals e ap s1 H _ _ _ => H)).
    assert (Hstep : forall (t : Op) (q' : list Op) (v : Z) (vals : node) (e : Event)
        (ap : list Event) (s1 : Store) (values : node) (evt : Event),
      (v = ver (Store.state s1) /\ live_ok s1 /\
       (forall x, gone x s1 = gone x s) /\ ver (Store.state s) <= v /\
       (exists added,
          Store.notices s1 = Store.notices s ++ added /\
          Forall (fun n => noticed (ev n) s (w n) = true /\ In (ev n) ap) added /\
          forall i, ascending (ver (Store.state s)) (seqns_for i added)
                    /\ Forall (fun x => x <= v) (seqns_for i added)) /\
       (forall e, In e ap ->
          Store.log s1 !! Event.Seqn e = Some e /\ Event.Seqn e <= v)) ->
      Store.todo s1 = t :: q' -> 0 <= v < Op.Seqn t -> Op.Seqn t <= max_int64 ->
      false = true \/ Op.Seqn t = v + 1 ->
      apply vals (Op.Seqn t) (Op.Mut t) = (values, evt) ->
      Event.Seqn evt = Op.Seqn t ->
      Event.Seqn evt = ver (Store.state (popped_applied false q' values evt s1)) /\
      live_ok (popped_applied false q' values evt s1) /\
      (forall x, gone x (popped_applied false q' values evt s1) = gone x s) /\
      ver (Store.state s) <= Event.Seqn evt /\
      (exists added,
         Store.notices (popped_applied false q' values evt s1)
         = Store.notices s ++ added /\
         Forall (fun n => noticed (ev n) s (w n) = true /\ In (ev n) (ap ++ [evt]))
           added /\
         forall i, ascending (ver (Store.state s)) (seqns_for i added)
                   /\ Forall (fun x => x <= Event.Seqn evt) (seqns_for i added)) /\
      (forall e, In e (ap ++ [evt]) ->
         Store.log (popped_applied false q' values evt s1) !! Event.Seqn e = Some e
         /\ Event.Seqn e <= Event.Seqn evt)).
    { intros t q' v vals e ap s1 values evt
        (Q1 & Q2 & Q3 & Q4 & (added & N & Fa & Or) & L) Ht Hr Hm _ Ha Hs.
      unfold popped_applied.
      set (sA := Store.set_state (mkState (Event.Seqn evt) values) (Store.set_todo q' s1)).
      destruct (log_and_notify_spec evt sA) as (W' & N' & L' & _ & S' & _ & _ & G').
      assert (GA : forall x, gone x sA = gone x s) by (intros x; apply Q3).
      split_and!.
      - by rewrite S'.
      - eapply live_ok_filter; [exact W'|]. exact Q2.
      - intros x. by rewrite G'.
      - lia.
      - exists (added ++ map (fun x => mkNotice x evt)
                  (List.filter (noticed evt sA) (Store.watches sA))).
        split; [rewrite N'; simpl; by rewrite N, app_assoc|]. split.
        + apply Forall_app. split.
          * eapply Forall_impl; [exact Fa|]. simpl. intros n [? ?].
            split; [done|]. apply in_or_app. by left.
          * apply Forall_map. simpl. apply List.Forall_forall. intros x Hx.
            apply List.filter_In in Hx as [_ Hx].
            rewrite (noticed_gone_eq evt s sA x GA) in Hx. split; [done|].
            apply in_or_app. right. by left.
        + intros i. rewrite seqns_for_app. destruct (Or i) as [O1 O2].
          destruct (seqns_for_notify i evt
                      (List.filter (noticed evt sA) (Store.watches sA)))
            as [-> | ->].
          * apply NoDup_map_filter, Q2.
          * rewrite app_nil_r. split; [done|].
            eapply Forall_impl; [exact O2|]. simpl. lia.
          * split.
            -- apply (ascending_app_bound _ v); try done. simpl. split; [lia | done].
            -- apply Forall_app. split; [|apply Forall_singleton; lia].
               eapply Forall_impl; [exact O2|]. simpl. lia.
      - intros e' He'. rewrite L'. simpl. apply in_app_or in He' as [He'|[<-|[]]].
        + destruct (L e' He') as [L1 L2]. split; [|lia].
          rewrite lookup_insert_ne by lia. done.
        + by rewrite lookup_insert_eq. }
    specialize (HD Hstep).
    specialize (HD (Store.todo s) l0 s eq_refl Hv (inv_todo s I)).
    destruct HD as (D1 & D2 & D3 & D4 & (added & N & Fa & Or) & L).
    { split_and!; try done; try (simpl; lia); try (by intros e []).
      exists []. rewrite app_nil_r. split; [done|]. split; [constructor|].
      intros i. by split; [|constructor]. }
    destruct (drain false (Store.todo s) l0 s) as [l s1]. simpl in *.
    intros [= <- <-]. simpl. split; [done|]. split.
    + exists added. split; [done|]. split; [done|]. intros i.
      rewrite <- D1. apply Or.
    + intros _ e He. by apply L.
Qed.

End FinishMore.
Section StepMore.

Lemma seqns_for_cons i n ns :
  seqns_for i (n :: ns)
  = (if bool_decide (Watch.id (w n) = i) then [Event.Seqn (ev n)] else [])
    ++ seqns_for i ns.
Proof. unfold seqns_for. simpl. by destruct (bool_decide _). Qed.

Lemma seqns_for_none i ns :
  Forall (fun n => Watch.id (w n) <> i) ns -> seqns_for i ns = [].
Proof.
  induction 1 as [|n ns H _ IH]; [done|].
  rewrite seqns_for_cons, IH. by rewrite bool_decide_eq_false_2.
Qed.

Lemma delivered_to_one i o :
  delivered_to i [o]
  = match sent o with
    | Some (Notice x e) => if decide (Watch.id x = i) then [e] else []
    | _ => []
    end.
Proof.
  unfold delivered_to. simpl. destruct (sent o) as [[| |x e]|]; try done.
  by destruct (decide _).
Qed.

Lemma ascending_drop_middle lo (a b c : list Z) :
  ascending lo (a ++ b ++ c) -> ascending lo (a ++ c).
Proof.
  revert lo. induction a as [|x a IH]; intros lo; simpl.
  - revert lo. induction b as [|y b IHb]; intros lo; [done|].
    simpl. intros [H1 H2]. apply IHb. apply (ascending_weaken y); [lia | done].
  - intros [H1 H2]. split; [done | by apply IH].
Qed.

Lemma ordered_drop i D pre rest v :
  ascending 0 (D ++ seqns_for i (pre ++ rest)) /\
  Forall (fun x => x <= v) (D ++ seqns_for i (pre ++ rest)) ->
  ascending 0 (D ++ seqns_for i rest) /\
  Forall (fun x => x <= v) (D ++ seqns_for i rest).
Proof.
  rewrite seqns_for_app. intros [H1 H2]. split.
  - by eapply ascending_drop_middle.
  - apply Forall_app in H2 as [H2 H3]. apply Forall_app in H3 as [_ H3].
    by apply Forall_app.
Qed.

Lemma idle_finish m s s2 s' o :
  Inv0 s2 -> drained s ->
  Store.todo s2 = Store.todo s -> Store.state s2 = Store.state s ->
  finish false (ver (Store.state s)) (root (Store.state s)) m s2 = Next s' o ->
  s' = s2 /\ o = mkOutput [] m.
Proof.
  intros I Hd T S. rewrite <- S. rewrite finish_idle; [by intros [= <- <-] | done |].
  unfold drained. by rewrite T, S.
Qed.

(** What an iteration keeps, beyond [process_spec]. *)
Lemma process_ext s sel s' o :
  settled s -> wf_selected s sel ->
  (forall wt, sel = RecvWatch wt ->
     1 <= Watch.from wt /\ watch_inv (fun x => Watch.id x <> Watch.id wt) s) ->
  process s sel = Next s' o ->
  settled s' /\
  (forall x e, sent o = Some (Notice x e) ->
     In (mkNotice x e) (Store.notices s) /\ gone x s = false) /\
  (forall i D, ordered i D s ->
     (forall wt, sel = RecvWatch wt -> Watch.id wt = i -> D = []) ->
     ordered i (D ++ map Event.Seqn (delivered_to i [o])) s') /\
  (sel <> RecvFlush ->
   forall e, In e (applied o) -> Store.log s' !! Event.Seqn e = Some e) /\
  (sel = RecvFlush -> ver (Store.state s') < max_int64 -> Store.todo s' = []).
Proof.
  intros [I Hd Hl Hw] Hwf Hfresh E.
  destruct (process_spec s sel s' o I Hwf E) as (I' & _ & Asc & V & _).
  pose proof (ascending_last_le _ _ Asc) as Hmono. rewrite <- V in Hmono.
  destruct (select_ext s sel s' o I Hwf (fun wt H => proj1 (Hfresh wt H)) E)
    as (s2 & m & pre & rest & F & I2 & T2 & S2 & A2 & G2 & Ns & Hpre & Hrest
        & Td & _ & _ & Hsel).
  assert (Hrest_in : forall n, In n rest -> In n (Store.notices s)).
  { intros n Hn. rewrite Ns. apply in_or_app. by right. }
  assert (Hwrest : Forall in_window rest).
  { rewrite Ns in Hw. by apply Forall_app in Hw as [_ Hw]. }
  assert (Hs2 : live_ok s2 /\ Forall in_window (Store.notices s2) /\
    (forall x e, m = Some (Notice x e) ->
       In (mkNotice x e) (Store.notices s) /\ gone x s = false) /\
    (forall i D, ordered i D s ->
       (forall wt, sel = RecvWatch wt -> Watch.id wt = i -> D = []) ->
       let D2 := D ++ map Event.Seqn
                       (match m with
                        | Some (Notice x e) => if decide (Watch.id x = i) then [e] else []
                        | _ => []
                        end) in
       ascending 0 (D2 ++ seqns_for i (Store.notices s2)) /\
       Forall (fun x => x <= ver (Store.state s)) (D2 ++ seqns_for i (Store.notices s2)))).
  { assert (Hplain : Store.notices s2 = rest -> Store.watches s2 = Store.watches s ->
      (forall x e, m <> Some (Notice x e)) ->
      live_ok s2 /\ Forall in_window (Store.notices s2) /\
      (forall x e, m = Some (Notice x e) ->
         In (mkNotice x e) (Store.notices s) /\ gone x s = false) /\
      (forall i D, ordered i D s ->
         (forall wt, sel = RecvWatch wt -> Watch.id wt = i -> D = []) ->
         let D2 := D ++ map Event.Seqn
                         (match m with
                          | Some (Notice x e) => if decide (Watch.id x = i) then [e] else []
                          | _ => []
                          end) in
         ascending 0 (D2 ++ seqns_for i (Store.notices s2)) /\
         Forall (fun x => x <= ver (Store.state s))
           (D2 ++ seqns_for i (Store.notices s2)))).
    { intros N W Hm. split_and!.
      - unfold live_ok. by rewrite W.
      - by rewrite N.
      - intros x e Hx. by destruct (Hm x e).
      - intros i D Ho _ D2.
        assert (D2 = D) as ->.
        { subst D2. destruct m as [[| |x e]|]; try by rewrite app_nil_r.
          by destruct (Hm x e). }
        rewrite N. apply (ordered_drop i D pre rest). rewrite <- Ns. exact Ho. }
    destruct sel as [a| |wt|k| | | |]; try discriminate.
    - destruct Hsel as (-> & N & W). by apply Hplain.
    - (* a watch to register *)
      destruct Hsel as (-> & es & ws' & N & W & Hws & _ & Easc & Fa & _).
      destruct (Hfresh wt eq_refl) as (Hf1 & Hfw & Hfn). split_and!.
      + destruct Hl as [L1 L2]. unfold live_ok. rewrite W.
        destruct Hws as [-> | ->]; rewrite ?app_nil_r; [done|]. split.
        * rewrite map_app. simpl. apply NoDup_app. split_and!; [done| |apply NoDup_singleton].
          intros x Hx Hx'. apply list_elem_of_singleton in Hx'. subst x.
          apply list_elem_of_fmap in Hx as (y & Hy & Hin).
          rewrite List.Forall_forall in Hfw. apply list_elem_of_In in Hin.
          by apply (Hfw y Hin).
        * apply Forall_app. split; [done|]. by apply Forall_singleton.
      + rewrite N. apply Forall_app. split; [done|]. apply Forall_map.
        eapply Forall_impl; [exact Fa|]. simpl. intros e (_ & Hno & _).
        by apply noticed_in_window in Hno.
      + done.
      + intros i D Ho HD D2. subst D2. simpl. rewrite app_nil_r.
        rewrite N, seqns_for_app, seqns_for_one.
        destruct (ordered_drop i D pre rest (ver (Store.state s))) as [O1 O2].
        { rewrite <- Ns. exact Ho. }
        destruct (bool_decide (Watch.id wt = i)) eqn:Ei; [|by rewrite app_nil_r].
        apply bool_decide_eq_true in Ei. rewrite (HD wt eq_refl Ei).
        rewrite seqns_for_none; simpl.
        * split.
          -- apply (ascending_weaken (Watch.from wt - 1)); [lia | done].
          -- apply Forall_map. eapply Forall_impl; [exact Fa|]. simpl. by intros e (? & _).
        * rewrite Ns in Hfn. apply Forall_app in Hfn as [_ Hfn].
          eapply Forall_impl; [exact Hfn|]. simpl. intros n Hn. by rewrite <- Ei.
    - destruct Hsel as (-> & N & W). by apply Hplain.
    - destruct Hsel as (-> & N & W). by apply Hplain.
    - destruct Hsel as (-> & N & W). by apply Hplain.
    - (* a notice to deliver *)
      destruct Hsel as (W & n & Hn & ->). split_and!.
      + unfold live_ok. by rewrite W.
      + rewrite Hn in Hwrest. by apply Forall_cons in Hwrest as [_ ?].
      + intros x e [= <- <-]. rewrite Hn in Hrest. split; [|done].
        apply Hrest_in. rewrite Hn. left. by destruct n.
      + intros i D Ho _ D2. subst D2.
        destruct (ordered_drop i D pre rest (ver (Store.state s))) as [O1 O2].
        { rewrite <- Ns. exact Ho. }
        rewrite Hn, seqns_for_cons in O1, O2.
        assert (Heq : map Event.Seqn (if decide (Watch.id (w n) = i) then [ev n] else [])
                      = if bool_decide (Watch.id (w n) = i) then [Event.Seqn (ev n)] else []).
        { destruct (decide (Watch.id (w n) = i)).
          - by rewrite bool_decide_eq_true_2.
          - by rewrite bool_decide_eq_false_2. }
        rewrite Heq, <- app_assoc. done.
    - destruct Hsel as (-> & N & W). by apply Hplain. }
  destruct Hs2 as (Hl2 & Hw2 & Hm2 & Ho2).
  assert (Hsorted : sorted (Store.todo s2)).
  { rewrite Td. destruct Hd as [Hd _]. destruct sel; try done.
    destruct (ver (Store.state s) <? Op.Seqn a); [by apply heap_Push_sorted | done]. }
  rewrite <- S2 in F.
  destruct (finish_spec _ m s2 s' o I2 T2 F) as (_ & _ & M' & _).
  destruct (finish_ext _ m s2 s' o I2 T2 Hl2 F) as (Hl' & (added & N' & Fa' & Or') & Hlog).
  destruct (finish_drained _ m s2 s' o I2 T2 Hsorted F) as (Hd' & Hfl).
  split_and!.
  - constructor; try done. rewrite N'. apply Forall_app. split; [done|].
    eapply Forall_impl; [exact Fa'|]. simpl. intros n [Hno _].
    apply noticed_in_window in Hno. by destruct n.
  - intros x e Hx. apply Hm2. by rewrite <- M'.
  - intros i D Ho HD. specialize (Ho2 i D Ho HD). simpl in Ho2.
    rewrite delivered_to_one, M'. destruct Ho2 as [O1 O2].
    destruct (Or' i) as [O3 O4]. rewrite S2 in O3.
    unfold ordered. rewrite N', seqns_for_app, app_assoc. split.
    + apply (ascending_app_bound _ (ver (Store.state s))); try done.
      exact (proj1 (inv_ver s (inv_inv0 s I))).
    + apply Forall_app. split; [|done].
      eapply Forall_impl; [exact O2|]. simpl. lia.
  - intros Hnf e He. apply Hlog; [by destruct sel | done].
  - intros -> Hlt. by apply Hfl.
Qed.

End StepMore.
Section RunMore.

Lemma gone_id x y s : Watch.id x = Watch.id y -> gone x s = gone y s.
Proof. intros H. unfold gone. by rewrite H. Qed.

Lemma sent_notices_one o :
  sent_notices [o]
  = match sent o with
    | Some (Notice x e) => [mkNotice x e]
    | _ => []
    end.
Proof. unfold sent_notices. simpl. by destruct (sent o) as [[| |x e]|]. Qed.

Lemma sent_notices_app os os' :
  sent_notices (os ++ os') = sent_notices os ++ sent_notices os'.
Proof. apply omap_app. Qed.

Lemma settled_Stop wt s : settled s -> settled (Stop wt s).
Proof. intros [I D L W]. constructor; try done. by apply Inv_Stop. Qed.

Lemma settled_set_allocated s :
  settled s -> settled (Store.set_allocated (S (Store.allocated s)) s).
Proof. intros [I D L W]. constructor; try done. by apply Inv_set_allocated. Qed.

Lemma gone_Stop x wt s : gone x s = true -> gone x (Stop wt s) = true.
Proof.
  unfold gone, Stop. simpl. intros H. apply orb_true_iff in H as [H|H].
  - by rewrite H.
  - apply bool_decide_eq_true in H. apply orb_true_iff. right.
    apply bool_decide_eq_true. apply elem_of_union. by right.
Qed.

Lemma settled_New : settled New.
Proof.
  constructor.
  - apply Inv_New.
  - split; simpl; [done | constructor].
  - split; simpl; constructor.
  - constructor.
Qed.

Lemma step_more_refl s : settled s -> step_more s s [].
Proof.
  intros H. split; [done|]. split; [constructor|]. split; [done|]. split.
  - intros i D Ho HD. simpl. rewrite app_nil_r. done.
  - intros wt _ Hw. split; [done | constructor].
Qed.

Lemma step_more_trans s1 s2 s3 os os' :
  (Store.allocated s1 <= Store.allocated s2)%nat ->
  step_more s1 s2 os -> step_more s2 s3 os' -> step_more s1 s3 (os ++ os').
Proof.
  intros Ha (S2 & W2 & G2 & O2 & R2) (S3 & W3 & G3 & O3 & R3).
  split; [done|]. split; [|split; [|split]].
  - rewrite sent_notices_app. by apply Forall_app.
  - intros x Hx. destruct (G2 x Hx) as [Hx2 D2]. destruct (G3 x Hx2) as [Hx3 D3].
    split; [done|]. by rewrite delivered_to_app, D2, D3.
  - intros i D Ho HD. destruct (O2 i D Ho HD) as [Ho2 HD2].
    destruct (O3 i _ Ho2 HD2) as [Ho3 HD3].
    rewrite delivered_to_app, map_app, app_assoc. done.
  - intros wt Hid Hw. destruct (R2 wt Hid Hw) as [Hw2 F2].
    destruct (R3 wt ltac:(lia) Hw2) as [Hw3 F3].
    split; [done|]. rewrite sent_notices_app. by apply Forall_app.
Qed.

(** One iteration, as a step of a history.  [a0] is the number of watch
    objects made before the step; a watch that is registered is the
    object [a0], made for this step. *)
Lemma process_more s sel s' o a0 :
  settled s -> wf_selected s sel ->
  (a0 <= Store.allocated s)%nat ->
  watch_inv (fun x => (Watch.id x < a0)%nat) s ->
  (forall wt, sel = RecvWatch wt -> 1 <= Watch.from wt /\ Watch.id wt = a0) ->
  process s sel = Next s' o ->
  settled s' /\
  Forall in_window (sent_notices [o]) /\
  (forall x, gone x s = true ->
     gone x s' = true /\ delivered_to (Watch.id x) [o] = []) /\
  (forall i D, ordered i D s -> ((a0 <= i)%nat -> D = []) ->
     ordered i (D ++ map Event.Seqn (delivered_to i [o])) s' /\
     ((a0 <= i)%nat -> D ++ map Event.Seqn (delivered_to i [o]) = [])) /\
  (forall wt, (Watch.id wt < a0)%nat ->
     watch_inv (fun x => Watch.id x = Watch.id wt -> x = wt) s ->
     watch_inv (fun x => Watch.id x = Watch.id wt -> x = wt) s' /\
     Forall (fun n => Watch.id (w n) = Watch.id wt -> w n = wt) (sent_notices [o])).
Proof.
  intros Hs Hwf Ha Hold Hnew E.
  assert (Hfresh : forall wt, sel = RecvWatch wt ->
    1 <= Watch.from wt /\ watch_inv (fun x => Watch.id x <> Watch.id wt) s).
  { intros wt Hsel. destruct (Hnew wt Hsel) as [H1 H2]. split; [done|].
    destruct Hold as [O1 O2].
    split; (eapply Forall_impl; [eassumption|]); simpl; intros; lia. }
  destruct (process_ext s sel s' o Hs Hwf Hfresh E) as (S' & Hsent & Hord & _ & _).
  destruct (process_spec s sel s' o (settled_inv s Hs) Hwf E)
    as (_ & _ & _ & _ & P & G & _).
  assert (Hsent_old : forall x e, sent o = Some (Notice x e) -> (Watch.id x < a0)%nat).
  { intros x e Hx. destruct (Hsent x e Hx) as [Hin _].
    destruct Hold as [_ O2]. rewrite List.Forall_forall in O2. exact (O2 _ Hin). }
  split_and!.
  - done.
  - rewrite sent_notices_one. destruct (sent o) as [[| |x e]|] eqn:Es; try constructor; [|constructor].
    destruct (Hsent x e eq_refl) as [Hin _].
    pose proof (settled_window s Hs) as Hw. rewrite List.Forall_forall in Hw.
    exact (Hw _ Hin).
  - intros x Hx. split; [by rewrite G|]. rewrite delivered_to_one.
    destruct (sent o) as [[| |y e]|] eqn:Es; try done.
    destruct (decide (Watch.id y = Watch.id x)) as [Hy|]; [|done].
    destruct (Hsent y e eq_refl) as [_ Hg]. rewrite (gone_id y x s Hy) in Hg. congruence.
  - intros i D Ho HD. split.
    + apply Hord; [done|]. intros wt Hsel Hi. apply HD.
      destruct (Hnew wt Hsel) as [_ ?]. lia.
    + intros Hi. rewrite (HD Hi). rewrite delivered_to_one.
      destruct (sent o) as [[| |y e]|] eqn:Es; try done.
      destruct (decide (Watch.id y = i)) as [Hy|]; [|done].
      specialize (Hsent_old y e eq_refl). lia.
  - intros wt Hid Hw.
    destruct (P (fun x => Watch.id x = Watch.id wt -> x = wt) Hw) as [Hw' Hs'].
    { intros x Hsel _ Hx. destruct (Hnew x Hsel) as [_ ?]. lia. }
    split; [done|]. rewrite sent_notices_one.
    destruct (sent o) as [[| |y e]|] eqn:Es; try constructor; [|constructor].
    simpl. by apply (Hs' y e).
Qed.

Lemma rendezvous_more s sel c :
  settled s -> wf_selected s sel -> (forall wt, sel <> RecvWatch wt) ->
  rendezvous s sel = Some c -> step_more s (after c) (iterations c).
Proof.
  intros Hs Hwf Hnw E. destruct (rendezvous_spec s sel c E) as (o & Ep & ->).
  destruct (process_spec s sel _ o (settled_inv s Hs) Hwf Ep) as (_ & A & _).
  destruct (process_more s sel (after c) o (Store.allocated s) Hs Hwf)
    as (H1 & H2 & H3 & H4 & H5); try done.
  - destruct (settled_inv s Hs) as [_ _ [W N]].
    split; (eapply Forall_impl; [eassumption|]); simpl; by intros x [_ ?].
  - intros wt Hsel. by destruct (Hnw wt).
  - split_and!; try done. rewrite A. exact H4.
Qed.

Lemma watchOn_more g from to s c :
  settled s -> int64 from -> int64 to ->
  watchOn g from to s = Some c -> step_more s (after c) (iterations c).
Proof.
  intros Hs Hfrom Hto. unfold watchOn.
  destruct (from <? 1) eqn:H1.
  { intros [= <-]. simpl. by apply step_more_refl. }
  apply Z.ltb_ge in H1.
  set (wt := Watch.mk (Store.allocated s) g from to).
  set (s0 := Store.set_allocated (S (Store.allocated s)) s).
  destruct (rendezvous s0 (RecvWatch wt)) as [c0|] eqn:E; [|discriminate].
  destruct (rendezvous_spec _ _ _ E) as (o & Ep & Ei).
  assert (Hs0 : settled s0) by (by apply settled_set_allocated).
  assert (Hwf : wf_selected s0 (RecvWatch wt)) by (simpl; split_and!; try done; lia).
  destruct (process_spec s0 _ _ o (settled_inv s0 Hs0) Hwf Ep) as (_ & A & _).
  destruct (process_more s0 (RecvWatch wt) (after c0) o (Store.allocated s) Hs0 Hwf)
    as (M1 & M2 & M3 & M4 & M5); try done.
  - simpl. lia.
  - destruct (settled_inv s Hs) as [_ _ [W N]].
    split; (eapply Forall_impl; [eassumption|]); simpl; by intros x [_ ?].
  - by intros x [= <-].
  - assert (Hfin : forall s1,
      (s1 = after c0 \/ s1 = Stop wt (after c0)) -> step_more s s1 (iterations c0)).
    { intros s1 Hs1. rewrite Ei.
      assert (Hset : settled s1).
      { destruct Hs1 as [-> | ->]; [done | by apply settled_Stop]. }
      assert (Hal : Store.allocated s1 = S (Store.allocated s)).
      { destruct Hs1 as [-> | ->]; simpl; by rewrite A. }
      assert (Hno : Store.notices s1 = Store.notices (after c0)).
      { by destruct Hs1 as [-> | ->]. }
      assert (Hst : Store.state s1 = Store.state (after c0)).
      { by destruct Hs1 as [-> | ->]. }
      assert (Hwa : Store.watches s1 = Store.watches (after c0)).
      { by destruct Hs1 as [-> | ->]. }
      split_and!; try done.
      - intros x Hx. destruct (M3 x Hx) as [Hx1 Hx2]. split; [|done].
        destruct Hs1 as [-> | ->]; [done | by apply gone_Stop].
      - intros i D Ho HD. destruct (M4 i D Ho HD) as [Ho1 HD1]. split.
        + unfold ordered. rewrite Hno, Hst. exact Ho1.
        + intros Hi. apply HD1. lia.
      - intros x Hid Hw. destruct (M5 x Hid Hw) as [[Hw1 Hw2] Hw3].
        split; [|done]. split; by rewrite ?Hwa, ?Hno. }
    destruct (from <? Store.head (after c0)); intros [= <-]; simpl; apply Hfin; auto.
Qed.

Lemma exec_more a s s' os :
  settled s -> wf_action a -> exec a s = Some (s', os) -> step_more s s' os.
Proof.
  intros Hs Hwf. destruct a as [x|g from|g|seqn|wt|k| | | |]; simpl in *.
  - destruct (rendezvous s (RecvOp x)) as [c|] eqn:E; [|discriminate].
    intros [= <- <-]. by apply (rendezvous_more s (RecvOp x)).
  - unfold NewWatchFrom. destruct (watchOn _ _ _ _) as [c|] eqn:E; [|discriminate].
    intros [= <- <-]. apply (watchOn_more _ _ _ _ _ Hs Hwf int64_max E).
  - unfold NewWatch, NewWatchFrom.
    destruct (watchOn _ _ _ _) as [c|] eqn:E; [|discriminate].
    pose proof (watchOn_more _ _ _ _ _ Hs (int64_wrap64 _) int64_max E) as H.
    destruct (snd (result c)); [discriminate|].
    intros [= <- <-]. done.
  - unfold Wait. destruct (watchOn _ _ _ _) as [c|] eqn:E; [|discriminate].
    pose proof (watchOn_more _ _ _ _ _ Hs Hwf (int64_wrap64 _) E) as H.
    destruct (snd (result c)); intros [= <- <-]; done.
  - intros [= <- <-]. destruct (step_more_refl s Hs) as (H1 & H2 & H3 & H4 & H5).
    split_and!; try done.
    + by apply settled_Stop.
    + intros x Hx. split; [by apply gone_Stop | done].
  - unfold Clean. destruct (rendezvous s (RecvClean k)) as [c|] eqn:E; [|discriminate].
    intros [= <- <-]. by apply (rendezvous_more s (RecvClean k)).
  - unfold Flush. destruct (rendezvous s RecvFlush) as [c|] eqn:E; [|discriminate].
    intros [= <- <-]. by apply (rendezvous_more s RecvFlush).
  - destruct (rendezvous s SendSeqns) as [c|] eqn:E; [|discriminate].
    intros [= <- <-]. by apply (rendezvous_more s SendSeqns).
  - destruct (rendezvous s SendWatches) as [c|] eqn:E; [|discriminate].
    intros [= <- <-]. by apply (rendezvous_more s SendWatches).
  - destruct (rendezvous s SendNotice) as [c|] eqn:E; [|discriminate].
    intros [= <- <-]. by apply (rendezvous_more s SendNotice).
Qed.

(** Every history keeps what a step keeps. *)
Lemma run_more acts : forall s s' os,
  settled s -> Forall wf_action acts -> run acts s = Some (s', os) ->
  step_more s s' os.
Proof.
  induction acts as [|a acts IH]; intros s s' os Hs Hwf.
  - intros [= <- <-]. by apply step_more_refl.
  - apply Forall_cons in Hwf as [Ha Hacts]. intros E.
    apply run_cons in E as (s1 & os1 & os2 & E1 & E2 & E3). simpl in *. subst os.
    pose proof (exec_more a s s1 os1 Hs Ha E1) as H1.
    destruct (exec_spec a s s1 os1 (settled_inv s Hs) Ha E1) as [(_ & Hal & _) _].
    eapply step_more_trans; [exact Hal | exact H1|]. apply IH; try done. apply H1.
Qed.

Lemma reachable_settled s : reachable s -> settled s.
Proof.
  intros (acts & os & Hwf & E).
  apply (run_more acts New s os settled_New Hwf E).
Qed.

End RunMore.
Section Facts.

Lemma finish_total flush v vals m s : exists s' o, finish flush v vals m s = Next s' o.
Proof. unfold finish. destruct (drain _ _ _ _) as [l s1]. by eexists _, _. Qed.

Lemma process_total s sel :
  match sel with
  | RecvOp _ | SendSeqns | SendWatches | RecvFlush => True
  | _ => False
  end ->
  exists s' o, process s sel = Next s' o.
Proof. destruct sel; try done; intros _; unfold process; apply finish_total. Qed.

Lemma process_RecvClean_total s k :
  Inv s -> int64 k -> k < max_int64 -> exists s' o, process s (RecvClean k) = Next s' o.
Proof.
  intros [I Htop _] Hk Hlt. unfold process.
  destruct (prelude s I Htop) as (I1 & _).
  pose proof (clean_spec _ k _ (inv_head _ I1) (proj2 Hk) eq_refl) as Hc.
  rewrite decide_False in Hc by lia. destruct Hc as (s2 & -> & _). apply finish_total.
Qed.

Lemma drain_prefix flush q l s :
  Store.todo s = q -> 0 <= l_ver l <= max_int64 ->
  Forall (fun t => 1 <= Op.Seqn t <= max_int64) q ->
  exists rest, l_applied (fst (drain flush q l s)) = l_applied l ++ rest.
Proof.
  intros Ht Hv Hq.
  apply (drain_invariant flush
    (fun l' _ => exists rest, l_applied l' = l_applied l ++ rest)
    (fun t q' v vals e ap s H _ _ _ => H)); try done.
  - intros t q' v vals e ap s0 values evt (rest & Hr) _ _ _ _ _ _. simpl in *.
    exists (rest ++ [evt]). by rewrite Hr, app_assoc.
  - exists []. by rewrite app_nil_r.
Qed.

Lemma heap_Push_front q a :
  Forall (fun t => Op.Seqn a < Op.Seqn t) q -> heap_Push q a = a :: q.
Proof.
  destruct q as [|t q]; [done|]. intros H. apply Forall_cons in H as [H _].
  simpl. apply Z.ltb_lt in H. by rewrite H.
Qed.

Lemma last_cons {A} (x : A) l d : List.last (x :: l) d = List.last l x.
Proof.
  destruct l as [|y l]; [done|].
  change (List.last (y :: l) d = List.last (y :: l) x). apply last_cons_default.
Qed.

(** A flush takes the version to the last position of the queue. *)
Lemma drain_flush_ver : forall q l s,
  Store.todo s = q -> 0 <= l_ver l <= max_int64 ->
  Forall (fun t => 1 <= Op.Seqn t <= max_int64) q -> sorted q ->
  Forall (fun t => l_ver l <= Op.Seqn t) q ->
  l_ver (fst (drain true q l s)) = List.last (map Op.Seqn q) (l_ver l).
Proof.
  induction q as [|t q' IH]; intros l s Htodo Hv Hq Hs Hge; [done|].
  apply Forall_cons in Hq as [Ht Hq']. apply Forall_cons in Hge as [Hge1 Hge].
  destruct l as [v vals e ap]. simpl in Hv, Hge1, Hge.
  destruct (sorted_cons _ _ Hs) as [Hs' Hle].
  rewrite drain_cons by done. simpl map. rewrite last_cons. simpl l_ver.
  destruct (Op.Seqn t <=? v) eqn:E1.
  - apply Z.leb_le in E1. assert (Op.Seqn t = v) as Heq by lia. rewrite Heq.
    destruct (v =? max_int64) eqn:E2.
    + apply Z.eqb_eq in E2. simpl.
      assert (Hall : Forall (fun x => x = v) (map Op.Seqn q')).
      { apply Forall_map. rewrite List.Forall_forall in Hq', Hge.
        apply List.Forall_forall. intros x Hx. simpl.
        specialize (Hq' x Hx). specialize (Hge x Hx). lia. }
      clear -Hall. induction (map Op.Seqn q') as [|x l IHl]; [done|].
      apply Forall_cons in Hall as [-> Hall]. rewrite last_cons. by apply IHl.
    + rewrite (IH _ (Store.set_todo q' s)); try done.
  - apply Z.leb_gt in E1. simpl orb.
    destruct (apply vals (Op.Seqn t) (Op.Mut t)) as [values evt] eqn:Ea.
    assert (Hseq : Event.Seqn evt = Op.Seqn t).
    { pose proof (apply_Seqn vals (Op.Seqn t) (Op.Mut t)) as H. by rewrite Ea in H. }
    rewrite IH.
    + simpl. by rewrite Hseq.
    + done.
    + simpl. lia.
    + done.
    + done.
    + simpl. by rewrite Hseq.
Qed.

Lemma consecutive_snoc lo l x :
  consecutive lo l -> x = List.last l lo + 1 -> consecutive lo (l ++ [x]).
Proof.
  revert lo. induction l as [|y l IH]; intros lo; simpl.
  - intros _ ->. done.
  - intros [H1 H2] H3. split; [done|]. apply IH; [done|].
    rewrite H3. f_equal. destruct l as [|z l]; [done|].
    by rewrite (last_cons_default l z y lo).
Qed.

Lemma consecutive_app lo l1 l2 :
  consecutive lo l1 -> consecutive (List.last l1 lo) l2 -> consecutive lo (l1 ++ l2).
Proof.
  revert lo. induction l1 as [|x l1 IH]; intros lo; [done|].
  intros [H1 H2] H3. split; [done|]. apply IH; [done|].
  destruct l1 as [|y l1]; [done|]. by rewrite (last_cons_default l1 y x lo).
Qed.

Lemma consecutive_last lo l :
  consecutive lo l -> List.last l lo = lo + Z.of_nat (length l).
Proof.
  revert lo. induction l as [|x l IH]; intros lo; [simpl; lia|].
  intros [H1 H2]. rewrite last_cons, (IH x H2). simpl length. lia.
Qed.

Lemma consecutive_In lo l x :
  consecutive lo l -> In x l <-> lo < x <= lo + Z.of_nat (length l).
Proof.
  revert lo. induction l as [|y l IH]; intros lo; [simpl; lia|].
  intros [H1 H2]. simpl In. rewrite (IH y H2). simpl length. lia.
Qed.

(** Without a flush the events applied in an iteration have the
    sequence numbers that follow the version, with no gap, and the log
    keeps what it held. *)
Lemma finish_consecutive m s s' o :
  Inv0 s ->
  finish false (ver (Store.state s)) (root (Store.state s)) m s = Next s' o ->
  consecutive (ver (Store.state s)) (map Event.Seqn (applied o)) /\
  (forall n e, Store.log s !! n = Some e -> Store.log s' !! n = Some e) /\
  (forall e, In e (applied o) -> Store.log s' !! Event.Seqn e = Some e).
Proof.
  intros I. unfold finish.
  set (l0 := mkLocals (ver (Store.state s)) (root (Store.state s)) Event.zero []).
  pose proof (drain_invariant false (fun l s1 =>
    consecutive (ver (Store.state s)) (map Event.Seqn (l_applied l)) /\
    l_ver l = List.last (map Event.Seqn (l_applied l)) (ver (Store.state s)) /\
    ver (Store.state s) <= l_ver l /\
    (forall n e, Store.log s !! n = Some e -> Store.log s1 !! n = Some e) /\
    (forall e, In e (l_applied l) ->
       Store.log s1 !! Event.Seqn e = Some e /\ Event.Seqn e <= l_ver l))
    (fun t q' v vals e ap s H _ _ _ => H)) as HD.
  destruct (HD) with (q := Store.todo s) (l := l0) (s := s)
    as (D1 & _ & _ & D4 & D5).
  - intros t q' v vals e ap s1 values evt (Q1 & Q2 & Q3 & Q4 & Q5) _ Hr _ [Hf|Hf] _ Hs;
      [done|]. cbn [l_ver l_applied] in *.
    rewrite map_app. cbn [map]. rewrite last_snoc. split_and!; try done.
    + apply consecutive_snoc; [done|]. rewrite <- Q2. lia.
    + lia.
    + intros n e' Hn. rewrite popped_applied_log.
      destruct (inv_log s I _ _ Hn) as [_ Hle].
      rewrite lookup_insert_ne by lia. by apply Q4.
    + intros e' He'. rewrite popped_applied_log.
      apply in_app_or in He' as [He'|[<-|[]]].
      * destruct (Q5 e' He') as [L1 L2]. split; [|lia].
        rewrite lookup_insert_ne by lia. done.
      * by rewrite lookup_insert_eq.
  - done.
  - exact (inv_ver s I).
  - exact (inv_todo s I).
  - simpl. split_and!; try done; try lia; by intros e [].
  - destruct (drain false (Store.todo s) l0 s) as [l s1]. simpl in *.
    intros [= <- <-]. simpl. split_and!; try done. intros e He. by apply D5.
Qed.

Lemma process_consecutive s sel s' o :
  Inv s -> wf_selected s sel -> sel <> RecvFlush ->
  process s sel = Next s' o ->
  consecutive (ver (Store.state s)) (map Event.Seqn (applied o)) /\
  (match sel with RecvClean _ => False | _ => True end ->
   forall n e, Store.log s !! n = Some e -> Store.log s' !! n = Some e) /\
  (forall e, In e (applied o) -> Store.log s' !! Event.Seqn e = Some e).
Proof.
  intros I Hwf Hnf E.
  destruct (process_select s sel s' o I Hwf E)
    as (s2 & m & F & I2 & _ & S2 & _ & _ & _ & _ & L2 & _).
  assert (Hfl : match sel with RecvFlush => true | _ => false end = false)
    by (by destruct sel).
  rewrite Hfl, <- S2 in F. destruct (finish_consecutive m s2 s' o I2 F) as (C & K & A).
  rewrite S2 in C. split; [done|]. split; [|done]. intros Hnc n e Hn. apply K.
  rewrite L2. by destruct sel.
Qed.

(** The action of a client is one iteration of [process] at most. *)
Lemma exec_iteration a s s' os :
  Inv s -> wf_action a -> exec a s = Some (s', os) ->
  (os = [] /\ Store.state s' = Store.state s /\ Store.log s' = Store.log s) \/
  exists s0 s1 sel o,
    os = [o] /\ process s0 sel = Next s1 o /\ Inv s0 /\ wf_selected s0 sel /\
    selects a s sel /\
    Store.state s0 = Store.state s /\ Store.log s0 = Store.log s /\
    Store.state s' = Store.state s1 /\ Store.log s' = Store.log s1.
Proof.
  intros I Hwf.
  assert (Hr : forall sel c, rendezvous s sel = Some c -> wf_selected s sel ->
    selects a s sel ->
    exists s0 s1 sel o,
      iterations c = [o] /\ process s0 sel = Next s1 o /\ Inv s0 /\ wf_selected s0 sel /\
      selects a s sel /\
      Store.state s0 = Store.state s /\ Store.log s0 = Store.log s /\
      Store.state (after c) = Store.state s1 /\ Store.log (after c) = Store.log s1).
  { intros sel c E Hw Hsel. destruct (rendezvous_spec s sel c E) as (o & Ep & Ei).
    exists s, (after c), sel, o. by split_and!. }
  assert (Hw : forall g from to c, watchOn g from to s = Some c ->
    int64 from -> int64 to ->
    (forall sel, (exists wt, sel = RecvWatch wt /\ 1 <= Watch.from wt
                             /\ Watch.id wt = Store.allocated s) -> selects a s sel) ->
    (iterations c = [] /\ Store.state (after c) = Store.state s
     /\ Store.log (after c) = Store.log s) \/
    exists s0 s1 sel o,
      iterations c = [o] /\ process s0 sel = Next s1 o /\ Inv s0 /\ wf_selected s0 sel /\
      selects a s sel /\
      Store.state s0 = Store.state s /\ Store.log s0 = Store.log s /\
      Store.state (after c) = Store.state s1 /\ Store.log (after c) = Store.log s1).
  { intros g from to c. unfold watchOn. destruct (from <? 1) eqn:H1.
    { intros [= <-] _ _ _. by left. }
    apply Z.ltb_ge in H1. intros E Hfrom Hto Hsel. right.
    set (wt := Watch.mk (Store.allocated s) g from to) in *.
    set (s0 := Store.set_allocated (S (Store.allocated s)) s) in *.
    destruct (rendezvous s0 (RecvWatch wt)) as [c0|] eqn:E0; [|discriminate].
    destruct (rendezvous_spec _ _ _ E0) as (o & Ep & Ei).
    exists s0, (after c0), (RecvWatch wt), o.
    assert (Hc : iterations c = iterations c0 /\
                 Store.state (after c) = Store.state (after c0) /\
                 Store.log (after c) = Store.log (after c0)).
    { destruct (from <? Store.head (after c0)); by injection E as <-. }
    destruct Hc as (-> & -> & ->). split_and!; try done.
    - by apply Inv_set_allocated.
    - simpl. split_and!; try done. lia.
    - apply Hsel. exists wt. by split_and!. }
  destruct a as [x|g from|g|seqn|wt|k| | | |]; simpl in *.
  - destruct (rendezvous s (RecvOp x)) as [c|] eqn:E; [|discriminate].
    intros [= <- <-]. right. by apply (Hr (RecvOp x)).
  - unfold NewWatchFrom. destruct (watchOn _ _ _ _) as [c|] eqn:E; [|discriminate].
    intros [= <- <-]. apply (Hw _ _ _ _ E Hwf int64_max). auto.
  - unfold NewWatch, NewWatchFrom.
    destruct (watchOn _ _ _ _) as [c|] eqn:E; [|discriminate].
    pose proof (Hw _ _ _ _ E (int64_wrap64 _) int64_max ltac:(auto)) as H.
    destruct (snd (result c)); [discriminate|].
    intros [= <- <-]. done.
  - unfold Wait. destruct (watchOn _ _ _ _) as [c|] eqn:E; [|discriminate].
    pose proof (Hw _ _ _ _ E Hwf (int64_wrap64 _) ltac:(auto)) as H.
    destruct (snd (result c)); intros [= <- <-]; done.
  - intros [= <- <-]. by left.
  - unfold Clean. destruct (rendezvous s (RecvClean k)) as [c|] eqn:E; [|discriminate].
    intros [= <- <-]. right. by apply (Hr (RecvClean k)).
  - unfold Flush. destruct (rendezvous s RecvFlush) as [c|] eqn:E; [|discriminate].
    intros [= <- <-]. right. by apply (Hr RecvFlush).
  - destruct (rendezvous s SendSeqns) as [c|] eqn:E; [|discriminate].
    intros [= <- <-]. right. by apply (Hr SendSeqns).
  - destruct (rendezvous s SendWatches) as [c|] eqn:E; [|discriminate].
    intros [= <- <-]. right. by apply (Hr SendWatches).
  - destruct (rendezvous s SendNotice) as [c|] eqn:E; [|discriminate].
    intros [= <- <-]. right. by apply (Hr SendNotice).
Qed.

End Facts.
Section WatchMore.

Lemma noticed_iff e s x :
  gone x s = false ->
  noticed e s x = true <->
  Watch.from x <= Event.Seqn e < Watch.to x /\
  Match (Watch.glob x) (Event.Path e) = true.
Proof.
  intros Hg. split.
  - intros H. by apply noticed_true in H as (_ & ? & ?).
  - intros [H1 H2]. unfold noticed, treatment. rewrite Hg. simpl.
    assert (E1 : (Watch.to x <=? Event.Seqn e) = false) by (apply Z.leb_gt; lia).
    assert (E2 : (Event.Seqn e <? Watch.from x) = false) by (apply Z.ltb_ge; lia).
    by rewrite E1, E2.
Qed.

(** A registration that is not too late: what it returns and what it
    leaves. *)
Lemma watchOn_exact g from to s c :
  settled s -> int64 from -> int64 to -> 1 <= from -> Store.head s <= from ->
  watchOn g from to s = Some c ->
  result c = (Some (Watch.mk (Store.allocated s) g from to), None) /\
  iterations c = [mkOutput [] None] /\
  Store.state (after c) = Store.state s /\
  Store.todo (after c) = Store.todo s /\
  Store.head (after c) = Store.head s /\
  (forall n, Store.log (after c) !! n = Store.log s !! n) /\
  Store.allocated (after c) = S (Store.allocated s) /\
  exists pre rest es ws',
    Store.notices s = pre ++ rest /\
    Forall (fun n => gone (w n) s = true) pre /\
    Store.notices (after c)
    = rest ++ map (mkNotice (Watch.mk (Store.allocated s) g from to)) es /\
    Store.watches (after c) = Store.watches s ++ ws' /\
    (ws' = [] \/ ws' = [Watch.mk (Store.allocated s) g from to]) /\
    (ver (Store.state s) < from ->
     ws' = [Watch.mk (Store.allocated s) g from to]) /\
    ascending (from - 1) (map Event.Seqn es) /\
    (forall e, In e es <->
       Store.log s !! Event.Seqn e = Some e /\
       noticed e s (Watch.mk (Store.allocated s) g from to) = true).
Proof.
  intros Hs Hfrom Hto H1 Hh. unfold watchOn.
  assert (E1 : (from <? 1) = false) by (apply Z.ltb_ge; lia). rewrite E1.
  set (wt := Watch.mk (Store.allocated s) g from to).
  set (s0 := Store.set_allocated (S (Store.allocated s)) s).
  destruct (rendezvous s0 (RecvWatch wt)) as [c0|] eqn:E; [|discriminate].
  destruct (rendezvous_spec _ _ _ E) as (o & Ep & Ei).
  assert (Hs0 : settled s0) by (by apply settled_set_allocated).
  assert (Hwf : wf_selected s0 (RecvWatch wt)) by (simpl; split_and!; try done; lia).
  destruct (select_ext s0 (RecvWatch wt) (after c0) o (settled_inv s0 Hs0) Hwf)
    as (s2 & m & pre & rest & F & I2 & T2 & S2 & A2 & G2 & Ns & Hpre & Hrest
        & Td & Hd2 & L2 & Hsel); try done.
  { by intros x [= <-]. }
  destruct (idle_finish m s0 s2 (after c0) o I2 (settled_drained s0 Hs0) Td S2 F)
    as [Hafter Ho].
  destruct Hsel as (-> & es & ws' & N & W & Hws & _ & Easc & Fa & Ex & Hsame).
  assert (E2 : (from <? Store.head (after c0)) = false).
  { apply Z.ltb_ge. rewrite Hafter, Hd2. done. }
  rewrite E2. intros [= <-]. simpl. rewrite Ei, Ho, Hafter.
  split_and!; try done.
  exists pre, rest, es, ws'. split_and!; try done.
  - intros Hlt. by apply Hsame.
  - intros e. split.
    + intros He. rewrite List.Forall_forall in Fa. destruct (Fa e He) as (_ & ? & ?).
      done.
    + intros [Hl Hno]. apply Ex; try done.
      destruct (inv_log s (inv_inv0 s (settled_inv s Hs)) _ _ Hl) as [_ Hle].
      apply noticed_true in Hno as (_ & Hw & _). simpl in Hw, Hle |- *. lia.
Qed.

(** The watch objects of a store are the watches they were made as. *)
Lemma watchOn_record g from to s c :
  settled s -> int64 from -> int64 to ->
  watchOn g from to s = Some c ->
  watch_inv (fun x => Watch.id x = Store.allocated s ->
                      x = Watch.mk (Store.allocated s) g from to) (after c).
Proof.
  intros Hs Hfrom Hto. unfold watchOn.
  assert (Hold : watch_inv (fun x => Watch.id x = Store.allocated s ->
                      x = Watch.mk (Store.allocated s) g from to) s).
  { destruct (settled_inv s Hs) as [_ _ [W N]].
    split; (eapply Forall_impl; [eassumption|]); simpl; intros x [_ ?] ?; lia. }
  destruct (from <? 1) eqn:H1; [by intros [= <-]|].
  set (wt := Watch.mk (Store.allocated s) g from to) in *.
  set (s0 := Store.set_allocated (S (Store.allocated s)) s).
  destruct (rendezvous s0 (RecvWatch wt)) as [c0|] eqn:E; [|discriminate].
  destruct (rendezvous_spec _ _ _ E) as (o & Ep & Ei).
  assert (Hs0 : settled s0) by (by apply settled_set_allocated).
  assert (Hwf : wf_selected s0 (RecvWatch wt)) by (simpl; split_and!; try done; lia).
  destruct (process_spec s0 _ _ o (settled_inv s0 Hs0) Hwf Ep)
    as (_ & _ & _ & _ & P & _).
  destruct (P (fun x => Watch.id x = Store.allocated s -> x = wt) Hold) as [Hw _].
  { by intros x [= <-] _ _. }
  destruct (from <? Store.head (after c0)); intros [= <-]; simpl; exact Hw.
Qed.

Lemma delivered_to_sent i os :
  delivered_to i os
  = map ev (List.filter (fun n => bool_decide (Watch.id (w n) = i)) (sent_notices os)).
Proof.
  induction os as [|o os IH]; [done|].
  change (o :: os) with ([o] ++ os).
  rewrite delivered_to_app, sent_notices_app, List.filter_app, map_app, IH.
  f_equal. rewrite delivered_to_one, sent_notices_one.
  destruct (sent o) as [[| |x e]|]; try done. simpl.
  destruct (decide (Watch.id x = i)).
  - by rewrite bool_decide_eq_true_2.
  - by rewrite bool_decide_eq_false_2.
Qed.

Lemma ascending_app_inv lo (a b : list Z) :
  ascending lo (a ++ b) -> ascending lo a /\ ascending (List.last a lo) b.
Proof.
  revert lo. induction a as [|x a IH]; intros lo; simpl; [done|].
  intros [H1 H2]. destruct (IH x H2) as [H3 H4]. split; [done|].
  destruct a as [|y a]; [done|]. by rewrite (last_cons_default a y lo x).
Qed.

Lemma ascending_all_equal lo (l : list Z) z :
  ascending lo l -> Forall (fun x => x = z) l -> (length l <= 1)%nat.
Proof.
  destruct l as [|x [|y l]]; simpl; try lia.
  intros (_ & H & _) Hf. apply Forall_cons in Hf as [-> Hf].
  apply Forall_cons in Hf as [-> _]. lia.
Qed.

End WatchMore.
(** * More theorems about the dispatcher *)

(** X10: between two iterations of [process] the queue is in the order of
    the heap and holds no op that could be applied: while the version is
    below the greatest int64, every pending op is more than one position
    ahead of it. *)
Theorem queue_is_drained (s : Store) :
  reachable s ->
  sorted (Store.todo s) /\
  (ver (Store.state s) < max_int64 ->
   Forall (fun t => ver (Store.state s) + 1 < Op.Seqn t) (Store.todo s)).
Proof. intros H. exact (settled_drained s (reachable_settled s H)). Qed.

Lemma queue_is_drained_witness :
  exists s os,
    run [SendOp (Op.mk 5 "0:/a=x"); SendOp (Op.mk 3 "0:/b=y");
         SendOp (Op.mk 1 "0:/c=z")] New = Some (s, os) /\
    map Op.Seqn (Store.todo s) = [3; 5] /\
    Forall (fun t => ver (Store.state s) + 1 < Op.Seqn t) (Store.todo s).
Proof.
  destruct (run [SendOp (Op.mk 5 "0:/a=x"); SendOp (Op.mk 3 "0:/b=y");
                 SendOp (Op.mk 1 "0:/c=z")] New)
    as [[s os]|] eqn:E; [|by vm_compute in E].
  assert (Hr : reachable s).
  { eexists _, os. split; [|exact E]. repeat constructor; by vm_compute. }
  destruct (queue_is_drained s Hr) as [_ H].
  exists s, os. split; [done|].
  vm_compute in E. injection E as <- <-. split; [reflexivity|].
  apply H. by vm_compute.
Defined.

(** X11: what an op sent on [Ops] does, by its position.  At or below the
    version it is dropped: nothing is applied, and the state and the queue
    stay as they are.  One above the version it is applied in the
    iteration that receives it, before anything else.  Further ahead it is
    put in the queue and nothing is applied. *)
Theorem op_by_position (s : Store) (a : Op) :
  reachable s -> int64 (Op.Seqn a) ->
  exists s' o,
    exec (SendOp a) s = Some (s', [o]) /\
    (Op.Seqn a <= ver (Store.state s) ->
     applied o = [] /\ Store.state s' = Store.state s
     /\ Store.todo s' = Store.todo s) /\
    (Op.Seqn a = ver (Store.state s) + 1 ->
     exists rest,
       applied o
       = snd (apply (root (Store.state s)) (Op.Seqn a) (Op.Mut a)) :: rest) /\
    (ver (Store.state s) + 1 < Op.Seqn a ->
     applied o = [] /\ Store.state s' = Store.state s
     /\ Store.todo s' = heap_Push (Store.todo s) a).
Proof.
  intros Hr Ha. pose proof (reachable_settled s Hr) as Hs.
  pose proof (settled_inv s Hs) as I. pose proof (settled_drained s Hs) as [Hso Hd].
  destruct (process_total s (RecvOp a) ltac:(done)) as (s' & o & E).
  exists s', o. split; [simpl; unfold rendezvous; by rewrite E|].
  destruct (select_ext s (RecvOp a) s' o I Ha ltac:(done) E)
    as (s2 & m & pre & rest & F & I2 & T2 & S2 & A2 & G2 & Ns & Hpre & Hrest
        & Td & _ & _ & Hsel).
  pose proof (inv_ver s (inv_inv0 s I)) as Hv. unfold int64 in Ha.
  split_and!.
  - intros Hle. assert (Hc : (ver (Store.state s) <? Op.Seqn a) = false)
      by (apply Z.ltb_ge; lia).
    rewrite Hc in Td.
    destruct (idle_finish m s s2 s' o I2 (conj Hso Hd) Td S2 F) as [-> ->]. done.
  - intros Heq. assert (Hc : (ver (Store.state s) <? Op.Seqn a) = true)
      by (apply Z.ltb_lt; lia).
    rewrite Hc in Td. specialize (Hd ltac:(lia)).
    rewrite heap_Push_front in Td
      by (eapply Forall_impl; [exact Hd|]; simpl; intros; lia).
    unfold finish in F. rewrite Td in F. rewrite drain_cons in F by lia.
    assert (H1 : (Op.Seqn a <=? ver (Store.state s)) = false) by (apply Z.leb_gt; lia).
    assert (H2 : (Op.Seqn a =? ver (Store.state s) + 1) = true) by (apply Z.eqb_eq; lia).
    rewrite H1, H2 in F. simpl orb in F. cbv iota in F.
    destruct (apply (root (Store.state s)) (Op.Seqn a) (Op.Mut a)) as [values evt] eqn:Ea.
    pose proof (apply_Seqn (root (Store.state s)) (Op.Seqn a) (Op.Mut a)) as Hseq.
    rewrite Ea in Hseq. simpl in Hseq.
    destruct (drain_prefix false (Store.todo s)
      (mkLocals (Event.Seqn evt) values evt ([] ++ [evt]))
      (popped_applied false (Store.todo s) values evt s2)) as (rest' & Hp).
    { apply popped_applied_todo. }
    { simpl. lia. }
    { exact (inv_todo s (inv_inv0 s I)). }
    destruct (drain false (Store.todo s) _ _) as [l s3]. simpl in Hp.
    injection F as _ <-. simpl. by exists rest'.
  - intros Hlt. assert (Hc : (ver (Store.state s) <? Op.Seqn a) = true)
      by (apply Z.ltb_lt; lia).
    rewrite Hc in Td. rewrite <- S2 in F.
    rewrite finish_idle in F; [injection F as <- <-; done | done |].
    unfold drained. rewrite Td, S2. split; [by apply heap_Push_sorted|].
    intros Hmax. apply heap_Push_Forall; [by apply Hd | done].
Qed.

Lemma op_by_position_witness :
  exists s' o,
    exec (SendOp (Op.mk 1 "0:/a=x")) New = Some (s', [o]) /\
    exists rest, applied o = snd (apply emptyDir 1 "0:/a=x") :: rest.
Proof.
  assert (Hr : reachable New) by (exists [], []; by split).
  assert (Ha : int64 1) by (unfold int64, min_int64, max_int64; lia).
  destruct (op_by_position New (Op.mk 1 "0:/a=x") Hr Ha) as (s' & o & E & _ & H & _).
  exists s', o. split; [exact E|]. apply H. reflexivity.
Defined.

(** X12: the iteration of [process] that takes a value from the flush
    channel, begun at a version below the greatest int64, ends; it takes
    the version to the last position of the queue (the version stays
    where it is when the queue is empty) and sets [head] one above it;
    unless the version is now the greatest int64, the queue is left
    empty.  This is what the dispatcher does after [Flush] has handed it
    the value: [Flush] itself returns at the hand-over. *)
Theorem flush_iteration_reaches_last_pending (s : Store) :
  reachable s -> ver (Store.state s) < max_int64 ->
  exists s' o,
    process s RecvFlush = Next s' o /\
    ver (Store.state s')
    = List.last (map Op.Seqn (Store.todo s)) (ver (Store.state s)) /\
    Store.head s' = add64 (ver (Store.state s')) 1 /\
    (ver (Store.state s') < max_int64 -> Store.todo s' = []).
Proof.
  intros Hr Hlt. pose proof (reachable_settled s Hr) as Hs.
  pose proof (settled_inv s Hs) as I. pose proof (settled_drained s Hs) as [Hso Hd].
  destruct (process_total s RecvFlush ltac:(done)) as (s' & o & E).
  exists s', o. split; [exact E|].
  destruct (process_ext s RecvFlush s' o Hs ltac:(done) ltac:(done) E)
    as (_ & _ & _ & _ & Hempty).
  destruct (process_spec s RecvFlush s' o I ltac:(done) E)
    as (_ & _ & _ & _ & _ & _ & Hh & _).
  split_and!; [|done|by apply Hempty].
  destruct (select_ext s RecvFlush s' o I ltac:(done) ltac:(done) E)
    as (s2 & m & pre & rest & F & I2 & T2 & S2 & A2 & G2 & Ns & Hpre & Hrest
        & Td & _ & _ & Hsel).
  unfold finish in F.
  set (l0 := mkLocals (ver (Store.state s)) (root (Store.state s)) Event.zero []) in F.
  assert (Hloop : in_loop true l0 s2).
  { split; [done|]. rewrite S2. split; [done|]. split; [done|].
    split; [pose proof (inv_ver s (inv_inv0 s I)); vm_compute Event.zero; simpl; lia|].
    intros Hm. left. rewrite <- S2 in Hm. auto. }
  pose proof (drain_in_loop true l0 s2 Hloop) as (_ & Jv & _).
  pose proof (drain_flush_ver (Store.todo s2) l0 s2 eq_refl) as Hver.
  rewrite Td in Hver, Jv, F.
  destruct (drain true (Store.todo s) l0 s2) as [l s1]. simpl in Hver, Jv.
  injection F as <- _. simpl.
  destruct (log_and_notify_spec (l_ev l) s1) as (_ & _ & _ & _ & -> & _).
  rewrite <- Jv. apply Hver.
  - exact (inv_ver s (inv_inv0 s I)).
  - exact (inv_todo s (inv_inv0 s I)).
  - done.
  - eapply Forall_impl; [exact (Hd Hlt)|]. simpl. intros; lia.
Qed.

Lemma flush_iteration_reaches_last_pending_witness :
  exists s os s' o,
    run [SendOp (Op.mk 5 "0:/a=x"); SendOp (Op.mk 8 "0:/b=y")] New = Some (s, os) /\
    process s RecvFlush = Next s' o /\
    ver (Store.state s') = 8 /\
    Store.head s' = 9 /\ Store.todo s' = [].
Proof.
  destruct (run [SendOp (Op.mk 5 "0:/a=x"); SendOp (Op.mk 8 "0:/b=y")] New)
    as [[s os]|] eqn:E; [|by vm_compute in E].
  assert (Hr : reachable s).
  { eexists _, os. split; [|exact E]. repeat constructor; by vm_compute. }
  vm_compute in E. injection E as <- <-.
  match type of Hr with reachable ?s0 =>
    destruct (flush_iteration_reaches_last_pending s0 Hr ltac:(by vm_compute))
      as (s' & o & Ec & Hv & Hh & Ht)
  end.
  eexists _, _, s', o. split; [reflexivity|]. split; [exact Ec|].
  simpl in Hv. split; [exact Hv|]. rewrite Hv in Hh, Ht.
  split; [exact Hh | apply Ht; by vm_compute].
Defined.


(** X14: the iteration of [process] that takes [k] from the clean channel
    ends for every [k] but the greatest int64; for that one the loop that
    moves [head] never ends, and the dispatcher never leaves the
    iteration.  ([Clean] itself has returned by then.) *)
Theorem clean_iteration_ends_unless_greatest (s : Store) (k : Z) :
  reachable s -> int64 k ->
  process s (RecvClean k) = NoReturn <-> k = max_int64.
Proof.
  intros Hr Hk. pose proof (settled_inv s (reachable_settled s Hr)) as I. split.
  - intros E. destruct (decide (k = max_int64)) as [|Hne]; [done|].
    destruct (process_RecvClean_total s k I Hk) as (s' & o & E').
    { unfold int64 in Hk. lia. }
    by rewrite E' in E.
  - intros ->. by apply process_RecvClean_max.
Qed.

Lemma clean_iteration_ends_unless_greatest_witness :
  process New (RecvClean max_int64) = NoReturn.
Proof.
  assert (Hr : reachable New) by (exists [], []; by split).
  apply (proj2 (clean_iteration_ends_unless_greatest New max_int64 Hr int64_max)).
  reflexivity.
Defined.

(** X15: the iteration of [process] in which the send on [Seqns] fires
    sends the version that [Snap] returns, the one in which the send on
    [Watches] fires the length of the list of watches; either applies
    nothing and leaves the store as the top of the loop left it: as it
    was, but for the notices of stopped watches dropped from the head of
    the notice queue, the first notice left being for a watch that is not
    stopped. *)
Theorem queries_answer_from_the_store (s : Store) :
  reachable s ->
  process s SendSeqns
  = Next (drop_stopped (Store.notices s) s)
      (mkOutput [] (Some (Seqns (fst (Snap s))))) /\
  process s SendWatches
  = Next (drop_stopped (Store.notices s) s)
      (mkOutput [] (Some (Watches (length (Store.watches s))))) /\
  unchanged s (drop_stopped (Store.notices s) s) /\
  exists pre,
    Store.notices s = pre ++ Store.notices (drop_stopped (Store.notices s) s) /\
    Forall (fun n => gone (w n) s = true) pre /\
    match Store.notices (drop_stopped (Store.notices s) s) with
    | [] => True
    | n :: _ => gone (w n) s = false
    end.
Proof.
  intros Hr. pose proof (reachable_settled s Hr) as Hs.
  pose proof (settled_inv s Hs) as I.
  destruct (drop_stopped_spec (Store.notices s) s) as [U _].
  pose proof U as (W & T & S & _).
  assert (I2 : Inv0 (drop_stopped (Store.notices s) s))
    by (apply (Inv0_unchanged s); [done | exact (inv_inv0 s I)]).
  assert (D2 : drained (drop_stopped (Store.notices s) s)).
  { unfold drained. rewrite T, S. exact (settled_drained s Hs). }
  split_and!.
  - unfold process, Snap. cbv zeta. simpl fst. rewrite <- S.
    by rewrite finish_idle.
  - unfold process. cbv zeta. rewrite <- W, <- S. by rewrite finish_idle.
  - exact U.
  - apply drop_stopped_ext.
Qed.

Lemma queries_answer_from_the_store_witness :
  exists s os,
    run [SendOp (Op.mk 1 "0:/a=x")] New = Some (s, os) /\
    process s SendSeqns
    = Next (drop_stopped (Store.notices s) s) (mkOutput [] (Some (Seqns 1))).
Proof.
  destruct (run [SendOp (Op.mk 1 "0:/a=x")] New)
    as [[s os]|] eqn:E; [|by vm_compute in E].
  assert (Hr : reachable s).
  { eexists _, os. split; [|exact E]. repeat constructor; by vm_compute. }
  destruct (queries_answer_from_the_store s Hr) as (E' & _).
  exists s, os. split; [done|].
  vm_compute in E. injection E as <- <-. exact E'.
Defined.

(** X16: [NewWatch] registers a watch that begins one above [rev], the
    version that its [Snap] returned; the store that the registration
    finds can be at a later version.  It panics with [ErrTooLate] exactly
    when [rev] is the greatest int64 or [head] is more than one above
    [rev].  Otherwise it returns a new watch object with the window from
    [rev + 1], leaves what [Snap] returns, and leaves in the notice
    queue, for a watch object that no one has stopped, one notice for
    each event of the log above [rev] whose path the glob matches, in
    ascending order: none when the version is still [rev], and then the
    watch joins the list of watches. *)
Theorem NewWatch_begins_after_rev (s : Store) (g : Glob) (rev : Z) :
  reachable s -> 0 <= rev <= ver (Store.state s) ->
  gone (Watch.mk (Store.allocated s) g (rev + 1) max_int64) s = false ->
  exists c,
    NewWatch rev s g = Some c /\
    match result c with
    | Panic err =>
        err = ErrTooLate /\ (rev = max_int64 \/ rev + 1 < Store.head s)
    | Returned r =>
        rev < max_int64 /\ Store.head s <= rev + 1 /\
        r = Some (Watch.mk (Store.allocated s) g (rev + 1) max_int64) /\
        Snap (after c) = Snap s /\
        exists pre rest es,
          Store.notices s = pre ++ rest /\
          Forall (fun n => gone (w n) s = true) pre /\
          Store.notices (after c)
          = rest ++ map (mkNotice (Watch.mk (Store.allocated s) g (rev + 1) max_int64)) es /\
          ascending rev (map Event.Seqn es) /\
          (forall e, In e es <->
             Store.log s !! Event.Seqn e = Some e /\
             rev < Event.Seqn e < max_int64 /\
             Match g (Event.Path e) = true) /\
          (rev = ver (Store.state s) ->
           es = [] /\
           Store.watches (after c)
           = Store.watches s ++ [Watch.mk (Store.allocated s) g (rev + 1) max_int64])
    end.
Proof.
  intros Hr Hrev Hg. pose proof (reachable_settled s Hr) as Hs.
  pose proof (settled_inv s Hs) as I.
  pose proof (inv_ver s (inv_inv0 s I)) as Hv.
  unfold NewWatch, NewWatchFrom.
  destruct (decide (rev = max_int64)) as [->|Hne].
  { rewrite add64_max. eexists. split; [reflexivity|]. simpl. split; [done | by left]. }
  rewrite add64_succ by (pose proof min_int64_neg; lia).
  assert (Hfrom : int64 (rev + 1))
    by (unfold int64; pose proof min_int64_neg; lia).
  destruct (watchOn_total g (rev + 1) max_int64 s I Hfrom int64_max) as (c0 & E0).
  rewrite E0.
  destruct (watchOn_spec (CallNewWatch g) _ _ _ _ _ I Hfrom int64_max eq_refl E0)
    as (_ & _ & [(H1 & _)|[(H1 & H2 & _)|(H1 & H2 & H3)]]); [lia| |].
  - rewrite H2. simpl. eexists. split; [reflexivity|]. simpl.
    split; [done | right; lia].
  - destruct (watchOn_exact g _ _ s c0 Hs Hfrom int64_max H1 H2 E0)
      as (_ & _ & S' & _ & _ & _ & _ & pre & rest & es & ws' & Ns & Hpre & N & W & _
          & Hws & Asc & Hes).
    rewrite H3. simpl. eexists. split; [reflexivity|]. simpl.
    split; [lia|]. split; [done|]. split; [done|].
    split; [unfold Snap; by rewrite S'|].
    exists pre, rest, es. split_and!; try done.
    + by replace (rev + 1 - 1) with rev in Asc by lia.
    + intros e. rewrite Hes. rewrite (noticed_iff e s _ Hg). simpl.
      split; intros (? & ? & ?); split_and!; try done; lia.
    + intros ->. split.
      * destruct es as [|e es]; [done|].
        destruct (proj1 (Hes e) ltac:(by left)) as [Hl Hno].
        destruct (inv_log s (inv_inv0 s I) _ _ Hl) as [_ Hle].
        apply noticed_true in Hno as (_ & Hw & _). simpl in Hw. lia.
      * rewrite W, Hws by lia. done.
Qed.

Lemma NewWatch_begins_after_rev_witness :
  exists s os c,
    run [SendOp (Op.mk 1 "0:/a=x")] New = Some (s, os) /\
    ver (Store.state s) = 1 /\
    NewWatch 0 s Any = Some c /\
    exists r, result c = Returned r /\
    exists pre rest es,
      Store.notices s = pre ++ rest /\
      Store.notices (after c)
      = rest ++ map (mkNotice (Watch.mk (Store.allocated s) Any (0 + 1) max_int64)) es /\
      forall e, In e es <->
        Store.log s !! Event.Seqn e = Some e /\
        0 < Event.Seqn e < max_int64 /\
        Match Any (Event.Path e) = true.
Proof.
  destruct (run [SendOp (Op.mk 1 "0:/a=x")] New)
    as [[s os]|] eqn:E; [|by vm_compute in E].
  assert (Hr : reachable s).
  { eexists _, os. split; [|exact E]. repeat constructor; by vm_compute. }
  assert (Hv : ver (Store.state s) = 1).
  { vm_compute in E. by injection E as <- <-. }
  assert (Hh : Store.head s = 0).
  { vm_compute in E. by injection E as <- <-. }
  assert (Hrev : 0 <= 0 <= ver (Store.state s)) by (rewrite Hv; lia).
  assert (Hg : gone (Watch.mk (Store.allocated s) Any (0 + 1) max_int64) s = false).
  { vm_compute in E. injection E as <- <-. by vm_compute. }
  destruct (NewWatch_begins_after_rev s Any 0 Hr Hrev Hg) as (c & Ec & Hc).
  exists s, os, c. split; [done|]. split; [exact Hv|]. split; [exact Ec|].
  destruct (result c) as [r|err].
  - destruct Hc as (_ & _ & _ & _ & pre & rest & es & Ns & _ & N & _ & Hes & _).
    exists r. split; [done|]. exists pre, rest, es. done.
  - destruct Hc as [_ [Hc|Hc]]; [by vm_compute in Hc | rewrite Hh in Hc; lia].
Defined.

(** X17: a registration from a position that the log still covers
    replays the log.  [NewWatchFrom] with [from] at 1 or later and not
    below [head], for a watch object that no one has stopped, returns the
    watch and leaves in the notice queue, after the notices that were
    there, one notice for each event of the log from [from] to below the
    greatest int64 whose path the glob matches, in ascending order of
    sequence number, and no other. *)
Theorem NewWatchFrom_replays_the_log (s : Store) (g : Glob) (from : Z) :
  reachable s -> int64 from -> 1 <= from -> Store.head s <= from ->
  gone (Watch.mk (Store.allocated s) g from max_int64) s = false ->
  exists c es pre rest,
    NewWatchFrom s g from = Some c /\
    result c = (Some (Watch.mk (Store.allocated s) g from max_int64), None) /\
    Store.notices s = pre ++ rest /\
    Forall (fun n => gone (w n) s = true) pre /\
    Store.notices (after c)
    = rest ++ map (mkNotice (Watch.mk (Store.allocated s) g from max_int64)) es /\
    ascending (from - 1) (map Event.Seqn es) /\
    forall e, In e es <->
      Store.log s !! Event.Seqn e = Some e /\
      from <= Event.Seqn e < max_int64 /\
      Match g (Event.Path e) = true.
Proof.
  intros Hr Hfrom H1 Hh Hg. pose proof (reachable_settled s Hr) as Hs.
  pose proof (settled_inv s Hs) as I. unfold NewWatchFrom.
  destruct (watchOn_total g from max_int64 s I Hfrom int64_max) as (c & E).
  destruct (watchOn_exact g _ _ s c Hs Hfrom int64_max H1 Hh E)
    as (R & _ & _ & _ & _ & _ & _ & pre & rest & es & ws' & Ns & Hpre & N & _ & _
        & _ & Asc & Hes).
  exists c, es, pre, rest. split_and!; try done.
  intros e. rewrite Hes. rewrite (noticed_iff e s _ Hg). simpl. tauto.
Qed.

Lemma NewWatchFrom_replays_the_log_witness :
  exists s os c es pre rest,
    run [SendOp (Op.mk 1 "0:/a=x"); SendOp (Op.mk 2 "0:/b=y")] New = Some (s, os) /\
    NewWatchFrom s Any 2 = Some c /\
    Store.notices s = pre ++ rest /\
    Store.notices (after c)
    = rest ++ map (mkNotice (Watch.mk (Store.allocated s) Any 2 max_int64)) es /\
    forall e, In e es <->
      Store.log s !! Event.Seqn e = Some e /\
      2 <= Event.Seqn e < max_int64 /\
      Match Any (Event.Path e) = true.
Proof.
  destruct (run [SendOp (Op.mk 1 "0:/a=x"); SendOp (Op.mk 2 "0:/b=y")] New)
    as [[s os]|] eqn:E; [|by vm_compute in E].
  assert (Hr : reachable s).
  { eexists _, os. split; [|exact E]. repeat constructor; by vm_compute. }
  assert (Hk : int64 2) by (unfold int64, min_int64, max_int64; lia).
  assert (Hh : Store.head s <= 2).
  { vm_compute in E. injection E as <- <-. by vm_compute. }
  assert (Hg : gone (Watch.mk (Store.allocated s) Any 2 max_int64) s = false).
  { vm_compute in E. injection E as <- <-. by vm_compute. }
  destruct (NewWatchFrom_replays_the_log s Any 2 Hr Hk ltac:(lia) Hh Hg)
    as (c & es & pre & rest & Ec & _ & Ns & _ & N & _ & Hes).
  exists s, os, c, es, pre, rest.
  split; [done|]. split; [exact Ec|]. split; [exact Ns|]. split; [exact N | exact Hes].
Defined.
Section Received.

Lemma fresh_ordered s : settled s -> ordered (Store.allocated s) [] s.
Proof.
  intros Hs. unfold ordered. simpl.
  rewrite seqns_for_none; [split; [done | constructor]|].
  destruct (settled_inv s Hs) as [_ _ [_ N]].
  eapply Forall_impl; [exact N|]. simpl. intros n [_ ?]. lia.
Qed.

Lemma ascending_raise lo lo' l :
  ascending lo l -> Forall (fun x => lo' < x) l -> ascending lo' l.
Proof.
  destruct l as [|x l]; [done|]. intros [_ H] Hf.
  apply Forall_cons in Hf as [? _]. by split.
Qed.

(** What a watch that a registration returned receives in the history
    that follows. *)
Lemma watch_receives g from to s c wt acts s' os :
  settled s -> int64 from -> int64 to ->
  watchOn g from to s = Some c -> result c = (Some wt, None) ->
  Forall wf_action acts -> run acts (after c) = Some (s', os) ->
  wt = Watch.mk (Store.allocated s) g from to /\
  (exists lo, ascending lo (map Event.Seqn (delivered_to (Watch.id wt) os))) /\
  Forall (fun e => from <= Event.Seqn e < to /\ Match g (Event.Path e) = true)
    (delivered_to (Watch.id wt) os).
Proof.
  intros Hs Hfrom Hto E R Hwf Er.
  pose proof (settled_inv s Hs) as I.
  destruct (watchOn_spec (CallNewWatchFrom g from) g from to s c I Hfrom Hto eq_refl E)
    as (_ & _ & [(_ & R' & _)|[(_ & R' & _)|(H1 & H2 & R')]]);
    rewrite R in R'; try discriminate.
  injection R' as ->. split; [done|]. simpl.
  destruct (watchOn_exact g from to s c Hs Hfrom Hto H1 H2 E)
    as (_ & _ & _ & _ & _ & _ & Hal & _).
  pose proof (watchOn_record g from to s c Hs Hfrom Hto E) as Hrec.
  destruct (watchOn_more g from to s c Hs Hfrom Hto E) as (Hs1 & _ & _ & O1 & _).
  destruct (O1 (Store.allocated s) [] (fresh_ordered s Hs) ltac:(done)) as [Ho1 Hd1].
  destruct (run_more acts (after c) s' os Hs1 Hwf Er) as (_ & Hwin & _ & O2 & R2).
  destruct (O2 _ _ Ho1 Hd1) as [[Hasc _] _].
  destruct (R2 (Watch.mk (Store.allocated s) g from to)) as [_ Hsame].
  { simpl. lia. }
  { exact Hrec. }
  split.
  - apply ascending_app_inv in Hasc as [Hasc _].
    apply ascending_app_inv in Hasc as [_ Hasc]. by eexists.
  - rewrite delivered_to_sent. apply Forall_map. apply List.Forall_forall.
    intros n Hn. apply List.filter_In in Hn as [Hin Hid].
    apply bool_decide_eq_true in Hid.
    rewrite List.Forall_forall in Hwin, Hsame.
    specialize (Hwin n Hin). specialize (Hsame n Hin Hid).
    destruct Hwin as [W1 W2]. rewrite Hsame in W1, W2. done.
Qed.

(** The notices that the part of an iteration after the [select]
    enqueues are for watches that are not stopped. *)
Lemma finish_added flush m s s' o :
  Inv0 s ->
  (ver (Store.state s) = max_int64 -> is_Some (Store.log s !! max_int64)) ->
  finish flush (ver (Store.state s)) (root (Store.state s)) m s = Next s' o ->
  exists added,
    Store.notices s' = Store.notices s ++ added /\
    Forall (fun n => gone (w n) s = false) added.
Proof.
  intros I Htop. destruct flush.
  - intros E.
    destruct (finish_spec true m s s' o I Htop E)
      as (_ & _ & _ & _ & _ & _ & _ & _ & _ & FL).
    destruct (FL eq_refl) as (_ & _ & N & _). eexists. split; [exact N|].
    apply Forall_map. simpl. apply List.Forall_forall. intros x Hx.
    apply List.filter_In in Hx as [_ Hx]. by apply noticed_true in Hx as (? & _).
  - unfold finish.
    set (l0 := mkLocals (ver (Store.state s)) (root (Store.state s)) Event.zero []).
    assert (Hv : 0 <= l_ver l0 <= max_int64) by exact (inv_ver s I).
    pose proof (drain_invariant false (fun _ s1 =>
      (forall x, gone x s1 = gone x s) /\
      exists added,
        Store.notices s1 = Store.notices s ++ added /\
        Forall (fun n => gone (w n) s = false) added)) as HD.
    specialize (HD (fun t q' v vals e ap s1 H _ _ _ => H)).
    assert (Hstep : forall (t : Op) (q' : list Op) (v : Z) (vals : node) (e : Event)
        (ap : list Event) (s1 : Store) (values : node) (evt : Event),
      ((forall x, gone x s1 = gone x s) /\
       exists added,
         Store.notices s1 = Store.notices s ++ added /\
         Forall (fun n => gone (w n) s = false) added) ->
      Store.todo s1 = t :: q' -> 0 <= v < Op.Seqn t -> Op.Seqn t <= max_int64 ->
      false = true \/ Op.Seqn t = v + 1 ->
      apply vals (Op.Seqn t) (Op.Mut t) = (values, evt) ->
      Event.Seqn evt = Op.Seqn t ->
      (forall x, gone x (popped_applied false q' values evt s1) = gone x s) /\
      exists added,
        Store.notices (popped_applied false q' values evt s1)
        = Store.notices s ++ added /\
        Forall (fun n => gone (w n) s = false) added).
    { intros t q' v vals e ap s1 values evt (Q3 & added & N & Fa) _ _ _ _ _ _.
      unfold popped_applied.
      set (sA := Store.set_state (mkState (Event.Seqn evt) values) (Store.set_todo q' s1)).
      destruct (log_and_notify_spec evt sA) as (_ & N' & _ & _ & _ & _ & _ & G').
      assert (GA : forall x, gone x sA = gone x s) by (intros x; apply Q3).
      split; [intros x; by rewrite G'|].
      exists (added ++ map (fun x => mkNotice x evt)
                (List.filter (noticed evt sA) (Store.watches sA))).
      split; [rewrite N'; simpl; by rewrite N, app_assoc|].
      apply Forall_app. split; [done|].
      apply Forall_map. simpl. apply List.Forall_forall. intros x Hx.
      apply List.filter_In in Hx as [_ Hx].
      rewrite (noticed_gone_eq evt s sA x GA) in Hx.
      by apply noticed_true in Hx as (? & _). }
    specialize (HD Hstep (Store.todo s) l0 s eq_refl Hv (inv_todo s I)).
    destruct HD as (_ & added & N & Fa).
    { split; [done|]. exists []. by rewrite app_nil_r. }
    destruct (drain false (Store.todo s) l0 s) as [l s1]. simpl in *.
    intros [= <- <-]. by exists added.
Qed.

End Received.

(** X18: [Stop] holds from the next iteration on.  [Stop] leaves the
    watch stopped, and a second [Stop] changes nothing.  An iteration of
    [process] whose top of the loop finds the watch stopped sends it
    nothing, not even an event whose notice is in the queue, enqueues no
    notice for it, and leaves it stopped.  (An iteration that was waiting
    in its [select] when [Stop] came has chosen its notice before, and
    can still send it.) *)
Theorem stopped_watch_is_sent_nothing (s : Store) (wt : Watch) :
  Inv s ->
  (Inv (Stop wt s) /\ gone wt (Stop wt s) = true /\
   Stop wt (Stop wt s) = Stop wt s) /\
  forall sel s' o,
    gone wt s = true -> wf_selected s sel ->
    (forall x, sel = RecvWatch x -> 1 <= Watch.from x) ->
    process s sel = Next s' o ->
    delivered_to (Watch.id wt) [o] = [] /\
    (forall n, In n (Store.notices s') -> Watch.id (w n) = Watch.id wt ->
       In n (Store.notices s)) /\
    gone wt s' = true /\ Inv s'.
Proof.
  intros I. split.
  - split; [by apply Inv_Stop|]. split.
    + unfold gone, Stop. simpl. apply orb_true_iff. right.
      apply bool_decide_eq_true, elem_of_union. left. by apply elem_of_singleton.
    + unfold Stop. simpl. unfold Store.set_flags. simpl. f_equal.
      apply set_eq. intros x. rewrite !elem_of_union. tauto.
  - intros sel s' o Hg Hwf Hfrom E.
    assert (Hlive : forall x, Watch.id x = Watch.id wt -> gone x s = false -> False).
    { intros x Hx Hgx. rewrite (gone_id x wt s Hx) in Hgx. congruence. }
    destruct (process_spec s sel s' o I Hwf E) as (I' & _ & _ & _ & _ & G & _).
    destruct (select_ext s sel s' o I Hwf Hfrom E)
      as (s2 & m & pre & rest & F & I2 & T2 & S2 & A2 & G2 & Ns & Hpre & Hrest
          & _ & _ & _ & Hsel).
    rewrite <- S2 in F.
    destruct (finish_spec _ m s2 s' o I2 T2 F) as (_ & _ & M & _).
    destruct (finish_added _ m s2 s' o I2 T2 F) as (added & N & Fa).
    assert (Hrest' : forall n, In n rest -> In n (Store.notices s)).
    { intros n Hn. rewrite Ns. apply in_or_app. by right. }
    assert (Hadded : forall n, In n added -> Watch.id (w n) = Watch.id wt -> False).
    { intros n Hn Hid. rewrite List.Forall_forall in Fa. specialize (Fa n Hn).
      rewrite G2 in Fa. by apply (Hlive (w n)). }
    split_and!; [| |by rewrite G|done].
    + rewrite delivered_to_one, M.
      destruct sel; try (by destruct Hsel as (-> & _)).
      destruct Hsel as (_ & n & -> & ->). destruct (decide _) as [Hid|]; [|done].
      exfalso. by apply (Hlive (w n)).
    + intros n Hn Hid. rewrite N in Hn. apply in_app_or in Hn as [Hn|Hn];
        [|exfalso; by apply (Hadded n)].
      destruct sel;
        try (destruct Hsel as (_ & Hs2 & _); rewrite Hs2 in Hn; by apply Hrest').
      * destruct Hsel as (_ & es & ws' & Hs2 & _ & _ & _ & _ & Fe & _).
        rewrite Hs2 in Hn. apply in_app_or in Hn as [Hn|Hn]; [by apply Hrest'|].
        apply in_map_iff in Hn as (e & <- & He). simpl in Hid.
        rewrite List.Forall_forall in Fe. destruct (Fe e He) as (_ & Hno & _).
        apply noticed_true in Hno as (Hgx & _). exfalso. exact (Hlive _ Hid Hgx).
      * destruct Hsel as (_ & n0 & -> & _). apply Hrest'. by right.
Qed.

Lemma stopped_watch_is_sent_nothing_witness :
  exists s os0 s' o,
    run [CallNewWatchFrom Any 1; CallNewWatchFrom Any 1; SendOp (Op.mk 1 "0:/a=x");
         CallStop (Watch.mk 0 Any 1 max_int64)] New = Some (s, os0) /\
    map (fun n => Watch.id (w n)) (Store.notices s) = [0%nat; 1%nat] /\
    process s SendNotice = Next s' o /\
    delivered_to 0 [o] = [] /\ length (delivered_to 1 [o]) = 1%nat /\
    gone (Watch.mk 0 Any 1 max_int64) s' = true.
Proof.
  destruct (run [CallNewWatchFrom Any 1; CallNewWatchFrom Any 1;
                 SendOp (Op.mk 1 "0:/a=x");
                 CallStop (Watch.mk 0 Any 1 max_int64)] New)
    as [[s os0]|] eqn:E; [|by vm_compute in E].
  assert (Hr : reachable s).
  { eexists _, os0. split; [|exact E]. repeat constructor; by vm_compute. }
  pose proof (settled_inv s (reachable_settled s Hr)) as I.
  assert (Hg : gone (Watch.mk 0 Any 1 max_int64) s = true).
  { vm_compute in E. injection E as <- <-. by vm_compute. }
  destruct (process s SendNotice) as [s' o| |] eqn:E';
    [|vm_compute in E; injection E as <- <-; by vm_compute in E'
     |vm_compute in E; injection E as <- <-; by vm_compute in E'].
  destruct (proj2 (stopped_watch_is_sent_nothing s (Watch.mk 0 Any 1 max_int64) I)
              SendNotice s' o Hg ltac:(done) ltac:(done) E')
    as (H1 & _ & H2 & _).
  exists s, os0, s', o. split; [done|].
  split; [vm_compute in E; by injection E as <- <-|].
  split; [done|]. split; [exact H1|]. split; [|exact H2].
  vm_compute in E. injection E as <- <-. vm_compute in E'. by injection E' as <- <-.
Defined.
(** X19: every event that the dispatcher puts on the channel of a watch
    lies in the window of that watch, [from <= seqn < to], and has a path
    that the glob of the watch matches. *)
Theorem sent_events_in_window (acts : list action) (s : Store) (os : list output) :
  Forall wf_action acts -> run acts New = Some (s, os) ->
  Forall in_window (sent_notices os).
Proof.
  intros Hwf E. by destruct (run_more acts New s os settled_New Hwf E) as (_ & H & _).
Qed.

Lemma sent_events_in_window_witness :
  exists s os,
    run [CallNewWatchFrom Any 2; SendOp (Op.mk 1 "0:/a=x");
         SendOp (Op.mk 2 "0:/b=y"); Receive] New = Some (s, os) /\
    map (fun n => Event.Seqn (ev n)) (sent_notices os) = [2] /\
    Forall in_window (sent_notices os).
Proof.
  destruct (run [CallNewWatchFrom Any 2; SendOp (Op.mk 1 "0:/a=x");
                 SendOp (Op.mk 2 "0:/b=y"); Receive] New)
    as [[s os]|] eqn:E; [|by vm_compute in E].
  assert (Hwf : Forall wf_action
    [CallNewWatchFrom Any 2; SendOp (Op.mk 1 "0:/a=x");
     SendOp (Op.mk 2 "0:/b=y"); Receive]) by (repeat constructor; by vm_compute).
  pose proof (sent_events_in_window _ s os Hwf E) as H.
  exists s, os. split; [done|]. split; [|exact H].
  vm_compute in E. by injection E as <- <-.
Defined.

(** X20: a watch receives its events in ascending order of sequence
    number, each once at most, and none from above the version. *)
Theorem watch_receives_in_order (acts : list action) (s : Store) (os : list output)
    (i : nat) :
  Forall wf_action acts -> run acts New = Some (s, os) ->
  ascending 0 (map Event.Seqn (delivered_to i os)) /\
  Forall (fun e => Event.Seqn e <= ver (Store.state s)) (delivered_to i os).
Proof.
  intros Hwf E.
  destruct (run_more acts New s os settled_New Hwf E) as (_ & _ & _ & O & _).
  assert (H0 : ordered i [] New) by (split; simpl; [done | constructor]).
  destruct (O i [] H0 ltac:(done)) as [[H1 H2] _].
  simpl in H1, H2. split.
  - by apply ascending_app_inv in H1 as [H1 _].
  - apply Forall_app in H2 as [H2 _]. rewrite List.Forall_map in H2. exact H2.
Qed.

Lemma watch_receives_in_order_witness :
  exists s os,
    run [SendOp (Op.mk 1 "0:/a=x"); CallNewWatchFrom Any 1;
         SendOp (Op.mk 2 "0:/b=y"); Receive; Receive] New = Some (s, os) /\
    map Event.Seqn (delivered_to 0 os) = [1; 2] /\
    ascending 0 (map Event.Seqn (delivered_to 0 os)).
Proof.
  destruct (run [SendOp (Op.mk 1 "0:/a=x"); CallNewWatchFrom Any 1;
                 SendOp (Op.mk 2 "0:/b=y"); Receive; Receive] New)
    as [[s os]|] eqn:E; [|by vm_compute in E].
  assert (Hwf : Forall wf_action
    [SendOp (Op.mk 1 "0:/a=x"); CallNewWatchFrom Any 1;
     SendOp (Op.mk 2 "0:/b=y"); Receive; Receive])
    by (repeat constructor; by vm_compute).
  destruct (watch_receives_in_order _ s os 0%nat Hwf E) as [H _].
  exists s, os. split; [done|]. split; [|exact H].
  vm_compute in E. by injection E as <- <-.
Defined.

(** X21: the channel that [Wait] returns receives one event at most, and
    that is the event at the position waited for. *)
Theorem Wait_receives_one_event (s s' : Store) (seqn : Z)
    (c : call (option Watch * option error)) (wt : Watch)
    (acts : list action) (os : list output) :
  reachable s -> int64 seqn ->
  Wait s seqn = Some c -> result c = (Some wt, None) ->
  Forall wf_action acts -> run acts (after c) = Some (s', os) ->
  (length (delivered_to (Watch.id wt) os) <= 1)%nat /\
  Forall (fun e => Event.Seqn e = seqn) (delivered_to (Watch.id wt) os).
Proof.
  intros Hr Hseqn E R Hwf Er. pose proof (reachable_settled s Hr) as Hs.
  unfold Wait in E.
  destruct (watchOn Any seqn (add64 seqn 1) s) as [c1|] eqn:Ew; [|discriminate].
  destruct (snd (result c1)) as [err|] eqn:Ee.
  { injection E as <-. simpl in R. discriminate. }
  injection E as <-.
  destruct (watch_receives Any seqn (add64 seqn 1) s c1 wt acts s' os Hs Hseqn
              (int64_wrap64 _) Ew R Hwf Er) as (_ & (lo & Hasc) & Hall).
  assert (Heq : Forall (fun e => Event.Seqn e = seqn) (delivered_to (Watch.id wt) os)).
  { eapply Forall_impl; [exact Hall|]. simpl. intros e [Hw _].
    unfold int64 in Hseqn. destruct (decide (seqn = max_int64)) as [->|Hne].
    - rewrite add64_max in Hw. pose proof min_int64_neg. unfold max_int64 in Hw. lia.
    - rewrite add64_succ in Hw by lia. lia. }
  split; [|done].
  rewrite <- (length_map Event.Seqn). apply (ascending_all_equal lo _ seqn Hasc).
  by apply Forall_map.
Qed.

Lemma Wait_receives_one_event_witness :
  exists s os0 c wt s' os,
    run [SendOp (Op.mk 1 "0:/a=x")] New = Some (s, os0) /\
    Wait s 2 = Some c /\ result c = (Some wt, None) /\
    run [SendOp (Op.mk 2 "0:/b=y"); SendOp (Op.mk 3 "0:/c=z"); Receive] (after c)
    = Some (s', os) /\
    map Event.Seqn (delivered_to (Watch.id wt) os) = [2] /\
    (length (delivered_to (Watch.id wt) os) <= 1)%nat.
Proof.
  destruct (run [SendOp (Op.mk 1 "0:/a=x")] New)
    as [[s os0]|] eqn:E; [|by vm_compute in E].
  assert (Hr : reachable s).
  { eexists _, os0. split; [|exact E]. repeat constructor; by vm_compute. }
  assert (Hk : int64 2) by (unfold int64, min_int64, max_int64; lia).
  destruct (Wait s 2) as [c|] eqn:Ec;
    [|vm_compute in E; injection E as <- <-; by vm_compute in Ec].
  assert (R : result c = (Some (Watch.mk 0 Any 2 3), None)).
  { vm_compute in E. injection E as <- <-. vm_compute in Ec. by injection Ec as <-. }
  destruct (run [SendOp (Op.mk 2 "0:/b=y"); SendOp (Op.mk 3 "0:/c=z"); Receive]
              (after c)) as [[s' os]|] eqn:E';
    [|vm_compute in E; injection E as <- <-; vm_compute in Ec; injection Ec as <-;
      by vm_compute in E'].
  assert (Hwf : Forall wf_action
    [SendOp (Op.mk 2 "0:/b=y"); SendOp (Op.mk 3 "0:/c=z"); Receive])
    by (repeat constructor; by vm_compute).
  destruct (Wait_receives_one_event s s' 2 c _ _ os Hr Hk Ec R Hwf E') as [H _].
  exists s, os0, c, (Watch.mk 0 Any 2 3), s', os.
  split; [done|]. split; [done|]. split; [exact R|]. split; [done|].
  split; [|exact H].
  vm_compute in E. injection E as <- <-. vm_compute in Ec. injection Ec as <-.
  vm_compute in E'. by injection E' as <- <-.
Defined.

(** X22: the watch that [NewWatchFrom] returns receives events in
    ascending order of sequence number, none from before [from], and
    only events whose path its glob matches. *)
Theorem NewWatchFrom_receives (s s' : Store) (g : Glob) (from : Z)
    (c : call (option Watch * option error)) (wt : Watch)
    (acts : list action) (os : list output) :
  reachable s -> int64 from ->
  NewWatchFrom s g from = Some c -> result c = (Some wt, None) ->
  Forall wf_action acts -> run acts (after c) = Some (s', os) ->
  ascending (from - 1) (map Event.Seqn (delivered_to (Watch.id wt) os)) /\
  Forall (fun e => from <= Event.Seqn e /\ Match g (Event.Path e) = true)
    (delivered_to (Watch.id wt) os).
Proof.
  intros Hr Hfrom E R Hwf Er. pose proof (reachable_settled s Hr) as Hs.
  destruct (watch_receives g from max_int64 s c wt acts s' os Hs Hfrom int64_max
              E R Hwf Er) as (_ & (lo & Hasc) & Hall).
  split.
  - apply (ascending_raise lo); [done|]. apply Forall_map.
    eapply Forall_impl; [exact Hall|]. simpl. intros e [? _]. lia.
  - eapply Forall_impl; [exact Hall|]. simpl. intros e [? ?]. split; [lia | done].
Qed.

Lemma NewWatchFrom_receives_witness :
  exists s os0 c wt s' os,
    run [SendOp (Op.mk 1 "0:/a=x"); SendOp (Op.mk 2 "0:/b=y")] New = Some (s, os0) /\
    NewWatchFrom s Any 2 = Some c /\ result c = (Some wt, None) /\
    run [SendOp (Op.mk 3 "0:/c=z"); Receive; Receive] (after c) = Some (s', os) /\
    map Event.Seqn (delivered_to (Watch.id wt) os) = [2; 3] /\
    ascending (2 - 1) (map Event.Seqn (delivered_to (Watch.id wt) os)).
Proof.
  destruct (run [SendOp (Op.mk 1 "0:/a=x"); SendOp (Op.mk 2 "0:/b=y")] New)
    as [[s os0]|] eqn:E; [|by vm_compute in E].
  assert (Hr : reachable s).
  { eexists _, os0. split; [|exact E]. repeat constructor; by vm_compute. }
  assert (Hk : int64 2) by (unfold int64, min_int64, max_int64; lia).
  destruct (NewWatchFrom s Any 2) as [c|] eqn:Ec;
    [|vm_compute in E; injection E as <- <-; by vm_compute in Ec].
  assert (R : result c = (Some (Watch.mk 0 Any 2 max_int64), None)).
  { vm_compute in E. injection E as <- <-. vm_compute in Ec. by injection Ec as <-. }
  destruct (run [SendOp (Op.mk 3 "0:/c=z"); Receive; Receive] (after c))
    as [[s' os]|] eqn:E';
    [|vm_compute in E; injection E as <- <-; vm_compute in Ec; injection Ec as <-;
      by vm_compute in E'].
  assert (Hwf : Forall wf_action [SendOp (Op.mk 3 "0:/c=z"); Receive; Receive])
    by (repeat constructor; by vm_compute).
  destruct (NewWatchFrom_receives s s' Any 2 c _ _ os Hr Hk Ec R Hwf E') as [H _].
  exists s, os0, c, (Watch.mk 0 Any 2 max_int64), s', os.
  split; [done|]. split; [done|]. split; [exact R|]. split; [done|].
  split; [|exact H].
  vm_compute in E. injection E as <- <-. vm_compute in Ec. injection Ec as <-.
  vm_compute in E'. by injection E' as <- <-.
Defined.
Section History.

Lemma selects_not_flush a s sel : selects a s sel -> a <> CallFlush -> sel <> RecvFlush.
Proof.
  destruct a; simpl; try (by intros ->); try done;
    by intros (wt & -> & _).
Qed.

Lemma selects_not_clean a s sel :
  selects a s sel -> trims a = false ->
  sel <> RecvFlush /\ match sel with RecvClean _ => False | _ => True end.
Proof.
  destruct a; simpl; try (by intros ->); try done;
    by intros (wt & -> & _).
Qed.

Lemma applied_events_app os os' :
  applied_events (os ++ os') = applied_events os ++ applied_events os'.
Proof. unfold applied_events. by rewrite map_app, concat_app. Qed.

(** Without [Flush], what a history applies follows the version with no
    gap. *)
Lemma run_consecutive acts : forall s s' os,
  Inv s -> Forall wf_action acts -> Forall (fun a => a <> CallFlush) acts ->
  run acts s = Some (s', os) ->
  consecutive (ver (Store.state s)) (applied_seqns os).
Proof.
  induction acts as [|a acts IH]; intros s s' os I Hwf Hnf.
  - by intros [= <- <-].
  - apply Forall_cons in Hwf as [Ha Hacts]. apply Forall_cons in Hnf as [Hna Hnf].
    intros E. apply run_cons in E as (s1 & os1 & os2 & E1 & E2 & E3).
    simpl in *. subst os.
    destruct (exec_spec a s s1 os1 I Ha E1) as [(I1 & _ & _ & V & _) _].
    rewrite applied_seqns_app. apply consecutive_app.
    + destruct (exec_iteration a s s1 os1 I Ha E1)
        as [(-> & _)|(s0 & s2 & sel & o & -> & Ep & I0 & Hw0 & Hsel & S0 & _)];
        [done|].
      rewrite applied_seqns_one, <- S0.
      apply (process_consecutive s0 sel s2 o I0 Hw0); [|done].
      by apply (selects_not_flush a s).
    + rewrite <- V. by apply (IH s1 s' os2).
Qed.

(** Without [Clean] and [Flush], the log keeps what it holds and gains
    every event applied. *)
Lemma run_log acts : forall s s' os,
  Inv s -> Forall wf_action acts ->
  forallb (fun a => negb (trims a)) acts = true ->
  run acts s = Some (s', os) ->
  (forall n e, Store.log s !! n = Some e -> Store.log s' !! n = Some e) /\
  (forall e, In e (applied_events os) -> Store.log s' !! Event.Seqn e = Some e).
Proof.
  induction acts as [|a acts IH]; intros s s' os I Hwf Hnt.
  - intros [= <- <-]. split; [done | by intros e []].
  - apply Forall_cons in Hwf as [Ha Hacts]. simpl in Hnt.
    apply andb_true_iff in Hnt as [Hn Hnt]. apply negb_true_iff in Hn.
    intros E. apply run_cons in E as (s1 & os1 & os2 & E1 & E2 & E3).
    simpl in *. subst os.
    destruct (exec_spec a s s1 os1 I Ha E1) as [(I1 & _) _].
    destruct (IH s1 s' os2 I1 Hacts Hnt E2) as [K2 A2].
    assert (H1 : (forall n e, Store.log s !! n = Some e -> Store.log s1 !! n = Some e) /\
                 (forall e, In e (applied_events os1) ->
                    Store.log s1 !! Event.Seqn e = Some e)).
    { destruct (exec_iteration a s s1 os1 I Ha E1)
        as [(-> & _ & L)|(s0 & s2 & sel & o & -> & Ep & I0 & Hw0 & Hsel & _ & L0 & _ & L1)].
      - rewrite L. split; [done | by intros e []].
      - destruct (selects_not_clean a s sel Hsel Hn) as [Hnf Hnc].
        destruct (process_consecutive s0 sel s2 o I0 Hw0 Hnf Ep) as (_ & K & A).
        rewrite L1, <- L0. split; [by apply K|].
        unfold applied_events. simpl. rewrite app_nil_r. exact A. }
    destruct H1 as [K1 A1]. split.
    + intros n e Hn'. by apply K2, K1.
    + intros e He. rewrite applied_events_app in He.
      apply in_app_or in He as [He|He]; [by apply K2, A1 | by apply A2].
Qed.

End History.

(** X23: without [Flush] the events are applied with no gap: the k-th
    event applied has sequence number k, and the version is the number of
    events applied. *)
Theorem no_gaps_without_Flush (acts : list action) (s : Store) (os : list output) :
  Forall wf_action acts -> Forall (fun a => a <> CallFlush) acts ->
  run acts New = Some (s, os) ->
  consecutive 0 (applied_seqns os) /\
  fst (Snap s) = Z.of_nat (length (applied_seqns os)).
Proof.
  intros Hwf Hnf E.
  pose proof (run_consecutive acts New s os Inv_New Hwf Hnf E) as C.
  destruct (run_spec acts New s os Inv_New Hwf E) as (_ & _ & _ & V & _).
  simpl in C, V. split; [done|]. simpl. rewrite V.
  by rewrite (consecutive_last 0 _ C).
Qed.

Lemma no_gaps_without_Flush_witness :
  exists s os,
    run [SendOp (Op.mk 3 "0:/a=x"); SendOp (Op.mk 2 "0:/b=y");
         SendOp (Op.mk 1 "0:/c=z"); CallClean 1] New = Some (s, os) /\
    applied_seqns os = [1; 2; 3] /\
    consecutive 0 (applied_seqns os) /\ fst (Snap s) = 3.
Proof.
  destruct (run [SendOp (Op.mk 3 "0:/a=x"); SendOp (Op.mk 2 "0:/b=y");
                 SendOp (Op.mk 1 "0:/c=z"); CallClean 1] New)
    as [[s os]|] eqn:E; [|by vm_compute in E].
  assert (Hwf : Forall wf_action
    [SendOp (Op.mk 3 "0:/a=x"); SendOp (Op.mk 2 "0:/b=y");
     SendOp (Op.mk 1 "0:/c=z"); CallClean 1]) by (repeat constructor; by vm_compute).
  assert (Hnf : Forall (fun a => a <> CallFlush)
    [SendOp (Op.mk 3 "0:/a=x"); SendOp (Op.mk 2 "0:/b=y");
     SendOp (Op.mk 1 "0:/c=z"); CallClean 1]) by (repeat constructor; discriminate).
  destruct (no_gaps_without_Flush _ s os Hwf Hnf E) as [H1 H2].
  assert (Ha : applied_seqns os = [1; 2; 3]).
  { vm_compute in E. by injection E as <- <-. }
  exists s, os. split; [done|]. split; [exact Ha|]. split; [exact H1|].
  rewrite H2, Ha. reflexivity.
Defined.

(** X24: without [Clean] and [Flush] the log holds the whole history:
    every event applied is in the log under its sequence number, and
    every position from 1 to the version holds the event applied there. *)
Theorem log_holds_the_history (acts : list action) (s : Store) (os : list output) :
  Forall wf_action acts -> forallb (fun a => negb (trims a)) acts = true ->
  run acts New = Some (s, os) ->
  (forall e, In e (applied_events os) -> Store.log s !! Event.Seqn e = Some e) /\
  (forall n, 1 <= n <= ver (Store.state s) ->
     exists e, Store.log s !! n = Some e /\ In e (applied_events os)).
Proof.
  intros Hwf Hnt E.
  destruct (run_log acts New s os Inv_New Hwf Hnt E) as [_ A].
  split; [done|]. intros n Hn.
  assert (Hnf : Forall (fun a => a <> CallFlush) acts).
  { apply List.Forall_forall. intros a Ha ->.
    rewrite forallb_forall in Hnt. by specialize (Hnt _ Ha). }
  pose proof (run_consecutive acts New s os Inv_New Hwf Hnf E) as C.
  destruct (run_spec acts New s os Inv_New Hwf E) as (_ & _ & _ & V & _).
  simpl in C, V. rewrite (consecutive_last 0 _ C) in V.
  assert (Hin : In n (applied_seqns os)).
  { apply (consecutive_In 0 _ n C). lia. }
  unfold applied_seqns in Hin. apply in_map_iff in Hin as (e & <- & He).
  exists e. split; [by apply A | done].
Qed.

Lemma log_holds_the_history_witness :
  exists s os,
    run [SendOp (Op.mk 2 "0:/b=y"); SendOp (Op.mk 1 "0:/c=z")] New = Some (s, os) /\
    ver (Store.state s) = 2 /\
    exists e, Store.log s !! 2 = Some e /\ In e (applied_events os).
Proof.
  destruct (run [SendOp (Op.mk 2 "0:/b=y"); SendOp (Op.mk 1 "0:/c=z")] New)
    as [[s os]|] eqn:E; [|by vm_compute in E].
  assert (Hwf : Forall wf_action
    [SendOp (Op.mk 2 "0:/b=y"); SendOp (Op.mk 1 "0:/c=z")])
    by (repeat constructor; by vm_compute).
  destruct (log_holds_the_history _ s os Hwf eq_refl E) as [_ H].
  assert (Hv : ver (Store.state s) = 2).
  { vm_compute in E. by injection E as <- <-. }
  exists s, os. split; [done|]. split; [exact Hv|]. apply H. rewrite Hv. lia.
Defined.
